(** * Refinery: the tag path handler and the heuristic deprotection walker

    A shallow embedding of [refinery/tag_index/tag_path_handler.py]
    (class [TagPathHandler]: the path authority with [set_path],
    [set_path_by_priority] and the accessors, and the compactor
    [shorten_paths]) and of the entry point [heuristic_deprotect] of
    [refinery/heuristic_deprotection/functions.py] (the dependency walker),
    with the properties of the rename-resolution engine stated and proved
    over it.

    Conventions of the embedding:
    - Python [str] is [string]; characters are bytes, and [lower], [strip]
      act on the ASCII range.
    - A tag identity is [option Z]: [None] is Python's [None]; the masking
      [index & 0xFFff] is [Z.land index 0xFFFF].
    - A priority is an extended number: [NegInf] and [PosInf] are [-INF] and
      [INF = float("inf")]; a finite priority is a number with an integer
      value, a Python [int] or a [float] that holds an integer. Python
      compares the two kinds exactly, so comparisons are those of the
      values; [float(x)], which the setters of the handler apply to what
      they store, rounds an [int] to the nearest double and raises
      [OverflowError] when there is none.
    - The dictionaries of the handler are [gmap]s, the [seen] set is a
      [gset]; the nested dictionaries of the compactor, which are shared
      and mutated through several references, live in a store.
    - A raised exception is the left injection of a sum; where a method can
      raise after it has changed the handler, the exception comes with the
      state it leaves behind.
    - Loops that Python runs with [while True] and the recursion of the
      walker take fuel; printing is left out, except for the messages of
      [shorten_paths].
    - The helpers of [refinery.util] that are not among the sources are
      [sanitize_win32_path], a parameter, and [get_unique_name], modelled
      from the specification. *)

From Stdlib Require Import ZArith Lia Ascii String.
From stdpp Require Import base option list gmap sets strings pretty.

Local Open Scope Z_scope.

(** ** Exceptions and results *)

Inductive exn : Type :=
  | KeyError
  | ValueError (msg : string)
  | AttributeError
  | TypeError
  | IndexError
  | OverflowError.

Definition result : Type → Type := sum exn.

Definition raise {A : Type} (e : exn) : result A := inl e.

Global Instance result_ret : MRet result := λ A a, inr a.
Global Instance result_bind : MBind result := λ A B f m,
  match m with
  | inl e => inl e
  | inr a => f a
  end.

(** ** Priorities *)

Inductive Priority : Type :=
  | NegInf
  | Fin (z : Z)
  | PosInf.

Definition INF : Priority := PosInf.

Global Instance priority_eq_dec : EqDecision Priority.
Proof. solve_decision. Defined.

(** [a < b] on priorities, as Python compares floats. *)
Definition prio_ltb (a b : Priority) : bool :=
  match a, b with
  | NegInf, NegInf => false
  | NegInf, _ => true
  | Fin _, NegInf => false
  | Fin x, Fin y => x <? y
  | Fin _, PosInf => true
  | PosInf, _ => false
  end.

Definition prio_eqb (a b : Priority) : bool := bool_decide (a = b).

Definition prio_leb (a b : Priority) : bool := negb (prio_ltb b a).

Definition prio_min (a b : Priority) : Priority :=
  if prio_ltb b a then b else a.

Definition prio_max (a b : Priority) : Priority :=
  if prio_ltb a b then b else a.

(** [x - 1], for the depth counter ([INF - 1 = INF]). *)
Definition prio_pred (a : Priority) : Priority :=
  match a with
  | Fin z => Fin (z - 1)
  | _ => a
  end.

(** [float(x)] for a non-negative [int]: the nearest number with a
    significand of 53 bits, the even one of two that are equally near. Below
    2^53 every integer is its own double. *)
Definition round_to_double (n : Z) : Z :=
  let e := Z.max 0 (Z.log2 n - 52) in
  let q := n / 2 ^ e in
  let r := n mod 2 ^ e in
  let q :=
    if 2 * r <? 2 ^ e then q
    else if 2 ^ e <? 2 * r then q + 1
    else if Z.even q then q else q + 1 in
  q * 2 ^ e.

(** [float(x)]. An infinity is itself; so is a float that holds an integer,
    which is its own nearest double. An [int] is rounded, and raises
    [OverflowError] when it rounds to 2^1024 or beyond. *)
Definition float (x : Priority) : result Priority :=
  match x with
  | Fin z =>
      let m := round_to_double (Z.abs z) in
      if 2 ^ 1024 <=? m then raise OverflowError
      else mret (Fin (Z.sgn z * m))
  | _ => mret x
  end.

(** ** Python string operations *)

Definition lower_ascii (c : ascii) : ascii :=
  let n := nat_of_ascii c in
  if ((65 <=? n) && (n <=? 90))%nat then ascii_of_nat (n + 32) else c.

Fixpoint lower (s : string) : string :=
  match s with
  | EmptyString => EmptyString
  | String c s' => String (lower_ascii c) (lower s')
  end.

Fixpoint rev_string_onto (s acc : string) : string :=
  match s with
  | EmptyString => acc
  | String c s' => rev_string_onto s' (String c acc)
  end.

Definition rev_string (s : string) : string := rev_string_onto s EmptyString.

(** [s.lstrip(chars)], with the set of characters as a predicate. *)
Fixpoint lstrip (p : ascii → bool) (s : string) : string :=
  match s with
  | EmptyString => EmptyString
  | String c s' => if p c then lstrip p s' else s
  end.

Definition strip_chars (p : ascii → bool) (s : string) : string :=
  rev_string (lstrip p (rev_string (lstrip p s))).

(** ASCII white space, as [str.strip()] removes it. *)
Definition is_space (c : ascii) : bool :=
  let n := nat_of_ascii c in
  (((9 <=? n) && (n <=? 13)) || ((28 <=? n) && (n <=? 32)))%nat.

Definition strip (s : string) : string := strip_chars is_space s.

Definition DIGIT_CHARS : string := "0123456789".
Definition DIGIT_US_CHARS : string := DIGIT_CHARS +:+ "_".

Fixpoint char_in (c : ascii) (chars : string) : bool :=
  match chars with
  | EmptyString => false
  | String d chars' => if Ascii.eqb c d then true else char_in c chars'
  end.

(** The last character, for [s[-1]] and [s[-1:]]; none for the empty
    string. *)
Fixpoint last_char (s : string) : option ascii :=
  match s with
  | EmptyString => None
  | String c EmptyString => Some c
  | String _ s' => last_char s'
  end.

Fixpoint startswith (s prefix : string) : bool :=
  match prefix, s with
  | EmptyString, _ => true
  | String p prefix', String c s' => if Ascii.eqb c p then startswith s' prefix' else false
  | String _ _, EmptyString => false
  end.

(** [s.split(sep)] for a one-character separator class: empty pieces are
    kept, and the result is never empty. *)
Fixpoint split_by (p : ascii → bool) (s : string) : list string :=
  match s with
  | EmptyString => [EmptyString]
  | String c s' =>
      if p c then EmptyString :: split_by p s'
      else match split_by p s' with
           | [] => [String c EmptyString]
           | w :: ws => String c w :: ws
           end
  end.

(** [sep.join(pieces)]. *)
Fixpoint join (sep : string) (pieces : list string) : string :=
  match pieces with
  | [] => EmptyString
  | [w] => w
  | w :: ws => w +:+ sep +:+ join sep ws
  end.

(** [s.rsplit(sep, 1)]: split once at the last occurrence of the character,
    [(None, s)] when it does not occur. *)
Fixpoint rsplit1 (sep : ascii) (s : string) : option string * string :=
  match s with
  | EmptyString => (None, EmptyString)
  | String c s' =>
      match rsplit1 sep s' with
      | (Some h, t) => (Some (String c h), t)
      | (None, t) =>
          if Ascii.eqb c sep then (Some EmptyString, t) else (None, String c t)
      end
  end.

(** [s.replace(a, b)] for single characters. *)
Fixpoint replace_char (a b : ascii) (s : string) : string :=
  match s with
  | EmptyString => EmptyString
  | String c s' => String (if Ascii.eqb c a then b else c) (replace_char a b s')
  end.

(** ** Windows paths

    [PureWindowsPath] of the Python standard library, for paths without a
    drive: a path object is the list of its [parts]. A leading separator
    gives the root part ["\"]; ["/"] is accepted as a separator; empty and
    ["."] components are dropped. *)

Definition is_sep (c : ascii) : bool :=
  Ascii.eqb c "\" || Ascii.eqb c "/".

Definition root_part : string := "\".

Definition is_component (w : string) : bool :=
  negb (String.eqb w "") && negb (String.eqb w ".").

(** [PureWindowsPath(s).parts] *)
Definition parts (s : string) : list string :=
  let comps := List.filter is_component (split_by is_sep s) in
  match s with
  | String c _ => if is_sep c then root_part :: comps else comps
  | EmptyString => comps
  end.

(** [PureWindowsPath] applied to several pieces: the pieces are parsed and
    appended; a piece that is rooted replaces what came before it. *)
Definition join_piece (acc : list string) (piece : string) : list string :=
  match parts piece with
  | r :: rest => if String.eqb r root_part then r :: rest else acc ++ r :: rest
  | [] => acc
  end.

Definition PureWindowsPath (pieces : list string) : list string :=
  foldl join_piece [] pieces.

(** [str(path)] *)
Definition path_str (ps : list string) : string :=
  match ps with
  | [] => "."
  | r :: rest =>
      if String.eqb r root_part then r +:+ join "\" rest else join "\" ps
  end.

(** [path.name]: the last part, empty for the empty path and for the root. *)
Definition path_name (ps : list string) : string :=
  match ps with
  | [r] => if String.eqb r root_part then "" else r
  | _ => default "" (last ps)
  end.

(** A name split at its last dot, as [name.rfind(".")] finds it:
    [(Some stem, rest)] where [rest] follows the dot. *)
Definition rsplit_dot (name : string) : option string * string :=
  rsplit1 "." name.

(** [path.suffix]: from the last dot of the name on, when that dot is
    neither the first nor the last character of the name. *)
Definition suffix_of_name (name : string) : string :=
  match rsplit_dot name with
  | (Some stem, rest) =>
      if String.eqb stem "" || String.eqb rest "" then "" else "." +:+ rest
  | (None, _) => ""
  end.

Definition stem_of_name (name : string) : string :=
  match rsplit_dot name with
  | (Some stem, rest) =>
      if String.eqb stem "" || String.eqb rest "" then name else stem
  | (None, _) => name
  end.

(** [path.with_suffix(suffix)] for a suffix that is empty or was itself read
    off a name with [suffix_of_name]: a path with an empty name raises
    [ValueError]. *)
Definition with_suffix (ps : list string) (suffix : string) : result (list string) :=
  if String.eqb (path_name ps) "" then raise (ValueError "path has an empty name")
  else mret (removelast ps ++ [stem_of_name (path_name ps) +:+ suffix]).

(** [os.path.splitext(name)] on a name without separators: the extension
    starts at the last dot, unless only dots come before it. *)
Definition all_dots (s : string) : bool :=
  String.eqb (lstrip (λ c, Ascii.eqb c ".") s) "".

Definition splitext (name : string) : string * string :=
  match rsplit_dot name with
  | (Some stem, rest) =>
      if all_dots stem then (name, "") else (stem, "." +:+ rest)
  | (None, _) => (name, "")
  end.

(** ** Unique names *)

(** Modelled from the spec: [get_unique_name(collection, name, ext,
    curr_value)] of [refinery.util] is not among the sources. Section 4.2 of
    the specification has it probe increasing numeric suffixes, set off by a
    reserved separator, until the name with its extension is unused; the
    separator is the ["#"] that [set_path] splits on. [taken] tells whether
    [collection.get(key)] is some value other than [None] and [curr_value].
    The loop below makes at most [bound] further probes after the first; with
    [bound] the number of entries of the collection that always finds a free
    name (lemma [get_unique_name_loop_finds]). *)
Fixpoint get_unique_name_loop (taken : string → bool) (name ext : string)
    (bound : nat) (i : nat) (final_name : string) : option string :=
  if taken (final_name +:+ ext) then
    match bound with
    | O => None
    | S bound' =>
        get_unique_name_loop taken name ext bound' (S i)
          (name +:+ " #" +:+ pretty i)
    end
  else Some final_name.

Definition get_unique_name (taken : string → bool) (bound : nat)
    (name ext : string) : string :=
  default name (get_unique_name_loop taken name ext bound 1%nat name).

(** ** The tag index and the handler state *)

(** An entry of the tag index: [ref.path], [ref.class_1.enum_name],
    [ref.indexed]. *)
Record tag_ref : Type := TagRef {
  path : string;
  enum_name : string;
  indexed : bool;
}.

Record TagPathHandler : Type := Handler {
  _root_dir_prefix : string;
  _path_map : gmap string Z;
  _index_map : list tag_ref;
  _priorities : gmap Z Priority;
  _priority_mins : gmap Z Priority;
  _perm_suffixed_tag_classes : gset string;
  _def_priority : Priority;
  _overwritables : gmap Z bool;
}.

Definition with_path_map (h : TagPathHandler) (m : gmap string Z) : TagPathHandler :=
  Handler (_root_dir_prefix h) m (_index_map h) (_priorities h)
    (_priority_mins h) (_perm_suffixed_tag_classes h) (_def_priority h)
    (_overwritables h).

Definition with_index_map (h : TagPathHandler) (l : list tag_ref) : TagPathHandler :=
  Handler (_root_dir_prefix h) (_path_map h) l (_priorities h)
    (_priority_mins h) (_perm_suffixed_tag_classes h) (_def_priority h)
    (_overwritables h).

Definition with_priorities (h : TagPathHandler) (m : gmap Z Priority) : TagPathHandler :=
  Handler (_root_dir_prefix h) (_path_map h) (_index_map h) m
    (_priority_mins h) (_perm_suffixed_tag_classes h) (_def_priority h)
    (_overwritables h).

Definition with_priority_mins (h : TagPathHandler) (m : gmap Z Priority) : TagPathHandler :=
  Handler (_root_dir_prefix h) (_path_map h) (_index_map h) (_priorities h)
    m (_perm_suffixed_tag_classes h) (_def_priority h) (_overwritables h).

Definition with_overwritables (h : TagPathHandler) (m : gmap Z bool) : TagPathHandler :=
  Handler (_root_dir_prefix h) (_path_map h) (_index_map h) (_priorities h)
    (_priority_mins h) (_perm_suffixed_tag_classes h) (_def_priority h) m.

Definition with_path (r : tag_ref) (p : string) : tag_ref :=
  TagRef p (enum_name r) (indexed r).

(** [index & 0xFFff] *)
Definition mask (index : Z) : Z := Z.land index 0xFFFF.

(** [index in range(len(self._index_map))] *)
Definition in_index_range (h : TagPathHandler) (index : Z) : bool :=
  bool_decide (0 ≤ index < Z.of_nat (length (_index_map h))).

(** The body of the loop of [__init__] for the entry [ref] at position [i]. *)
Definition init_entry (h : TagPathHandler) (i : Z) (ref : tag_ref) : TagPathHandler :=
  let path := lower (path ref +:+ "." +:+ enum_name ref) in
  let priority := if indexed ref then INF else _def_priority h in
  Handler (_root_dir_prefix h) (<[path := i]> (_path_map h)) (_index_map h)
    (<[i := priority]> (_priorities h)) (<[i := priority]> (_priority_mins h))
    (_perm_suffixed_tag_classes h) (_def_priority h)
    (<[i := negb (indexed ref)]> (_overwritables h)).

Fixpoint init_loop (refs : list tag_ref) (i : Z) (h : TagPathHandler) : TagPathHandler :=
  match refs with
  | [] => h
  | ref :: refs' => init_loop refs' (i + 1) (init_entry h i ref)
  end.

(** [TagPathHandler(tag_index_array, def_priority=..., priorities=...,
    priority_mins=..., perm_suffixed_tag_classes=...)] *)
Definition __init__ (tag_index_array : list tag_ref) (def_priority : Priority)
    (priorities priority_mins : gmap Z Priority)
    (perm_suffixed_tag_classes : gset string) : TagPathHandler :=
  init_loop tag_index_array 0
    (Handler "" ∅ tag_index_array priorities priority_mins
       perm_suffixed_tag_classes def_priority ∅).

Definition root_dir_prefix (h : TagPathHandler) : string := _root_dir_prefix h.

Definition set_perm_suffixed_tag_classes (h : TagPathHandler)
    (tag_classes : gset string) : TagPathHandler :=
  Handler (_root_dir_prefix h) (_path_map h) (_index_map h) (_priorities h)
    (_priority_mins h) tag_classes (_def_priority h) (_overwritables h).

Definition get_index_ref (h : TagPathHandler) (index : option Z) : option tag_ref :=
  match index with
  | None => None
  | Some index =>
      let index := mask index in
      if in_index_range h index then _index_map h !! Z.to_nat index else None
  end.

Definition get_path (h : TagPathHandler) (index : option Z) : string :=
  match get_index_ref h index with
  | Some tag_ref => path tag_ref
  | None => ""
  end.

Definition get_ext (h : TagPathHandler) (index : option Z) : string :=
  match get_index_ref h index with
  | Some tag_ref => enum_name tag_ref
  | None => ""
  end.

Definition get_priority (h : TagPathHandler) (index : option Z) : Priority :=
  match index with
  | None => NegInf
  | Some index => default NegInf (_priorities h !! mask index)
  end.

Definition get_priority_min (h : TagPathHandler) (index : option Z) : Priority :=
  match index with
  | None => INF
  | Some index => default INF (_priority_mins h !! mask index)
  end.

Definition get_overwritable (h : TagPathHandler) (index : option Z) : bool :=
  match index with
  | None => false
  | Some index => default false (_overwritables h !! mask index)
  end.

(** [set_priority(index, priority)]: what is stored is [float(priority)],
    and the conversion is only made for an index inside the tag index. *)
Definition set_priority (h : TagPathHandler) (index : option Z) (priority : Priority)
    : result TagPathHandler :=
  match index with
  | None => mret h
  | Some index =>
      let index := mask index in
      if in_index_range h index
      then p ← float priority;
           mret (with_priorities h (<[index := p]> (_priorities h)))
      else mret h
  end.

Definition set_priority_min (h : TagPathHandler) (index : option Z) (priority : Priority)
    : result TagPathHandler :=
  match index with
  | None => mret h
  | Some index =>
      let index := mask index in
      if in_index_range h index
      then p ← float priority;
           mret (with_priority_mins h (<[index := p]> (_priority_mins h)))
      else mret h
  end.

Definition set_overwritable (h : TagPathHandler) (index : option Z) (new_val : bool) : TagPathHandler :=
  match index with
  | None => h
  | Some index =>
      let index := mask index in
      if in_index_range h index
      then with_overwritables h (<[index := new_val]> (_overwritables h))
      else h
  end.

(** [get_will_overwrite]; reading [tag_ref.indexed] off a missing entry
    raises [AttributeError]. *)
Definition get_will_overwrite (h : TagPathHandler) (index : option Z)
    (priority : option Priority) (override : bool) : result bool :=
  match index with
  | None => mret false
  | Some _ =>
      let priority := default (_def_priority h) priority in
      if negb (get_overwritable h index) then mret false
      else
        let tag_ref := get_index_ref h index in
        if prio_ltb priority (get_priority h index) then mret false
        else
          pinned_or_equal ←
            (if prio_eqb (get_priority h index) priority then mret true
             else match tag_ref with
                  | Some r => mret (indexed r)
                  | None => raise AttributeError
                  end);
          if pinned_or_equal && negb override then mret false else mret true
  end.

(** [collection.get(key) not in (None, index)] on the path map. *)
Definition path_taken (m : gmap string Z) (index : Z) (key : string) : bool :=
  match m !! key with
  | None => false
  | Some owner => negb (owner =? index)
  end.

(** The [try] block of [set_path]: drop a [#digits] marker from the last
    piece. On an empty list of pieces [path_pieces[-1]] raises, and the
    [except] leaves the pieces as they are. *)
Definition strip_unique_suffix (can_be_digit_suffixed : bool)
    (path_pieces : list string) : list string :=
  match last path_pieces with
  | None => path_pieces
  | Some basename =>
      let '(head, tail) := rsplit1 "#" basename in
      let chars := if can_be_digit_suffixed then DIGIT_CHARS else DIGIT_US_CHARS in
      if String.eqb (strip_chars (λ c, char_in c chars) tail) ""
      then removelast path_pieces ++ [default tail head]
      else path_pieces
  end.

Definition ends_with_digit (s : string) : bool :=
  match last_char s with
  | Some c => char_in c DIGIT_CHARS
  | None => false
  end.

Definition ends_with_backslash (s : string) : bool :=
  match last_char s with
  | Some c => Ascii.eqb c "\"
  | None => false
  end.

Section handler.

(** [sanitize_win32_path] of [refinery.util] is not among the sources: it
    takes a string and returns a [PureWindowsPath], here the list of its
    parts. Everything below holds whatever it computes. *)
Variable sanitize_win32_path : string → list string.

(** [set_path(index, new_path_no_ext, ensure_unique_name=...,
    ensure_root_prefixed=...)]. The result is the new state and the value
    returned, [None] when the method returns without a value. The [KeyError]
    is raised before anything is modified. *)
Definition set_path (h : TagPathHandler) (index : option Z)
    (new_path_no_ext : string) (ensure_unique_name ensure_root_prefixed : bool)
    : result (TagPathHandler * option string) :=
  match index with
  | None => mret (h, None)
  | Some index =>
      let index := mask index in
      let new_path_no_ext := lower new_path_no_ext in
      let new_path_no_ext :=
        if ensure_root_prefixed && negb (startswith new_path_no_ext (root_dir_prefix h))
        then root_dir_prefix h +:+ new_path_no_ext
        else new_path_no_ext in
      match get_index_ref h (Some index) with
      | None => mret (h, None)
      | Some tag_ref =>
          let new_path_no_ext :=
            if String.eqb new_path_no_ext "" || ends_with_backslash new_path_no_ext
            then new_path_no_ext +:+ "protected_" +:+ pretty index
            else new_path_no_ext in
          let ext := lower (enum_name tag_ref) in
          let can_be_digit_suffixed :=
            bool_decide (ext ∉ _perm_suffixed_tag_classes h) in
          let ext := "." +:+ ext in
          let new_path_no_ext :=
            lower (strip (path_str (sanitize_win32_path new_path_no_ext))) in
          let unique_issue :=
            path_taken (_path_map h) index (new_path_no_ext +:+ ext) in
          let suffix_issue :=
            negb can_be_digit_suffixed && ends_with_digit new_path_no_ext in
          let new_path_no_ext :=
            if suffix_issue || (ensure_unique_name && unique_issue) then
              let path_pieces :=
                strip_unique_suffix can_be_digit_suffixed (parts new_path_no_ext) in
              let unique :=
                get_unique_name (path_taken (_path_map h) index)
                  (size (_path_map h))
                  (path_str (PureWindowsPath path_pieces))
                  ((if can_be_digit_suffixed then "" else "_") +:+ ext) in
              if can_be_digit_suffixed then unique else unique +:+ "_"
            else new_path_no_ext in
          let old_path := lower (path tag_ref) +:+ ext in
          let new_path := new_path_no_ext +:+ ext in
          if path_taken (_path_map h) index new_path then raise KeyError
          else
            mret (with_index_map
                    (with_path_map h
                       (<[new_path := index]> (delete old_path (_path_map h))))
                    (<[Z.to_nat index := with_path tag_ref new_path_no_ext]>
                       (_index_map h)),
                  Some new_path)
      end
  end.

(** [set_path_by_priority(index, new_path_no_ext, priority, override)]. The
    path is set before the priority is stored, so an exception of
    [set_priority] leaves the handler with the new path: an exception comes
    with the state the call leaves. The value returned is the priority as
    it was given, not the float stored. *)
Definition set_path_by_priority (h : TagPathHandler) (index : option Z)
    (new_path_no_ext : string) (priority : option Priority) (override : bool)
    : exn * TagPathHandler + TagPathHandler * Priority :=
  match get_index_ref h index with
  | None => inr (h, NegInf)
  | Some tag_ref =>
      let priority := default (_def_priority h) priority in
      match get_will_overwrite h index (Some priority) override with
      | inl e => inl (e, h)
      | inr will_overwrite =>
          if negb will_overwrite then inr (h, get_priority h index)
          else
            match set_path h index new_path_no_ext true true with
            | inl e => inl (e, h)
            | inr (h', _) =>
                match set_priority h' index priority with
                | inl e => inl (e, h')
                | inr h'' => inr (h'', priority)
                end
            end
      end
  end.

(** [get_sub_dir(index, root)]. [dirs] and [root_dirs] are tuples, so the
    first statement of the loop body, [dirs.pop(0)], raises
    [AttributeError] as soon as the loop is entered. *)
Definition get_sub_dir (h : TagPathHandler) (index : option Z) (root : string)
    : result string :=
  match get_index_ref h index with
  | None => mret ""
  | Some tag_ref =>
      let root_dirs := parts root in
      let dirs := removelast (parts (path tag_ref)) in
      match dirs, root_dirs with
      | d :: _, r :: _ =>
          if String.eqb d r then raise AttributeError
          else mret (path_str (PureWindowsPath dirs) +:+ "\")
      | [], _ => mret ""
      | _ :: _, [] => mret (path_str (PureWindowsPath dirs) +:+ "\")
      end
  end.

Definition get_basename (h : TagPathHandler) (index : option Z) : string :=
  match get_index_ref h index with
  | None => ""
  | Some tag_ref => path_name (parts (path tag_ref))
  end.

End handler.

(** ** The dependency walker *)

(** The keyword arguments [heuristic_deprotect] reads: [kw.get("priority")],
    the three flags (absent reads as false), [kw.get("override")] and
    [kw["depth"]], absent until [setdefault] puts [INF] there. The [seen] set
    is shared by the whole call tree and is threaded with the handler. *)
Record kwargs : Type := Kwargs {
  kw_priority : option Priority;
  kw_use_minimum_priorities : bool;
  kw_use_minimum_equal_priorities : bool;
  kw_return_on_equal_min_priority : bool;
  kw_override : bool;
  kw_depth : option Priority;
}.

Definition with_depth (kw : kwargs) (d : Priority) : kwargs :=
  Kwargs (kw_priority kw) (kw_use_minimum_priorities kw)
    (kw_use_minimum_equal_priorities kw) (kw_return_on_equal_min_priority kw)
    (kw_override kw) (Some d).

(** The handler together with the [seen] set. *)
Definition world : Type := TagPathHandler * gset Z.

(** A naming policy (one of the [rename_*] functions) is a finite program
    over the handler and the walker: it reads the handler, proposes paths
    with [set_path_by_priority], recurses into other tags with
    [heuristic_deprotect], folds priorities into the accumulator handed to
    it ([min_prio.val = ...]) and returns or raises. An operation that
    raises hands the exception to the continuation, which may go on (a
    [try] in the policy) or be [Fault]. *)
Inductive policy_prog : Type :=
  | Done
  | Fault
  | Inspect (k : TagPathHandler → gset Z → policy_prog)
  | Propose (index : option Z) (new_path_no_ext : string)
      (priority : option Priority) (override : bool)
      (k : result Priority → policy_prog)
  | Recurse (tag_id : option Z) (root_dir sub_dir name : string) (kw : kwargs)
      (k : result Priority → policy_prog)
  | FoldMin (v : Priority) (k : policy_prog).

(** [rename_func(tag_id, halo_map, tag_path_handler, root_dir, sub_dir,
    name, **kw)] *)
Definition rename_func : Type :=
  option Z → string → string → string → kwargs → policy_prog.

Definition walker : Type :=
  option Z → string → string → string → kwargs → world →
  option (world * result Priority).

Section walker.

Variable sanitize_win32_path : string → list string.

(** The table [recursive_rename_functions], keyed by class name. *)
Variable recursive_rename_functions : string → option rename_func.

(** Modelled from the spec: [MinPriority] of
    [refinery.heuristic_deprotection.util] is not among the sources. It is
    the local minimum-priority accumulator of section 4.1: it starts at
    [INF], and assigning to [val] folds the minimum in. [acc] below is its
    value. Running a policy: an exception that leaves the policy is caught
    by the walker, so the outcome is the world and the accumulator reached.
    [None] is only returned when a nested walk runs out of fuel. *)
Fixpoint run_policy (walk : walker) (p : policy_prog) (w : world)
    (acc : Priority) : option (world * Priority) :=
  match p with
  | Done => Some (w, acc)
  | Fault => Some (w, acc)
  | Inspect k => run_policy walk (k w.1 w.2) w acc
  | Propose index new_path_no_ext priority override k =>
      match set_path_by_priority sanitize_win32_path w.1 index new_path_no_ext
              priority override with
      | inl (e, h') => run_policy walk (k (inl e)) (h', w.2) acc
      | inr (h', r) => run_policy walk (k (inr r)) (h', w.2) acc
      end
  | Recurse tag_id root_dir sub_dir name kw k =>
      match walk tag_id root_dir sub_dir name kw w with
      | None => None
      | Some (w', r) => run_policy walk (k r) w' acc
      end
  | FoldMin v k => run_policy walk k w (prio_min v acc)
  end.

(** The priority test that lets the walker return early. *)
Definition skip_traversal (kw : kwargs) (curr_min_prio : Priority) : bool :=
  match kw_priority kw with
  | None => false
  | Some priority =>
      if negb (kw_use_minimum_priorities kw) || prio_ltb curr_min_prio priority
      then false
      else if prio_ltb priority curr_min_prio
              || (kw_use_minimum_equal_priorities kw
                  && kw_return_on_equal_min_priority kw)
      then true
      else false
  end.

(** The traversal proper, from [kw.update(depth=...)] to the final
    [return]: mark the tag as seen, run its naming policy, or propose the
    candidate path directly when its class has none, then unmark the tag
    and record the accumulated minimum as its priority floor. [walk] is
    the walker the policy recurses with. The proposal of a tag without a
    policy is made outside the [try]: what it raises leaves the walker with
    the tag still marked. What [set_priority_min] raises leaves it after
    the tag is unmarked. The value returned is the accumulated minimum as
    it is, the floor recorded is its float. *)
Definition traverse (walk : walker) (tag_id : option Z) (tag_index_id : Z)
    (root_dir sub_dir name : string) (kw : kwargs) (w : world)
    : option (world * result Priority) :=
  let depth := default INF (kw_depth kw) in
  let priority := kw_priority kw in
  let kw := with_depth kw (prio_pred depth) in
  let seen := {[tag_index_id]} ∪ w.2 in
  let rename :=
    match _index_map w.1 !! Z.to_nat tag_index_id with
    | Some ref => recursive_rename_functions (enum_name ref)
    | None => None
    end in
  let body :=
    match rename with
    | Some rename_func =>
        match run_policy walk (rename_func tag_id root_dir sub_dir name kw)
                (w.1, seen) INF with
        | None => None
        | Some (w', acc) => Some (w', inr acc)
        end
    | None =>
        match set_path_by_priority sanitize_win32_path w.1 tag_id
                (root_dir +:+ sub_dir +:+ name) priority (kw_override kw) with
        | inl (e, h') => Some ((h', seen), inl e)
        | inr (h', r) => Some ((h', seen), inr (prio_min r INF))
        end
    end in
  match body with
  | None => None
  | Some (w', inl e) => Some (w', inl e)
  | Some ((h', seen'), inr min_priority) =>
      if bool_decide (tag_index_id ∈ seen') then
        let seen' := seen' ∖ {[tag_index_id]} in
        match set_priority_min h' (Some tag_index_id) min_priority with
        | inl e => Some ((h', seen'), inl e)
        | inr h' => Some ((h', seen'), inr min_priority)
        end
      else Some ((h', seen'), inl KeyError)
  end.

(** [heuristic_deprotect(tag_id, halo_map, tag_path_handler, root_dir,
    sub_dir, name, **kw)]. The handler is built from the tag index of
    [halo_map] and shares its entries, so the walker reads the index through
    the handler. [fuel] bounds the nesting of walks; [None] means it ran
    out. The result is the world reached and the value returned or the
    exception raised. *)
Fixpoint heuristic_deprotect (fuel : nat) (tag_id : option Z)
    (root_dir sub_dir name : string) (kw : kwargs) (w : world)
    : option (world * result Priority) :=
  match fuel with
  | O => None
  | S fuel' =>
      match tag_id with
      | None => Some (w, inr INF)
      | Some tid =>
          let tag_index_id := mask tid in
          if negb (in_index_range w.1 tag_index_id) then Some (w, inr INF)
          else
            let depth := default INF (kw_depth kw) in
            let curr_min_prio := get_priority_min w.1 (Some tag_index_id) in
            if bool_decide (tag_index_id ∈ w.2) || prio_ltb depth (Fin 0)
            then Some (w, inr curr_min_prio)
            else if skip_traversal kw curr_min_prio
            then Some (w, inr curr_min_prio)
            else
              traverse (heuristic_deprotect fuel') tag_id tag_index_id
                root_dir sub_dir name kw w
      end
  end.

End walker.

(** ** A naming policy: tag collections *)

Definition with_priority (kw : kwargs) (p : Priority) : kwargs :=
  Kwargs (Some p) (kw_use_minimum_priorities kw)
    (kw_use_minimum_equal_priorities kw) (kw_return_on_equal_min_priority kw)
    (kw_override kw) (kw_depth kw).

(** ["protected_%s" % tag_id] *)
Definition protected_name (tag_id : option Z) : string :=
  "protected_" +:+ match tag_id with
                   | Some t => pretty t
                   | None => "None"
                   end.

Section policies.

(** [halo_map.get_meta(tag_id)] for a tag collection, reduced to what
    [rename_tagc] reads of it: nothing when the map has no metadata for the
    tag, otherwise the identities [get_tag_id(b.tag)] of the blocks of
    [meta.tag_references], in order. *)
Variable tag_references : option Z → option (list (option Z)).

(** [LOW_PRIORITY] of [refinery.heuristic_deprotection.constants], which is
    not among the sources. *)
Variable LOW_PRIORITY : Priority.

(** The loop over the references: each one is walked with the keywords of
    the collection, under the directory named after it, without a name of
    its own. *)
Fixpoint rename_tagc_references (refs : list (option Z)) (root_dir sub_dir : string)
    (kw : kwargs) : policy_prog :=
  match refs with
  | [] => Done
  | b :: refs' =>
      Recurse b root_dir sub_dir "" kw
        (λ r, match r with
              | inr v => FoldMin v (rename_tagc_references refs' root_dir sub_dir kw)
              | inl _ => Fault
              end)
  end.

(** [rename_tagc(tag_id, halo_map, tag_path_handler, root_dir, sub_dir,
    name, **kw)] *)
Definition rename_tagc : rename_func :=
  λ tag_id root_dir sub_dir name kw,
    let name := if String.eqb name "" then protected_name tag_id else name in
    match tag_references tag_id with
    | None => Done
    | Some refs =>
        let kw := with_priority kw LOW_PRIORITY in
        Propose tag_id (root_dir +:+ sub_dir +:+ name) (kw_priority kw)
          (kw_override kw)
          (λ r, match r with
                | inl _ => Fault
                | inr v =>
                    FoldMin v
                      (Inspect (λ h _,
                         match get_sub_dir h tag_id root_dir with
                         | inl _ => Fault
                         | inr sub_dir =>
                             let name := get_basename h tag_id in
                             rename_tagc_references refs root_dir
                               (sub_dir +:+ name +:+ "\") kw
                         end))
                end)
    end.

End policies.

(** ** The path compactor *)

(** [shorten_paths] works on nested dictionaries that it mutates through
    several references at once ([curr_paths], [curr_new_paths], the frames
    on the stack). They are modelled as objects in a store: a value is
    [None], a tag entry (its position in the tag index, as the entry object
    is shared with [_index_map]) or the location of a dictionary. A
    dictionary is an association list in insertion order. *)
Inductive value : Type :=
  | VNone
  | VTag (pos : nat)
  | VDict (loc : nat).

Definition dict : Type := list (string * value).

Fixpoint dict_get (k : string) (d : dict) : option value :=
  match d with
  | [] => None
  | (k', v) :: d' => if String.eqb k k' then Some v else dict_get k d'
  end.

Fixpoint dict_set (k : string) (v : value) (d : dict) : dict :=
  match d with
  | [] => [(k, v)]
  | (k', v') :: d' =>
      if String.eqb k k' then (k, v) :: d' else (k', v') :: dict_set k v d'
  end.

Fixpoint dict_pop (k : string) (d : dict) : dict :=
  match d with
  | [] => []
  | (k', v') :: d' =>
      if String.eqb k k' then d' else (k', v') :: dict_pop k d'
  end.

Fixpoint insert_sorted (k : string) (l : list string) : list string :=
  match l with
  | [] => [k]
  | x :: l' => if String.leb k x then k :: l else x :: insert_sorted k l'
  end.

(** [sorted(d)]: the keys in code-point order. *)
Definition sorted_keys (d : dict) : list string :=
  foldr insert_sorted [] (d.*1).

Definition is_empty {A : Type} (l : list A) : bool :=
  match l with
  | [] => true
  | _ => false
  end.

(** The dictionary at a location; every location handed out is in the
    store. *)
Definition deref (heap : list dict) (loc : nat) : dict :=
  default [] (heap !! loc).

(** [collection.get(key) not in (None, object())] on such a dictionary. *)
Definition dict_taken (d : dict) (key : string) : bool :=
  match dict_get key d with
  | None | Some VNone => false
  | Some _ => true
  end.

(** [shorten_name_to_parent(parent, name)] *)
Definition name_words (s : string) : list string :=
  split_by (λ c, Ascii.eqb c " ") (replace_char "_" " " s).

Fixpoint common_prefix (a b : list string) : nat :=
  match a, b with
  | x :: a', y :: b' => if String.eqb x y then S (common_prefix a' b') else O
  | _, _ => O
  end.

Definition shorten_name_to_parent (parent name : string) : string :=
  let join_char := if char_in "_" name then "_" else " " in
  let parent_pieces := name_words parent in
  let name_pieces := name_words name in
  let start := common_prefix parent_pieces name_pieces in
  let stop := (length name_pieces
               - common_prefix (rev parent_pieces) (rev name_pieces))%nat in
  join join_char (take (stop - start) (drop start name_pieces)).

(** [self._index_map[index]] for a Python integer: the position read, when
    there is one. *)
Definition list_position (len : nat) (index : Z) : option nat :=
  if bool_decide (0 ≤ index < Z.of_nat len) then Some (Z.to_nat index)
  else if bool_decide (- Z.of_nat len ≤ index < 0)
  then Some (Z.to_nat (Z.of_nat len + index))
  else None.

(** The loop [curr_dir = curr_dir.setdefault(dname, {})] over the directory
    names of a path: it returns the object reached. [setdefault] on
    something that is not a dictionary raises. *)
Fixpoint enter_dirs (dirs : list string) (curr_dir : value) (heap : list dict)
    : result (value * list dict) :=
  match dirs with
  | [] => mret (curr_dir, heap)
  | dname :: dirs' =>
      match curr_dir with
      | VDict loc =>
          match dict_get dname (deref heap loc) with
          | Some v => enter_dirs dirs' v heap
          | None =>
              let new := length heap in
              let heap := <[loc := dict_set dname (VDict new) (deref heap loc)]>
                            (heap ++ [[]]) in
              enter_dirs dirs' (VDict new) heap
          end
      | _ => raise AttributeError
      end
  end.

(** [curr_dir[name] = leaf] *)
Definition assign_leaf (name : string) (leaf : value) (curr_dir : value)
    (heap : list dict) : result (list dict) :=
  match curr_dir with
  | VDict loc => mret (<[loc := dict_set name leaf (deref heap loc)]> heap)
  | _ => raise TypeError
  end.

(** What the first loop of [shorten_paths] ends with: the nesting check
    fired, or all paths are filed. *)
Inductive filing : Type :=
  | TooNested
  | Filed (heap : list dict).

(** How [shorten_paths] ends: with an exception, with the nesting error
    printed and nothing done, or completed, with the new state and the
    warnings printed. *)
Inductive outcome : Type :=
  | Raised (e : exn)
  | Reported (err_str : string)
  | Completed (h : TagPathHandler) (warnings : list string).

(** A frame of the first traversal: [parent], [curr_paths],
    [curr_new_paths], [reparent]. *)
Record frame : Type := Frame {
  f_parent : string;
  f_curr_paths : nat;
  f_curr_new_paths : value;
  f_reparent : list (string * list value);
}.

(** [reparent.setdefault(key, []).append(val)] *)
Fixpoint reparent_append (key : string) (val : value)
    (reparent : list (string * list value)) : list (string * list value) :=
  match reparent with
  | [] => [(key, [val])]
  | (k, vals) :: reparent' =>
      if String.eqb key k then (k, vals ++ [val]) :: reparent'
      else (k, vals) :: reparent_append key val reparent'
  end.

Definition err_too_nested (max_len : Z) : string :=
  "Tag paths too nested to shorten to " +:+ pretty max_len +:+ " chars.".

(** The double quote character. *)
Definition dquote : ascii := ascii_of_nat 34.

Definition warn_over_limit (tag_path : string) : string :=
  "WARNING: " +:+ String dquote (tag_path +:+ String dquote " is over the length limit.").

Section compactor.

Variable sanitize_win32_path : string → list string.

(** The body of the first loop of [shorten_paths] for one entry of the path
    map, up to and including the nesting check. [inl] is an exception,
    [inr None] the nesting check firing, otherwise the pieces of the path and
    the leaf to file. *)
Definition check_entry (h : TagPathHandler) (max_len : Z)
    (tag_path : string) (index : Z)
    : result (option (list string * option Z)) :=
  let tag_path := sanitize_win32_path (lower tag_path) in
  no_suffix ← with_suffix tag_path "";
  let index :=
    if Z.of_nat (String.length (path_str no_suffix)) <? max_len
    then None else Some index in
  let tag_path_pieces := tag_path in
  if (Z.of_nat (length tag_path_pieces) - 1) * 4 >? max_len then mret None
  else mret (Some (tag_path_pieces, index)).

(** The first loop of [shorten_paths], over the entries of the path map in
    the order the dictionary yields them. [paths] is at location 0 of the
    store. *)
Fixpoint build_paths (h : TagPathHandler) (max_len : Z)
    (items : list (string * Z)) (heap : list dict) : result filing :=
  match items with
  | [] => mret (Filed heap)
  | (tag_path, index) :: items' =>
      checked ← check_entry h max_len tag_path index;
      match checked with
      | None => mret TooNested
      | Some (tag_path_pieces, index) =>
          '(curr_dir, heap) ←
            enter_dirs (removelast tag_path_pieces) (VDict 0) heap;
          tag_ref ←
            match index with
            | None => mret VNone
            | Some index =>
                match list_position (length (_index_map h)) index with
                | None => raise IndexError
                | Some pos => mret (VTag pos)
                end
            end;
          name ←
            match last tag_path_pieces with
            | None => raise IndexError
            | Some name => mret name
            end;
          heap ← assign_leaf name tag_ref curr_dir heap;
          build_paths h max_len items' heap
      end
  end.

(** The [for name in sorted(curr_paths)] loop of the first traversal, over
    the snapshot [names]. It ends at the end of the snapshot or at the
    [break] after stepping into a non-empty directory. *)
Fixpoint shorten_scan (names : list string) (fr : frame) (stack : list frame)
    (heap : list dict) : result (frame * list frame * list dict) :=
  match names with
  | [] => mret (fr, stack, heap)
  | name :: names' =>
      let curr_paths := deref heap (f_curr_paths fr) in
      match dict_get name curr_paths with
      | None => raise KeyError
      | Some (VDict loc) =>
          if negb (is_empty (deref heap loc)) then
            (* a non-empty directory: push the state and jump into it *)
            match f_curr_new_paths fr with
            | VDict new_loc =>
                let curr_new_paths := deref heap new_loc in
                let new_name :=
                  get_unique_name (dict_taken curr_new_paths)
                    (length curr_new_paths)
                    (shorten_name_to_parent (f_parent fr) name) "" in
                if negb (String.eqb new_name "") then
                  match dict_get new_name curr_new_paths with
                  | Some v =>
                      mret (Frame new_name loc v [], fr :: stack, heap)
                  | None =>
                      let fresh := length heap in
                      let heap :=
                        <[new_loc := dict_set new_name (VDict fresh) curr_new_paths]>
                          (heap ++ [[]]) in
                      mret (Frame new_name loc (VDict fresh) [], fr :: stack, heap)
                  end
                else
                  mret (Frame (f_parent fr) loc (f_curr_new_paths fr) [],
                        fr :: stack, heap)
            | _ => raise AttributeError
            end
          else
            (* an empty directory: remove it *)
            shorten_scan names' fr stack
              (<[f_curr_paths fr := dict_pop name curr_paths]> heap)
      | Some val =>
          (* a file name: move the item *)
          let '(base, ext) := splitext name in
          let new_base :=
            match val with
            | VNone => base
            | _ => shorten_name_to_parent (f_parent fr) base
            end in
          let heap := <[f_curr_paths fr := dict_pop name curr_paths]> heap in
          if negb (String.eqb new_base "") then
            match f_curr_new_paths fr with
            | VDict new_loc =>
                shorten_scan names' fr stack
                  (<[new_loc := dict_set (new_base +:+ ext) val (deref heap new_loc)]>
                     heap)
            | _ => raise TypeError
            end
          else
            shorten_scan names'
              (Frame (f_parent fr) (f_curr_paths fr) (f_curr_new_paths fr)
                 (reparent_append (f_parent fr +:+ ext) val (f_reparent fr)))
              stack heap
      end
  end.

(** The first [while True] loop. After a scan that left [curr_paths] empty
    the frame on top of the stack is taken back; the items scheduled for
    re-parenting are then filed with [self.get_unique_name], which the class
    does not have: the first such item raises [AttributeError]. With the
    stack empty the loop ends and what is left to re-parent is dropped. *)
Fixpoint shorten_loop (fuel : nat) (fr : frame) (stack : list frame)
    (heap : list dict) : option (result (list dict)) :=
  match fuel with
  | O => None
  | S fuel' =>
      match shorten_scan (sorted_keys (deref heap (f_curr_paths fr))) fr stack heap with
      | inl e => Some (inl e)
      | inr (fr, stack, heap) =>
          if negb (is_empty (deref heap (f_curr_paths fr)))
          then shorten_loop fuel' fr stack heap
          else
            let curr_reparent := f_reparent fr in
            match stack with
            | [] => Some (inr heap)
            | top :: stack' =>
                if existsb (λ entry, negb (is_empty entry.2)) curr_reparent
                then Some (inl AttributeError)
                else shorten_loop fuel' top stack' heap
            end
      end
  end.

(** The [for] loop of the second traversal. A leaf that is a tag entry and
    not indexed gets [val.path = new_tag_path], a [PureWindowsPath] made of
    the directory pieces and the suffix of the name; [renamed] holds these
    paths, by position of the entry. With [do_printout] the message takes
    [len(new_tag_path)], which a path object does not have. *)
Fixpoint apply_scan (h : TagPathHandler) (do_printout : bool)
    (names : list string) (path_pieces : list string) (curr_paths : nat)
    (stack : list (list string * nat)) (heap : list dict)
    (renamed : gmap nat (list string))
    : result (list string * nat * list (list string * nat) * list dict
              * gmap nat (list string)) :=
  match names with
  | [] => mret (path_pieces, curr_paths, stack, heap, renamed)
  | name :: names' =>
      match dict_get name (deref heap curr_paths) with
      | None => raise KeyError
      | Some val =>
          let heap := <[curr_paths := dict_pop name (deref heap curr_paths)]> heap in
          match val with
          | VDict loc =>
              if negb (is_empty (deref heap loc))
              then mret (path_pieces ++ [name], loc,
                         (path_pieces, curr_paths) :: stack, heap, renamed)
              else mret (path_pieces, curr_paths, stack, heap, renamed)
          | VNone =>
              apply_scan h do_printout names' path_pieces curr_paths stack heap renamed
          | VTag pos =>
              match _index_map h !! pos with
              | None => raise AttributeError
              | Some ref =>
                  if indexed ref then
                    apply_scan h do_printout names' path_pieces curr_paths stack
                      heap renamed
                  else
                    new_tag_path ←
                      with_suffix (PureWindowsPath path_pieces)
                        (suffix_of_name (path_name (parts name)));
                    if do_printout then raise TypeError
                    else
                      apply_scan h do_printout names' path_pieces curr_paths stack
                        heap (<[pos := new_tag_path]> renamed)
              end
          end
      end
  end.

(** The second [while True] loop. *)
Fixpoint apply_loop (fuel : nat) (h : TagPathHandler) (do_printout : bool)
    (path_pieces : list string) (curr_paths : nat)
    (stack : list (list string * nat)) (heap : list dict)
    (renamed : gmap nat (list string))
    : option (result (gmap nat (list string))) :=
  match fuel with
  | O => None
  | S fuel' =>
      match apply_scan h do_printout (sorted_keys (deref heap curr_paths))
              path_pieces curr_paths stack heap renamed with
      | inl e => Some (inl e)
      | inr (path_pieces, curr_paths, stack, heap, renamed) =>
          if is_empty (deref heap curr_paths) then
            match stack with
            | [] => Some (inr renamed)
            | (path_pieces, curr_paths) :: stack' =>
                apply_loop fuel' h do_printout path_pieces curr_paths stack'
                  heap renamed
            end
          else
            apply_loop fuel' h do_printout path_pieces curr_paths stack heap
              renamed
      end
  end.

(** The last loop: the path map is made again from the tag index. An entry
    whose path is now a [PureWindowsPath] makes [len(tag_path)] or
    [tag_path + "."] raise [TypeError]. *)
Fixpoint remake_path_map (refs : list tag_ref) (i : nat)
    (renamed : gmap nat (list string)) (max_len : Z) (do_printout : bool)
    (path_map : gmap string Z) (warnings : list string)
    : result (gmap string Z * list string) :=
  match refs with
  | [] => mret (path_map, warnings)
  | ref :: refs' =>
      match renamed !! i with
      | Some _ => raise TypeError
      | None =>
          let tag_path := path ref in
          let warnings :=
            if do_printout && (max_len <? Z.of_nat (String.length tag_path))
            then warnings ++ [warn_over_limit tag_path]
            else warnings in
          remake_path_map refs' (S i) renamed max_len do_printout
            (<[lower (tag_path +:+ "." +:+ enum_name ref) := Z.of_nat i]> path_map)
            warnings
      end
  end.

(** [shorten_paths(max_len, do_printout=..., print_errors=...)]. [items] is
    [self._path_map.items()], the entries of the path map in the order the
    dictionary yields them. [fuel] bounds the number of rounds of each
    [while True] loop; [None] means it ran out. *)
Definition shorten_paths (fuel : nat) (h : TagPathHandler)
    (items : list (string * Z)) (max_len : Z)
    (do_printout print_errors : bool) : option outcome :=
  match build_paths h max_len items [[]; []] with
  | inl e => Some (Raised e)
  | inr TooNested =>
      if print_errors then Some (Reported (err_too_nested max_len))
      else Some (Raised (ValueError (err_too_nested max_len)))
  | inr (Filed heap) =>
      match shorten_loop fuel (Frame "" 0 (VDict 1) []) [] heap with
      | None => None
      | Some (inl e) => Some (Raised e)
      | Some (inr heap) =>
          match apply_loop fuel h do_printout [] 1 [] heap ∅ with
          | None => None
          | Some (inl e) => Some (Raised e)
          | Some (inr renamed) =>
              match remake_path_map (_index_map h) 0 renamed max_len
                      do_printout ∅ [] with
              | inl e => Some (Raised e)
              | inr (path_map, warnings) =>
                  Some (Completed (with_path_map h path_map) warnings)
              end
          end
      end
  end.

End compactor.

(** * Vocabulary of the properties *)

(** The [k]-th name the probing loop tries. *)
Definition candidate (name : string) (k : nat) : string :=
  match k with
  | O => name
  | S _ => name +:+ " #" +:+ pretty k
  end.

(** A priority that [float] leaves as it is: an infinity, or a number a
    double holds. Every priority [set_priority] has stored is one; the
    constructor stores the default priority as it is given. *)
Definition is_float (p : Priority) : Prop := float p = inr p.

(** An identity does not resolve: it is nil, or its low 16 bits are not a
    position of the tag index. *)
Definition unresolvable (h : TagPathHandler) (index : option Z) : Prop :=
  match index with
  | None => True
  | Some i => ¬ (0 ≤ mask i < Z.of_nat (length (_index_map h)))
  end.

(** The class and the pin of every entry: what no operation changes. *)
Definition tag_kinds (h : TagPathHandler) : list (string * bool) :=
  (λ r, (enum_name r, indexed r)) <$> _index_map h.

(** The part of the state that renaming leaves alone. *)
Definition same_books (h h' : TagPathHandler) : Prop :=
  _priorities h' = _priorities h ∧
  _priority_mins h' = _priority_mins h ∧
  _overwritables h' = _overwritables h ∧
  _def_priority h' = _def_priority h ∧
  _perm_suffixed_tag_classes h' = _perm_suffixed_tag_classes h ∧
  _root_dir_prefix h' = _root_dir_prefix h ∧
  tag_kinds h' = tag_kinds h.

(** The normalized full path of an entry: its path in lower case, a dot and
    its class name in lower case. This is the key [__init__] and [set_path]
    file the entry under in the path map. *)
Definition full_path (r : tag_ref) : string :=
  lower (path r) +:+ "." +:+ lower (enum_name r).

(** No two positions of the tag index have the same normalized full path. *)
Definition unique_full_paths (h : TagPathHandler) : Prop :=
  ∀ i j ri rj,
    _index_map h !! i = Some ri → _index_map h !! j = Some rj →
    full_path ri = full_path rj → i = j.

(** The path map files every entry under its normalized full path. *)
Definition path_map_consistent (h : TagPathHandler) : Prop :=
  ∀ pos r, _index_map h !! pos = Some r →
           _path_map h !! full_path r = Some (Z.of_nat pos).

(** The state after an accepted proposal: the tag at [i] has the path
    [name], which is filed in the path map in place of its old full path,
    and the priority [p]. *)
Definition renamed (h : TagPathHandler) (i : Z) (tag_ref : tag_ref) (name : string)
    (p : Priority) : TagPathHandler :=
  Handler (_root_dir_prefix h)
    (<[name +:+ "." +:+ lower (enum_name tag_ref) := mask i]>
       (delete (full_path tag_ref) (_path_map h)))
    (<[Z.to_nat (mask i) := with_path tag_ref name]> (_index_map h))
    (<[mask i := p]> (_priorities h)) (_priority_mins h)
    (_perm_suffixed_tag_classes h) (_def_priority h) (_overwritables h).


(** A sanitizer that removes nothing, for running the handler on paths that
    need no sanitizing. *)
Definition sanitize_plain (s : string) : list string := parts s.

(** The positions of the tag index, and how many of them are not in the
    visited set: the walker can nest no deeper than that. *)
Definition valid_ids (h : TagPathHandler) : gset Z :=
  list_to_set (Z.of_nat <$> seq 0 (length (_index_map h))).

Definition unseen (h : TagPathHandler) (seen : gset Z) : nat :=
  size (valid_ids h ∖ seen).

(** What a terminating walk guarantees besides its result: the visited set
    has not lost anything and the tag index has kept its entries' classes
    and pins. *)
Definition walk_ok (w : world) (res : option (world * result Priority)) : Prop :=
  ∃ w' r, res = Some (w', r) ∧ w.2 ⊆ w'.2 ∧ tag_kinds w'.1 = tag_kinds w.1.

(** Exceptions other than the nesting error. *)
Definition other_error (max_len : Z) (e : exn) : Prop :=
  e ≠ ValueError (err_too_nested max_len).

(** One call of [set_path_by_priority]. *)
Record proposal : Type := Proposal {
  prop_index : option Z;
  prop_path : string;
  prop_priority : option Priority;
  prop_override : bool;
}.

Section vocabulary.

Variable sanitize_win32_path : string → list string.

Local Abbreviation set_path := (set_path sanitize_win32_path).
Local Abbreviation set_path_by_priority := (set_path_by_priority sanitize_win32_path).

(** The name [set_path_by_priority] asks [set_path] for: the candidate path
    in lower case, put under the root prefix of the handler unless it
    starts with it, completed with [protected_<index>] when it is empty or
    ends in a backslash, then sanitized, stripped and put in lower case. *)
Definition requested_name (h : TagPathHandler) (i : Z) (new_path_no_ext : string)
    : string :=
  let name := lower new_path_no_ext in
  let name :=
    if startswith name (root_dir_prefix h) then name
    else root_dir_prefix h +:+ name in
  let name :=
    if String.eqb name "" || ends_with_backslash name
    then name +:+ "protected_" +:+ pretty (mask i)
    else name in
  lower (strip (path_str (sanitize_win32_path name))).

(** A name is free for a tag: no other identity holds its full path, and it
    does not end in a digit if the class of the tag must not. *)
Definition free_for (h : TagPathHandler) (i : Z) (tag_ref : tag_ref) (name : string)
    : Prop :=
  path_taken (_path_map h) (mask i) (name +:+ "." +:+ lower (enum_name tag_ref)) = false
  ∧ (lower (enum_name tag_ref) ∈ _perm_suffixed_tag_classes h →
     ends_with_digit name = false).

(** The rejection condition in the words of section 4.2: the tag is not
    overwritable, or its priority is above the candidate, or (its priority
    equals the candidate or the tag is pinned) and there is no override. *)
Definition rejected (h : TagPathHandler) (index : option Z) (tag_ref : tag_ref)
    (candidate : Priority) (override : bool) : bool :=
  negb (get_overwritable h index)
  || prio_ltb candidate (get_priority h index)
  || ((prio_eqb (get_priority h index) candidate || indexed tag_ref)
      && negb override).

(** One call of an operation that renames or re-prioritises. A call of
    [set_path], [set_priority] or [set_priority_min] that raises leaves the
    state as it was and is no step; a call of [set_path_by_priority] that
    raises may have set the path already, and is a step to the state it
    leaves. *)
Inductive step : TagPathHandler → TagPathHandler → Prop :=
  | step_set_path h index new_path_no_ext eu erp h' r :
      set_path h index new_path_no_ext eu erp = inr (h', r) → step h h'
  | step_set_path_by_priority h index new_path_no_ext priority override h' r :
      set_path_by_priority h index new_path_no_ext priority override = inr (h', r) →
      step h h'
  | step_set_path_by_priority_raises h index new_path_no_ext priority override e h' :
      set_path_by_priority h index new_path_no_ext priority override = inl (e, h') →
      step h h'
  | step_set_priority h index p h' :
      set_priority h index p = inr h' → step h h'
  | step_set_priority_min h index p h' :
      set_priority_min h index p = inr h' → step h h'.

(** Pinned entries are not overwritable. The constructor establishes this
    and no renaming operation touches the table. *)
Definition pins_protected (h : TagPathHandler) : Prop :=
  ∀ pos r, _index_map h !! pos = Some r → indexed r = true →
           _overwritables h !! Z.of_nat pos = Some false.

(** The state after a proposal, returned or raised. *)
Definition propose (h : TagPathHandler) (c : proposal) : TagPathHandler :=
  match set_path_by_priority h (prop_index c) (prop_path c) (prop_priority c)
          (prop_override c) with
  | inr (h', _) => h'
  | inl (_, h') => h'
  end.

Definition run_proposals (h : TagPathHandler) (calls : list proposal) : TagPathHandler :=
  foldl propose h calls.

(** The priority a proposal stands for. *)
Definition proposed (h : TagPathHandler) (c : proposal) : Priority :=
  default (_def_priority h) (prop_priority c).

(** A proposal is accepted when its identity resolves and
    [get_will_overwrite] says yes. *)
Definition accepted (h : TagPathHandler) (c : proposal) : bool :=
  match get_index_ref h (prop_index c) with
  | None => false
  | Some _ =>
      match get_will_overwrite h (prop_index c) (Some (proposed h c))
              (prop_override c) with
      | inr true => true
      | _ => false
      end
  end.

(** The priorities stored for the tag at position [tag] in the course of a
    sequence of calls, in order: for each proposal accepted for it, the
    float of its priority. A proposal whose priority has no float is
    accepted and renames the tag, but raises before anything is stored. *)
Fixpoint stored_for (tag : Z) (h : TagPathHandler) (calls : list proposal)
    : list Priority :=
  match calls with
  | [] => []
  | c :: calls' =>
      let rest := stored_for tag (propose h c) calls' in
      if accepted h c && bool_decide (mask <$> prop_index c = Some tag)
      then match float (proposed h c) with
           | inr p => p :: rest
           | inl _ => rest
           end
      else rest
  end.

(** An entry of the path map trips the nesting bound: its number of
    segments less one, at four characters a segment, is above the budget. *)
Definition entry_trips (max_len : Z) (item : string * Z) : bool :=
  (Z.of_nat (length (sanitize_win32_path (lower item.1))) - 1) * 4 >? max_len.

(** Building the trie raises nothing: every path read has a file name, and
    no path runs through the file name of another one. *)
Definition files_cleanly (h : TagPathHandler) (max_len : Z)
    (items : list (string * Z)) : Prop :=
  ∀ e, build_paths sanitize_win32_path h max_len items [[]; []] ≠ inl e.

End vocabulary.
(** * The rest of the handler, and a naming policy *)

(** ** Properties and accessors of the handler *)

Definition with_root_dir_prefix (h : TagPathHandler) (prefix : string) : TagPathHandler :=
  Handler prefix (_path_map h) (_index_map h) (_priorities h)
    (_priority_mins h) (_perm_suffixed_tag_classes h) (_def_priority h)
    (_overwritables h).

(** [s.rstrip(chars)], with the set of characters as a predicate. *)
Definition rstrip (p : ascii → bool) (s : string) : string :=
  rev_string (lstrip p (rev_string s)).

Definition is_backslash (c : ascii) : bool := Ascii.eqb c "\".

(** The setter of the property [root_dir_prefix]: the value is normalized
    through [PureWindowsPath], lower-cased and relieved of its trailing
    backslashes; what is left, if anything, is stored with one backslash
    after it. *)
Definition set_root_dir_prefix (h : TagPathHandler) (value : string) : TagPathHandler :=
  let value := rstrip is_backslash (lower (path_str (PureWindowsPath [value]))) in
  with_root_dir_prefix h
    (if String.eqb value "" then "" else value +:+ "\").

(** The property [def_priority]. *)
Definition def_priority (h : TagPathHandler) : Priority := _def_priority h.

(** [get_full_tag_path(index)] *)
Definition get_full_tag_path (h : TagPathHandler) (index : option Z) : string :=
  let tag_path := get_path h index in
  let tag_ext := get_ext h index in
  if negb (String.eqb tag_path "") && negb (String.eqb tag_ext "")
  then tag_path +:+ "." +:+ tag_ext
  else "".

(** ** Vocabulary for the further properties *)

(** The entry at position [pos] of a tag index is the last one with the
    normalized full path [key]. *)
Definition last_with_full_path (refs : list tag_ref) (key : string) (pos : nat) : Prop :=
  (∃ r, refs !! pos = Some r ∧ full_path r = key)
  ∧ ∀ pos' r', refs !! pos' = Some r' → full_path r' = key → (pos' ≤ pos)%nat.

(** The path map holds the normalized full paths of the entries of the tag
    index, each under its position, and nothing else. *)
Definition path_map_exact (h : TagPathHandler) : Prop :=
  ∀ key i,
    _path_map h !! key = Some i ↔
    ∃ pos r, i = Z.of_nat pos ∧ _index_map h !! pos = Some r ∧ full_path r = key.

(** A path is relative: it does not start with a separator. *)
Definition is_relative (s : string) : bool :=
  match s with
  | String c _ => negb (is_sep c)
  | EmptyString => true
  end.

(** No character of a string is in the class [p]. *)
Fixpoint no_char (p : ascii → bool) (s : string) : bool :=
  match s with
  | EmptyString => true
  | String c s' => negb (p c) && no_char p s'
  end.

(** A path component as [PureWindowsPath] keeps it: without separators,
    not empty and not a lone dot. *)
Definition is_clean (w : string) : bool :=
  no_char is_sep w && is_component w.

Section calls.

Variable sanitize_win32_path : string → list string.

(** One call of any method of the handler that changes its state: the
    renaming and re-prioritising calls, [set_overwritable],
    [set_perm_suffixed_tag_classes], the setter of [root_dir_prefix] and a
    [shorten_paths] that runs to completion. *)
Inductive call : TagPathHandler → TagPathHandler → Prop :=
  | call_step h h' : step sanitize_win32_path h h' → call h h'
  | call_set_overwritable h index new_val :
      call h (set_overwritable h index new_val)
  | call_set_perm_suffixed_tag_classes h tag_classes :
      call h (set_perm_suffixed_tag_classes h tag_classes)
  | call_set_root_dir_prefix h value :
      call h (set_root_dir_prefix h value)
  | call_shorten_paths fuel h items max_len do_printout print_errors h' warnings :
      shorten_paths sanitize_win32_path fuel h items max_len do_printout print_errors
        = Some (Completed h' warnings) →
      call h h'.

(** The two calls by which the walker and the naming policies change the
    handler. *)
Inductive walk_step : TagPathHandler → TagPathHandler → Prop :=
  | walk_step_propose h index new_path_no_ext priority override h' r :
      set_path_by_priority sanitize_win32_path h index new_path_no_ext priority
        override = inr (h', r) →
      walk_step h h'
  | walk_step_propose_raises h index new_path_no_ext priority override e h' :
      set_path_by_priority sanitize_win32_path h index new_path_no_ext priority
        override = inl (e, h') →
      walk_step h h'
  | walk_step_floor h index p h' :
      set_priority_min h index p = inr h' → walk_step h h'.

End calls.

(** The priority floor on record for a tag, [INF] for an identity that does
    not resolve. *)
Definition recorded_floor (h : TagPathHandler) (tag_id : option Z) : Priority :=
  match tag_id with
  | Some tid =>
      if in_index_range h (mask tid) then get_priority_min h (Some tid) else INF
  | None => INF
  end.

(** ** Reading the outcome of a call *)

(** The state a call leaves: the new state when it returns, the old one
    when it raises. *)
Definition state_after {A : Type} (h : TagPathHandler)
    (res : result (TagPathHandler * A)) : TagPathHandler :=
  match res with
  | inr (h', _) => h'
  | inl _ => h
  end.

(** The state a priority setter leaves: the new one when it returns, the
    old one when it raises. *)
Definition after (h : TagPathHandler) (res : result TagPathHandler) : TagPathHandler :=
  match res with
  | inr h' => h'
  | inl _ => h
  end.

(** The world a walk leaves and the value it returns; a walk that ran out
    of fuel leaves the world it started from. *)
Definition world_after (w : world) (res : option (world * result Priority)) : world :=
  match res with
  | Some (w', _) => w'
  | None => w
  end.

Definition value_after (res : option (world * result Priority)) : result Priority :=
  match res with
  | Some (_, r) => r
  | None => inr INF
  end.

(** The state a completed [shorten_paths] leaves. *)
Definition compacted (h : TagPathHandler) (res : option outcome) : TagPathHandler :=
  match res with
  | Some (Completed h' _) => h'
  | _ => h
  end.

Definition warnings_of (res : option outcome) : list string :=
  match res with
  | Some (Completed _ warnings) => warnings
  | _ => []
  end.

(** A registry with the policy of tag collections only. *)
Definition tag_collections_only (tag_references : option Z → option (list (option Z)))
    (LOW_PRIORITY : Priority) (class_name : string) : option rename_func :=
  if String.eqb class_name "tag_collection"
  then Some (rename_tagc tag_references LOW_PRIORITY)
  else None.

(** The references of two tag collections that refer to each other. *)
Definition cycle_of_two (a b : Z) (tag_id : option Z) : option (list (option Z)) :=
  match tag_id with
  | Some t =>
      if bool_decide (t = a) then Some [Some b]
      else if bool_decide (t = b) then Some [Some a]
      else None
  | None => None
  end.

(** ** Item and icon strings *)

(** The handler keeps two more tables, [_item_strings] and
    [_icon_strings], that only the four methods below touch; they are
    lists of strings. *)

(** [max_object_str_len] *)
Definition max_object_str_len : nat := 120.

(** [s.replace(old, new)] for a non-empty [old]: the occurrences are
    replaced from the left and do not overlap. [skip] counts the characters
    of the occurrence just found that are still to be passed over. *)
Fixpoint replace_from (old new : string) (skip : nat) (s : string) : string :=
  match s with
  | EmptyString => EmptyString
  | String c s' =>
      match skip with
      | S skip' => replace_from old new skip' s'
      | O =>
          if startswith s old
          then new +:+ replace_from old new (String.length old - 1) s'
          else String c (replace_from old new O s')
      end
  end.

Definition replace (old new s : string) : string := replace_from old new O s.

(** [s.split(sep)] for a non-empty [sep], in the same way. *)
Fixpoint split_from (sep : string) (skip : nat) (s : string) : list string :=
  match s with
  | EmptyString => [EmptyString]
  | String c s' =>
      match skip with
      | S skip' => split_from sep skip' s'
      | O =>
          if startswith s sep
          then EmptyString :: split_from sep (String.length sep - 1) s'
          else match split_from sep O s' with
               | [] => [String c EmptyString]
               | w :: ws => String c w :: ws
               end
      end
  end.

Definition split_on (sep s : string) : list string := split_from sep O s.

(** [s.split(sep)[-1]] *)
Definition last_piece (sep s : string) : string := default "" (last (split_on sep s)).

(** [sub in s], for a non-empty [sub]. *)
Definition contains (sub s : string) : bool :=
  match split_on sub s with
  | [_] => false
  | _ => true
  end.

(** The two patterns are written in plain string literals, in which [\b]
    is the backspace character: [FLAG_MATCH_SUB] is the word [flag] between
    two backspaces, [BALL_MATCH_SUB] one of [ball], [skull], [oddball]
    between two backspaces. [pattern.match(s)] looks for the pattern at the
    start of [s]. *)
Definition backspace : ascii := ascii_of_nat 8.

Definition is_backspace_char (c : ascii) : bool := Ascii.eqb c backspace.

Definition between_backspaces (word : string) : string :=
  String backspace (word +:+ String backspace "").

Definition FLAG_MATCH_SUB (s : string) : bool :=
  startswith s (between_backspaces "flag").

Definition BALL_MATCH_SUB (s : string) : bool :=
  startswith s (between_backspaces "ball")
  || startswith s (between_backspaces "skull")
  || startswith s (between_backspaces "oddball").

Definition is_underscore (c : ascii) : bool := Ascii.eqb c "_".

(** [s[: n]] *)
Definition prefix_of_length (n : nat) (s : string) : string := substring 0 n s.

(** [get_item_string(index)] and [get_icon_string(index)] on their
    table. *)
Definition get_object_string (table : list string) (index : Z) : string :=
  if bool_decide (0 ≤ index < Z.of_nat (length table))
  then prefix_of_length max_object_str_len (default "" (table !! Z.to_nat index))
  else "".

Definition get_item_string (_item_strings : list string) (index : Z) : string :=
  get_object_string _item_strings index.

Definition get_icon_string (_icon_strings : list string) (index : Z) : string :=
  get_object_string _icon_strings index.

Section object_strings.

(** [str_to_identifier] of [supyr_struct.util], which is not part of this
    repository: it makes an identifier of a string, or raises
    [AssertionError] or [TypeError], which is [None] here. *)
Variable orig_str_to_identifier : string → option string.

(** The module's own [str_to_identifier], which catches these two
    exceptions and never returns an empty name. *)
Definition str_to_identifier (s : string) : string :=
  let name := default "" (orig_str_to_identifier s) in
  if String.eqb name "" then "_" else name.

(** The chain of replacements [set_item_strings] starts with. *)
Definition item_words (data : string) : string :=
  replace "powerup" ""
    (replace "picked up " ""
       (replace "picked up the " ""
          (replace "picked up a " ""
             (replace "picked up an " ""
                (replace " d " " "
                   (replace_char "_" " " (str_to_identifier (lower data)))))))).

(** The body of the loop of [set_item_strings] for one string. *)
Definition item_string (data : string) : string :=
  let s := item_words data in
  let s :=
    if String.eqb s "need a string entry here" then ""
    else if FLAG_MATCH_SUB s then "flag"
    else if BALL_MATCH_SUB s then "ball"
    else if contains " for " s then last_piece " for " s +:+ " ammo"
    else if startswith s "for " then last_piece "for " s +:+ " ammo"
    else s in
  strip s.

(** [set_item_strings(strings_body)]: the new value of [_item_strings]
    for the strings of the body. *)
Definition set_item_strings (strings : list string) : list string :=
  item_string <$> strings.

(** The body of the loop of [set_icon_strings] for one string. *)
Definition icon_string (data : string) : string :=
  let s := strip (replace_char "_" " " (str_to_identifier (lower data))) in
  let s := if String.eqb s "need a string entry here" then "" else s in
  strip s.

Definition set_icon_strings (strings : list string) : list string :=
  icon_string <$> strings.

End object_strings.

(** * Properties *)

(** ** The library functions, run *)

Example parts_ex1 : parts "weapons\pistol\pistol" = ["weapons"; "pistol"; "pistol"].
Proof. reflexivity. Qed.

Example parts_ex2 : parts "\a\.\b\" = ["\"; "a"; "b"].
Proof. reflexivity. Qed.

Example path_str_ex1 : path_str (PureWindowsPath ["a"; "b"; ""]) = "a\b".
Proof. reflexivity. Qed.

Example path_str_ex2 : path_str (PureWindowsPath []) = ".".
Proof. reflexivity. Qed.

Example with_suffix_ex1 : with_suffix (parts "a\b.bitmap") "" = inr ["a"; "b"].
Proof. reflexivity. Qed.

Example splitext_ex1 : splitext "pistol.weapon" = ("pistol", ".weapon").
Proof. reflexivity. Qed.

Example shorten_name_to_parent_ex :
  shorten_name_to_parent "pistol" "pistol_barrel" = "barrel".
Proof. reflexivity. Qed.


(** Membership goals over unions, differences and singletons. *)
Ltac solve_set :=
  try (apply set_eq; intros ?); set_unfold; intuition (subst; eauto).

(** ** Strings *)

Lemma string_app_cons (x : ascii) (a b : string) :
  String x a +:+ b = String x (a +:+ b).
Proof. reflexivity. Qed.

Lemma string_app_nil_l (b : string) : "" +:+ b = b.
Proof. reflexivity. Qed.

Lemma string_app_assoc (a b c : string) : (a +:+ b) +:+ c = a +:+ (b +:+ c).
Proof.
  induction a as [|x a IH]; [done|].
  by rewrite !string_app_cons, IH.
Qed.

Lemma string_app_nil_r (a : string) : a +:+ "" = a.
Proof.
  induction a as [|x a IH]; [done|].
  by rewrite string_app_cons, IH.
Qed.

Lemma string_length_app (a b : string) :
  String.length (a +:+ b) = (String.length a + String.length b)%nat.
Proof.
  induction a as [|x a IH]; [done|].
  rewrite string_app_cons. simpl. by rewrite IH.
Qed.

Lemma string_app_inj_r (a b c : string) : a +:+ c = b +:+ c → a = b.
Proof.
  revert b. induction a as [|x a IH]; intros [|y b] H.
  - done.
  - apply (f_equal String.length) in H.
    rewrite !string_length_app in H. simpl in H. lia.
  - apply (f_equal String.length) in H.
    rewrite !string_length_app in H. simpl in H. lia.
  - rewrite !string_app_cons in H. injection H as -> H. f_equal. by apply IH.
Qed.

(** ** Unique names *)

Lemma candidate_key_inj (name ext : string) (j k : nat) :
  candidate name j +:+ ext = candidate name k +:+ ext → j = k.
Proof.
  intros H%string_app_inj_r. destruct j as [|j], k as [|k]; simpl in H.
  - done.
  - apply (f_equal String.length) in H.
    rewrite !string_length_app in H. simpl in H. lia.
  - apply (f_equal String.length) in H.
    rewrite !string_length_app in H. simpl in H. lia.
  - apply (inj (String.app name)) in H. apply (inj (String.app " #")) in H.
    by apply (inj pretty) in H.
Qed.

Lemma get_unique_name_loop_some taken name ext bound i final s :
  get_unique_name_loop taken name ext bound i final = Some s →
  taken (s +:+ ext) = false ∧
  (s = final ∨ ∃ k, (i ≤ k)%nat ∧ s = name +:+ " #" +:+ pretty k).
Proof.
  revert i final. induction bound as [|bound IH]; intros i final; simpl.
  - destruct (taken (final +:+ ext)) eqn:Ht; [done|].
    intros [= <-]. auto.
  - destruct (taken (final +:+ ext)) eqn:Ht.
    + intros H. apply IH in H as [? [->|(k & ? & ->)]].
      * split; [done|]. right. exists i. split; [lia|done].
      * split; [done|]. right. exists k. split; [lia|done].
    + intros [= <-]. auto.
Qed.

Lemma get_unique_name_loop_none taken name ext bound i final :
  get_unique_name_loop taken name ext bound i final = None →
  taken (final +:+ ext) = true ∧
  ∀ k, (i ≤ k < i + bound)%nat → taken ((name +:+ " #" +:+ pretty k) +:+ ext) = true.
Proof.
  revert i final. induction bound as [|bound IH]; intros i final; simpl.
  - destruct (taken (final +:+ ext)) eqn:Ht; [|done].
    intros _. split; [done|]. intros k ?. lia.
  - destruct (taken (final +:+ ext)) eqn:Ht; [|done].
    intros H. apply IH in H as [H1 H2]. split; [done|].
    intros k Hk. destruct (decide (k = i)) as [->|]; [done|].
    apply H2. lia.
Qed.

(** When the taken keys are among finitely many, the probing loop finds a
    free name within as many further probes as there are such keys. *)
Lemma get_unique_name_loop_finds taken (keys : list string) (name ext : string) :
  (∀ k, taken k = true → k ∈ keys) →
  ∃ s, get_unique_name_loop taken name ext (length keys) 1 name = Some s
       ∧ taken (s +:+ ext) = false.
Proof.
  intros Hkeys.
  destruct (get_unique_name_loop taken name ext (length keys) 1 name)
    as [s|] eqn:Hloop.
  { exists s. split; [done|]. by apply get_unique_name_loop_some in Hloop as [? _]. }
  exfalso. apply get_unique_name_loop_none in Hloop as [H0 Hk].
  set (cands := (λ k, candidate name k +:+ ext) <$> seq 0 (S (length keys))).
  assert (Hnd : NoDup cands).
  { apply NoDup_fmap_2_strong; [|apply NoDup_seq].
    intros j k _ _. apply candidate_key_inj. }
  assert (Hsub : cands ⊆+ keys).
  { apply NoDup_submseteq; [done|].
    intros x (k & -> & Hin)%list_elem_of_fmap. apply Hkeys.
    apply elem_of_seq in Hin.
    destruct k as [|k]; [done|]. apply Hk. lia. }
  apply submseteq_length in Hsub. unfold cands in Hsub.
  rewrite length_fmap, length_seq in Hsub. lia.
Qed.

(** On the path map. *)
Lemma get_unique_name_loop_free (m : gmap string Z) (index : Z) (name ext : string) :
  ∃ s, get_unique_name_loop (path_taken m index) name ext (size m) 1 name = Some s
       ∧ path_taken m index (s +:+ ext) = false.
Proof.
  rewrite <-(length_map_to_list m), <-(length_fmap fst (map_to_list m)).
  apply get_unique_name_loop_finds. intros k Ht. unfold path_taken in Ht.
  destruct (m !! k) as [v|] eqn:Hm; [|done].
  apply list_elem_of_fmap. exists (k, v). split; [done|].
  by apply elem_of_map_to_list.
Qed.

Lemma get_unique_name_free (m : gmap string Z) (index : Z) (name ext : string) :
  path_taken m index (get_unique_name (path_taken m index) (size m) name ext +:+ ext) = false.
Proof.
  unfold get_unique_name.
  destruct (get_unique_name_loop_free m index name ext) as (s & -> & Hs). done.
Qed.

(** On a dictionary of the compactor. *)
Lemma dict_get_key k d v : dict_get k d = Some v → k ∈ d.*1.
Proof.
  induction d as [|[k' v'] d IH]; simpl; [done|].
  destruct (String.eqb_spec k k') as [->|]; [intros _; by left|].
  intros H. right. by apply IH.
Qed.

Lemma get_unique_name_dict_free (d : dict) (name ext : string) :
  dict_taken d (get_unique_name (dict_taken d) (length d) name ext +:+ ext) = false.
Proof.
  unfold get_unique_name.
  destruct (get_unique_name_loop_finds (dict_taken d) (d.*1) name ext)
    as (s & Hs & Hfree).
  { intros k Ht. unfold dict_taken in Ht.
    destruct (dict_get k d) as [v|] eqn:Hd; [|done]. by eapply dict_get_key. }
  rewrite length_fmap in Hs. by rewrite Hs.
Qed.

Lemma get_unique_name_shape taken bound name ext :
  get_unique_name taken bound name ext = name ∨
  ∃ k : nat, get_unique_name taken bound name ext = name +:+ " #" +:+ pretty k.
Proof.
  unfold get_unique_name.
  destruct (get_unique_name_loop taken name ext bound 1 name) as [s|] eqn:H; simpl.
  - apply get_unique_name_loop_some in H as [_ [->|(k & _ & ->)]]; eauto.
  - by left.
Qed.

(** *** Lower case *)

Lemma lower_ascii_idemp (c : ascii) : lower_ascii (lower_ascii c) = lower_ascii c.
Proof. destruct c as [[] [] [] [] [] [] [] []]; reflexivity. Qed.

Lemma lower_idemp (s : string) : lower (lower s) = lower s.
Proof.
  induction s as [|c s IH]; simpl; [done|].
  by rewrite lower_ascii_idemp, IH.
Qed.

Lemma lower_app (a b : string) : lower (a +:+ b) = lower a +:+ lower b.
Proof.
  induction a as [|c a IH]; [done|].
  rewrite string_app_cons. simpl. by rewrite IH, string_app_cons.
Qed.

Lemma lower_cons_inv c s :
  lower (String c s) = String c s → lower_ascii c = c ∧ lower s = s.
Proof. simpl. by intros [= ? ?]. Qed.

Lemma lower_split_by p s :
  lower s = s → Forall (λ w, lower w = w) (split_by p s).
Proof.
  induction s as [|c s IH]; intros H.
  - by repeat constructor.
  - apply lower_cons_inv in H as [Hc Hs]. specialize (IH Hs). simpl.
    destruct (p c); [by constructor|].
    destruct (split_by p s) as [|w ws]; [by repeat constructor; simpl; rewrite Hc|].
    inversion_clear IH as [|?? Hw Hws]. constructor; [|done].
    simpl. by rewrite Hc, Hw.
Qed.

Lemma lower_parts s : lower s = s → Forall (λ w, lower w = w) (parts s).
Proof.
  intros H. unfold parts.
  assert (Forall (λ w, lower w = w) (List.filter is_component (split_by is_sep s))) as Hf.
  { apply Forall_forall. intros w Hw%list_elem_of_In.
    apply filter_In in Hw as [Hw%list_elem_of_In _].
    pose proof (lower_split_by is_sep s H) as Hall.
    rewrite Forall_forall in Hall. by apply Hall. }
  destruct s as [|c s]; [done|].
  destruct (is_sep c); [|done]. by constructor.
Qed.

Lemma lower_join sep ws :
  lower sep = sep → Forall (λ w, lower w = w) ws → lower (join sep ws) = join sep ws.
Proof.
  intros Hsep. induction 1 as [|w ws Hw Hws IH]; [done|].
  simpl. destruct ws as [|w' ws]; [done|].
  by rewrite !lower_app, Hw, Hsep, IH.
Qed.

Lemma lower_path_str ps :
  Forall (λ w, lower w = w) ps → lower (path_str ps) = path_str ps.
Proof.
  intros H. unfold path_str. destruct ps as [|r rest]; [done|].
  destruct (String.eqb r root_part).
  - inversion_clear H as [|?? Hr Hrest].
    rewrite lower_app, Hr. f_equal. by apply lower_join.
  - by apply lower_join.
Qed.

Lemma lower_PureWindowsPath pieces :
  Forall (λ w, lower w = w) pieces →
  Forall (λ w, lower w = w) (PureWindowsPath pieces).
Proof.
  unfold PureWindowsPath.
  assert (∀ acc, Forall (λ w, lower w = w) acc →
            Forall (λ w, lower w = w) pieces →
            Forall (λ w, lower w = w) (foldl join_piece acc pieces)) as Hgen.
  { induction pieces as [|p pieces IH]; intros acc Hacc Hp; [done|].
    inversion_clear Hp as [|?? Hp1 Hp2]. simpl. apply IH; [|done].
    unfold join_piece. pose proof (lower_parts p Hp1) as Hparts.
    destruct (parts p) as [|r rest]; [done|].
    destruct (String.eqb r root_part); [done|].
    by apply Forall_app. }
  intros H. by apply Hgen.
Qed.

Lemma lower_rsplit1 sep s :
  lower s = s →
  lower (rsplit1 sep s).2 = (rsplit1 sep s).2 ∧
  ∀ h, (rsplit1 sep s).1 = Some h → lower h = h.
Proof.
  induction s as [|c s IH]; intros H; [done|].
  apply lower_cons_inv in H as [Hc Hs]. destruct (IH Hs) as [IH2 IH1].
  simpl. destruct (rsplit1 sep s) as [[h|] t]; simpl in *.
  - split; [done|]. intros ? [= <-]. simpl. by rewrite Hc, (IH1 h).
  - destruct (Ascii.eqb c sep); simpl.
    + split; [done|]. by intros ? [= <-].
    + split; [|done]. by rewrite Hc, IH2.
Qed.

Lemma Forall_removelast {A} (P : A → Prop) (l : list A) :
  Forall P l → Forall P (removelast l).
Proof.
  induction 1 as [|x l Hx Hl IH]; [done|].
  simpl. destruct l; [done|]. by constructor.
Qed.

Lemma lower_strip_unique_suffix can ps :
  Forall (λ w, lower w = w) ps →
  Forall (λ w, lower w = w) (strip_unique_suffix can ps).
Proof.
  intros H. unfold strip_unique_suffix.
  destruct (last ps) as [b|] eqn:Hlast; [|done].
  assert (lower b = b) as Hb.
  { rewrite Forall_forall in H. apply H.
    apply last_Some in Hlast as [l' ->].
    apply elem_of_app. right. by left. }
  destruct (lower_rsplit1 "#" b Hb) as [Ht Hh].
  destruct (rsplit1 "#" b) as [hd tl]. simpl in *.
  destruct (String.eqb _ ""); [|done].
  apply Forall_app. split; [by apply Forall_removelast|].
  constructor; [|done]. destruct hd as [hd|]; simpl; [by apply Hh|done].
Qed.

Lemma lower_pretty_N_char x : lower_ascii (pretty_N_char x) = pretty_N_char x.
Proof. unfold pretty_N_char. by repeat case_match. Qed.

Lemma lower_pretty_N_go x s : lower s = s → lower (pretty_N_go x s) = pretty_N_go x s.
Proof.
  revert s. induction (N.lt_wf_0 x) as [x _ IH]; intros s Hs.
  assert (x = 0 ∨ 0 < x)%N as [->|?] by lia.
  - by rewrite pretty_N_go_0.
  - rewrite pretty_N_go_step by done. apply IH.
    + by apply N.div_lt.
    + simpl. by rewrite lower_pretty_N_char, Hs.
Qed.

Lemma lower_pretty_nat (k : nat) : lower (pretty k) = pretty k.
Proof.
  unfold pretty, pretty_nat, pretty, pretty_N.
  case_decide; [done|]. by apply lower_pretty_N_go.
Qed.

Lemma lower_get_unique_name taken bound name ext :
  lower name = name →
  lower (get_unique_name taken bound name ext) = get_unique_name taken bound name ext.
Proof.
  intros H. destruct (get_unique_name_shape taken bound name ext) as [->|[k ->]]; [done|].
  by rewrite !lower_app, H, lower_pretty_nat.
Qed.

(** ** Priorities *)

Lemma prio_ltb_irrefl a : prio_ltb a a = false.
Proof. destruct a; simpl; [done| |done]. apply Z.ltb_irrefl. Qed.

Lemma prio_ltb_trans a b c :
  prio_ltb a b = true → prio_ltb b c = true → prio_ltb a c = true.
Proof.
  destruct a, b, c; simpl; try done.
  rewrite !Z.ltb_lt. lia.
Qed.

Lemma prio_ltb_asym a b : prio_ltb a b = true → prio_ltb b a = false.
Proof.
  destruct a, b; simpl; try done.
  rewrite Z.ltb_lt, Z.ltb_ge. lia.
Qed.

Lemma prio_ltb_total a b : prio_ltb a b = false → prio_ltb b a = false → a = b.
Proof.
  destruct a, b; simpl; try done.
  rewrite !Z.ltb_ge. intros. f_equal. lia.
Qed.

Lemma prio_leb_refl a : prio_leb a a = true.
Proof. unfold prio_leb. by rewrite prio_ltb_irrefl. Qed.

Lemma prio_leb_trans a b c :
  prio_leb a b = true → prio_leb b c = true → prio_leb a c = true.
Proof.
  unfold prio_leb. rewrite !negb_true_iff.
  destruct a, b, c; simpl; try done.
  rewrite !Z.ltb_ge. lia.
Qed.

Lemma prio_max_r a b : prio_ltb b a = false → prio_max a b = b.
Proof.
  intros H. unfold prio_max. destruct (prio_ltb a b) eqn:Hab; [done|].
  by apply prio_ltb_total.
Qed.

Lemma prio_min_INF a : prio_min a INF = a.
Proof. by destruct a. Qed.

(** ** Rounding to a double *)

Lemma round_to_double_small n : 0 ≤ n < 2 ^ 53 → round_to_double n = n.
Proof.
  intros Hn. unfold round_to_double.
  assert (Z.log2 n ≤ 52) as Hl.
  { destruct (decide (n = 0)) as [->|]; [done|].
    apply Z.lt_succ_r, Z.log2_lt_pow2; lia. }
  rewrite Z.max_l by lia. change (2 ^ 0) with 1.
  rewrite Z.mod_1_r, Z.div_1_r. simpl. lia.
Qed.

(** The shape of the result for a number of 54 bits or more: a significand
    between 2^52 and 2^53 at the exponent of the number. *)
Lemma round_to_double_large n :
  2 ^ 53 ≤ n →
  let e := Z.log2 n - 52 in
  ∃ q, round_to_double n = q * 2 ^ e ∧ 1 ≤ e
       ∧ 2 ^ 52 ≤ q ≤ 2 ^ 53
       ∧ n / 2 ^ e ≤ q ≤ n / 2 ^ e + 1
       ∧ (q = n / 2 ^ e + 1 → 2 ^ e ≤ 2 * (n mod 2 ^ e)).
Proof.
  intros Hn e.
  assert (53 ≤ Z.log2 n) as Hl by (apply Z.log2_le_pow2; lia).
  pose proof (Z.log2_spec n ltac:(lia)) as [Hlo Hhi].
  assert (He : 1 ≤ e) by (unfold e; lia).
  assert (HE : 0 < 2 ^ e) by (apply Z.pow_pos_nonneg; lia).
  assert (Hsplit : 2 ^ Z.log2 n = 2 ^ 52 * 2 ^ e).
  { rewrite <-Z.pow_add_r by lia. f_equal. unfold e. lia. }
  assert (Hsplit' : 2 ^ Z.succ (Z.log2 n) = 2 ^ 53 * 2 ^ e).
  { rewrite <-Z.pow_add_r by lia. f_equal. unfold e. lia. }
  pose proof (Z.div_mod n (2 ^ e) ltac:(lia)) as Hdm.
  pose proof (Z.mod_pos_bound n (2 ^ e) HE) as Hm.
  assert (Hq : 2 ^ 52 ≤ n / 2 ^ e < 2 ^ 53).
  { split.
    - apply Z.div_le_lower_bound; lia.
    - apply Z.div_lt_upper_bound; lia. }
  unfold round_to_double. rewrite Z.max_r by (fold e; lia). fold e.
  destruct (2 * (n mod 2 ^ e) <? 2 ^ e) eqn:H1.
  { exists (n / 2 ^ e). repeat split; lia. }
  apply Z.ltb_ge in H1.
  destruct (2 ^ e <? 2 * (n mod 2 ^ e)) eqn:H2.
  { exists (n / 2 ^ e + 1). repeat split; lia. }
  destruct (Z.even (n / 2 ^ e)).
  - exists (n / 2 ^ e). repeat split; lia.
  - exists (n / 2 ^ e + 1). repeat split; lia.
Qed.

Lemma round_to_double_nonneg n : 0 ≤ n → 0 ≤ round_to_double n.
Proof.
  intros Hn. destruct (decide (n < 2 ^ 53)).
  - rewrite round_to_double_small; lia.
  - destruct (round_to_double_large n ltac:(lia)) as (q & -> & He & Hq & _).
    apply Z.mul_nonneg_nonneg; [lia|]. apply Z.pow_nonneg. lia.
Qed.

Lemma round_to_double_bounds n :
  2 ^ 53 ≤ n → 2 ^ Z.log2 n ≤ round_to_double n ≤ 2 ^ (Z.log2 n + 1).
Proof.
  intros Hn.
  destruct (round_to_double_large n Hn) as (q & -> & He & Hq & _).
  assert (53 ≤ Z.log2 n) as Hl by (apply Z.log2_le_pow2; lia).
  assert (HE : 0 < 2 ^ (Z.log2 n - 52)) by (apply Z.pow_pos_nonneg; lia).
  replace (2 ^ Z.log2 n) with (2 ^ 52 * 2 ^ (Z.log2 n - 52))
    by (rewrite <-Z.pow_add_r by lia; f_equal; lia).
  replace (2 ^ (Z.log2 n + 1)) with (2 ^ 53 * 2 ^ (Z.log2 n - 52))
    by (rewrite <-Z.pow_add_r by lia; f_equal; lia).
  split; apply Z.mul_le_mono_nonneg_r; lia.
Qed.

Lemma round_to_double_idemp n :
  0 ≤ n → round_to_double (round_to_double n) = round_to_double n.
Proof.
  intros Hn. destruct (decide (n < 2 ^ 53)).
  { rewrite (round_to_double_small n) by lia. apply round_to_double_small. lia. }
  destruct (round_to_double_large n ltac:(lia)) as (q & Hr & He & Hq & _).
  assert (53 ≤ Z.log2 n) as Hl by (apply Z.log2_le_pow2; lia).
  set (e := Z.log2 n - 52) in *.
  assert (HE : 0 < 2 ^ e) by (apply Z.pow_pos_nonneg; lia).
  assert (HE2 : 2 ≤ 2 ^ e).
  { change 2 with (2 ^ 1) at 1. apply Z.pow_le_mono_r; lia. }
  rewrite Hr.
  assert (Hm : 2 ^ 53 ≤ q * 2 ^ e).
  { change (2 ^ 53) with (2 ^ 52 * 2). apply Z.mul_le_mono_nonneg; lia. }
  destruct (decide (q = 2 ^ 53)) as [->|Hne].
  - (* the significand overflowed into the next exponent *)
    assert (Hlog : Z.log2 (2 ^ 53 * 2 ^ e) = 53 + e).
    { rewrite <-Z.pow_add_r by lia. apply Z.log2_pow2. lia. }
    unfold round_to_double. rewrite Hlog, Z.max_r by lia.
    replace (53 + e - 52) with (e + 1) by lia.
    assert (H2 : 2 ^ 53 * 2 ^ e = 2 ^ 52 * 2 ^ (e + 1)).
    { rewrite <-!Z.pow_add_r by lia. f_equal. lia. }
    rewrite H2, Z.mod_mul, Z.div_mul by (apply Z.pow_nonzero; lia).
    assert (0 < 2 ^ (e + 1)) by (apply Z.pow_pos_nonneg; lia).
    rewrite (proj2 (Z.ltb_lt _ _)) by lia. done.
  - assert (Hlog : Z.log2 (q * 2 ^ e) = Z.log2 n).
    { apply Z.log2_unique; [lia|]. split.
      - replace (2 ^ Z.log2 n) with (2 ^ 52 * 2 ^ e)
          by (rewrite <-Z.pow_add_r by lia; f_equal; unfold e; lia).
        apply Z.mul_le_mono_nonneg_r; lia.
      - replace (2 ^ Z.succ (Z.log2 n)) with (2 ^ 53 * 2 ^ e)
          by (rewrite <-Z.pow_add_r by lia; f_equal; unfold e; lia).
        apply Z.mul_lt_mono_pos_r; lia. }
    unfold round_to_double. rewrite Hlog, Z.max_r by (fold e; lia). fold e.
    rewrite Z.mod_mul, Z.div_mul by lia.
    rewrite (proj2 (Z.ltb_lt _ _)) by lia. done.
Qed.

Lemma round_to_double_mono a b :
  0 ≤ a ≤ b → round_to_double a ≤ round_to_double b.
Proof.
  intros [Ha Hab].
  destruct (decide (b < 2 ^ 53)).
  { rewrite !round_to_double_small by lia. done. }
  destruct (round_to_double_large b ltac:(lia)) as (qb & Hrb & Heb & Hqb & Hdb & Hupb).
  pose proof (round_to_double_bounds b ltac:(lia)) as [Hblo _].
  assert (53 ≤ Z.log2 b) as Hlb by (apply Z.log2_le_pow2; lia).
  destruct (decide (a < 2 ^ 53)).
  { rewrite (round_to_double_small a) by lia.
    assert (2 ^ 53 ≤ 2 ^ Z.log2 b) by (apply Z.pow_le_mono_r; lia). lia. }
  destruct (round_to_double_large a ltac:(lia)) as (qa & Hra & Hea & Hqa & Hda & Hupa).
  pose proof (round_to_double_bounds a ltac:(lia)) as [_ Hahi].
  pose proof (Z.log2_le_mono a b Hab) as Hlog.
  destruct (decide (Z.log2 a = Z.log2 b)) as [Heq|Hne].
  - rewrite Hra, Hrb, Heq in *.
    set (e := Z.log2 b - 52) in *.
    assert (HE : 0 < 2 ^ e) by (apply Z.pow_pos_nonneg; lia).
    apply Z.mul_le_mono_nonneg_r; [lia|].
    pose proof (Z.div_le_mono a b (2 ^ e) HE Hab) as Hdiv.
    destruct (decide (a / 2 ^ e = b / 2 ^ e)) as [Hq|Hq]; [|lia].
    destruct (decide (qa = a / 2 ^ e)); [lia|].
    assert (qa = a / 2 ^ e + 1) as Hqa1 by lia.
    specialize (Hupa Hqa1).
    pose proof (Z.div_mod a (2 ^ e) ltac:(lia)) as Hdma.
    pose proof (Z.div_mod b (2 ^ e) ltac:(lia)) as Hdmb.
    assert (Hmod : a mod 2 ^ e ≤ b mod 2 ^ e) by (rewrite Hq in Hdma; lia).
    destruct (decide (qb = b / 2 ^ e + 1)); [lia|].
    assert (qb = b / 2 ^ e) as Hqb0 by lia.
    (* [b] was rounded down although its rest is at least that of [a] *)
    exfalso. revert Hrb Hra. unfold round_to_double.
    rewrite !Z.max_r by lia. rewrite Heq. fold e.
    destruct (2 * (a mod 2 ^ e) <? 2 ^ e) eqn:A1; [apply Z.ltb_lt in A1; lia|].
    destruct (2 * (b mod 2 ^ e) <? 2 ^ e) eqn:B1; [apply Z.ltb_lt in B1; lia|].
    destruct (2 ^ e <? 2 * (b mod 2 ^ e)) eqn:B2.
    { intros Hb _. apply Z.mul_cancel_r in Hb; lia. }
    apply Z.ltb_ge in B2.
    destruct (2 ^ e <? 2 * (a mod 2 ^ e)) eqn:A2; [apply Z.ltb_lt in A2; lia|].
    rewrite Hq. destruct (Z.even (b / 2 ^ e)).
    + intros _ Ha'. apply Z.mul_cancel_r in Ha'; lia.
    + intros Hb' _. apply Z.mul_cancel_r in Hb'; lia.
  - assert (2 ^ (Z.log2 a + 1) ≤ 2 ^ Z.log2 b) by (apply Z.pow_le_mono_r; lia).
    lia.
Qed.

(** *** [float] *)

Lemma float_raises x e : float x = inl e → e = OverflowError.
Proof.
  destruct x as [|z|]; simpl; [done| |done].
  destruct (2 ^ 1024 <=? _); [by intros [= <-]|done].
Qed.

Lemma float_small z : Z.abs z ≤ 2 ^ 53 → float (Fin z) = inr (Fin z).
Proof.
  intros Hz. simpl.
  assert (round_to_double (Z.abs z) = Z.abs z) as ->.
  { destruct (decide (Z.abs z = 2 ^ 53)) as [->|]; [by vm_compute|].
    apply round_to_double_small. lia. }
  rewrite (proj2 (Z.leb_gt _ _)).
  - do 2 f_equal. lia.
  - eapply Z.le_lt_trans; [exact Hz|]. by vm_compute.
Qed.

Lemma signed_round_nonneg z :
  0 ≤ z → Z.sgn z * round_to_double (Z.abs z) = round_to_double z.
Proof.
  intros Hz. rewrite Z.abs_eq by done.
  destruct (decide (z = 0)) as [->|]; [done|].
  rewrite Z.sgn_pos by lia. lia.
Qed.

Lemma signed_round_neg z :
  z ≤ 0 → Z.sgn z * round_to_double (Z.abs z) = - round_to_double (- z).
Proof.
  intros Hz. rewrite Z.abs_neq by done.
  destruct (decide (z = 0)) as [->|]; [done|].
  rewrite Z.sgn_neg by lia. lia.
Qed.

Lemma signed_round_mono x y :
  x ≤ y →
  Z.sgn x * round_to_double (Z.abs x) ≤ Z.sgn y * round_to_double (Z.abs y).
Proof.
  intros Hxy. destruct (Z.le_gt_cases 0 x), (Z.le_gt_cases 0 y).
  - rewrite !signed_round_nonneg by lia. apply round_to_double_mono. lia.
  - lia.
  - rewrite signed_round_neg, signed_round_nonneg by lia.
    pose proof (round_to_double_nonneg (- x)). pose proof (round_to_double_nonneg y).
    lia.
  - rewrite !signed_round_neg by lia.
    pose proof (round_to_double_mono (- y) (- x)). lia.
Qed.

(** What [float] returns is a float: converting it again changes nothing. *)
Lemma float_idemp x f : float x = inr f → float f = inr f.
Proof.
  destruct x as [|z|]; simpl; [by intros [= <-]| |by intros [= <-]].
  destruct (2 ^ 1024 <=? round_to_double (Z.abs z)) eqn:Hov; [done|].
  intros [= <-]. simpl.
  pose proof (round_to_double_nonneg (Z.abs z) (Z.abs_nonneg z)) as Hm.
  assert (Z.abs (Z.sgn z * round_to_double (Z.abs z)) = round_to_double (Z.abs z))
    as Habs.
  { destruct (Z.sgn_spec z) as [[? ->]|[[<- ->]|[? ->]]]; [lia|done|lia]. }
  rewrite Habs, round_to_double_idemp by apply Z.abs_nonneg.
  rewrite Hov. do 2 f_equal.
  destruct (decide (round_to_double (Z.abs z) = 0)) as [->|]; [lia|].
  assert (z ≠ 0) by (by intros ->).
  rewrite Z.sgn_mul, (Z.sgn_pos (round_to_double _)) by lia.
  rewrite Z.mul_1_r, Z.sgn_sgn. done.
Qed.

(** [float] keeps the order. *)
Lemma float_mono a b fa fb :
  float a = inr fa → float b = inr fb →
  prio_leb a b = true → prio_leb fa fb = true.
Proof.
  unfold prio_leb. rewrite !negb_true_iff.
  destruct a as [|x|], b as [|y|]; simpl; try done;
    repeat (match goal with |- context [if ?c then _ else _] => destruct c end);
    try done; intros [= <-] [= <-]; try done.
  simpl. rewrite !Z.ltb_ge. apply signed_round_mono.
Qed.

(** ** Identities *)

Lemma mask_idemp (i : Z) : mask (mask i) = mask i.
Proof. unfold mask. by rewrite <-Z.land_assoc, Z.land_diag. Qed.

Lemma mask_nonneg (i : Z) : 0 ≤ mask i.
Proof. unfold mask. apply Z.land_nonneg. lia. Qed.

Lemma get_index_ref_mask h i :
  get_index_ref h (Some (mask i)) = get_index_ref h (Some i).
Proof. unfold get_index_ref. by rewrite mask_idemp. Qed.

Lemma get_index_ref_Some h index tag_ref :
  get_index_ref h index = Some tag_ref →
  ∃ i, index = Some i ∧ in_index_range h (mask i) = true
       ∧ _index_map h !! Z.to_nat (mask i) = Some tag_ref.
Proof.
  unfold get_index_ref. destruct index as [i|]; [|done].
  destruct (in_index_range h (mask i)) eqn:Hr; [|done]. eauto.
Qed.

Lemma unresolvable_get_index_ref h index :
  unresolvable h index → get_index_ref h index = None.
Proof.
  destruct index as [i|]; [|done]. simpl. intros H.
  unfold in_index_range. by rewrite bool_decide_eq_false_2.
Qed.

Section handler_facts.

Variable sanitize_win32_path : string → list string.

Local Abbreviation set_path := (set_path sanitize_win32_path).
Local Abbreviation set_path_by_priority := (set_path_by_priority sanitize_win32_path).
Local Abbreviation step := (step sanitize_win32_path).

(** *** What [set_path] does to the state *)

(** Either the identity does not resolve and nothing happens, or the call
    raises [KeyError] and nothing happens, or the entry gets a new lower-case
    path [p] whose full name [p.ext] was free for it, and the path map trades
    the old full name for the new one. *)
Lemma set_path_cases h index new_path_no_ext ensure_unique_name ensure_root_prefixed :
  (get_index_ref h index = None ∧
   set_path h index new_path_no_ext ensure_unique_name ensure_root_prefixed
     = inr (h, None)) ∨
  (∃ i tag_ref,
     index = Some i ∧ get_index_ref h index = Some tag_ref ∧
     (set_path h index new_path_no_ext ensure_unique_name ensure_root_prefixed
        = inl KeyError ∨
      ∃ p,
        let ext := "." +:+ lower (enum_name tag_ref) in
        path_taken (_path_map h) (mask i) (p +:+ ext) = false ∧
        lower p = p ∧
        set_path h index new_path_no_ext ensure_unique_name ensure_root_prefixed
          = inr (with_index_map
                   (with_path_map h
                      (<[p +:+ ext := mask i]>
                         (delete (lower (path tag_ref) +:+ ext) (_path_map h))))
                   (<[Z.to_nat (mask i) := with_path tag_ref p]> (_index_map h)),
                 Some (p +:+ ext)))).
Proof.
  destruct index as [i|]; [|left; done].
  unfold set_path. rewrite get_index_ref_mask.
  destruct (get_index_ref h (Some i)) as [tag_ref|] eqn:Href; [|left; done].
  right. exists i, tag_ref. split; [done|]. split; [done|].
  match goal with
  | |- context [if path_taken ?m ?ix (?p +:+ ?e) then _ else _] =>
      destruct (path_taken m ix (p +:+ e)) eqn:Htaken; [left; done|];
      right; exists p
  end.
  split; [exact Htaken|]. split; [|done]. clear Htaken.
  match goal with
  | |- lower (if ?c then _ else _) = _ => destruct c
  end.
  - assert (∀ u, lower u = u →
              lower (if bool_decide (lower (enum_name tag_ref)
                                       ∉ _perm_suffixed_tag_classes h)
                     then u else u +:+ "_")
              = (if bool_decide (lower (enum_name tag_ref)
                                   ∉ _perm_suffixed_tag_classes h)
                 then u else u +:+ "_")) as Hu.
    { intros u Hu. case_bool_decide; [done|]. by rewrite lower_app, Hu. }
    apply Hu. apply lower_get_unique_name. apply lower_path_str.
    apply lower_PureWindowsPath, lower_strip_unique_suffix, lower_parts.
    apply lower_idemp.
  - apply lower_idemp.
Qed.

(** With [ensure_unique_name] set, as [set_path_by_priority] calls it,
    [set_path] does not raise. *)
Lemma set_path_unique_ok h index new_path_no_ext ensure_root_prefixed :
  ∃ r, set_path h index new_path_no_ext true ensure_root_prefixed = inr r.
Proof.
  destruct index as [i|]; [|by eexists].
  unfold set_path. rewrite get_index_ref_mask.
  destruct (get_index_ref h (Some i)) as [tag_ref|] eqn:Href; [|by eexists].
  set (ext := lower (enum_name tag_ref)).
  set (can := bool_decide (ext ∉ _perm_suffixed_tag_classes h)).
  match goal with
  | |- context [lower (strip (path_str (sanitize_win32_path ?x)))] =>
      set (p0 := lower (strip (path_str (sanitize_win32_path x))))
  end.
  set (m := _path_map h).
  destruct (negb can && ends_with_digit p0
            || true && path_taken m (mask i) (p0 +:+ "." +:+ ext)) eqn:Hissue.
  - match goal with
    | |- context [get_unique_name ?t ?b ?n ?e] =>
        pose proof (get_unique_name_free m (mask i) n e) as Hfree;
        set (u := get_unique_name t b n e) in *
    end.
    destruct can; simpl in *.
    + change ("" +:+ "." +:+ ext) with ("." +:+ ext) in *.
      rewrite Hfree. by eexists.
    + rewrite string_app_assoc, Hfree. by eexists.
  - apply orb_false_iff in Hissue as [_ Hu]. simpl in Hu. rewrite Hu.
    by eexists.
Qed.

Lemma same_books_refl h : same_books h h.
Proof. by repeat split. Qed.

Lemma tag_kinds_length h h' :
  tag_kinds h' = tag_kinds h → length (_index_map h') = length (_index_map h).
Proof.
  unfold tag_kinds. intros H. apply (f_equal length) in H.
  by rewrite !length_fmap in H.
Qed.

Lemma tag_kinds_lookup h h' j r' :
  tag_kinds h' = tag_kinds h → _index_map h' !! j = Some r' →
  ∃ r, _index_map h !! j = Some r ∧ enum_name r = enum_name r'
       ∧ indexed r = indexed r'.
Proof.
  unfold tag_kinds. intros H Hj.
  apply (f_equal (λ l, l !! j)) in H. rewrite !list_lookup_fmap, Hj in H.
  destruct (_index_map h !! j) as [r|]; [|done].
  simpl in H. injection H as H1 H2. eauto.
Qed.

Lemma set_path_same_books h index new_path_no_ext eu erp h' r :
  set_path h index new_path_no_ext eu erp = inr (h', r) → same_books h h'.
Proof.
  intros H.
  destruct (set_path_cases h index new_path_no_ext eu erp)
    as [[_ E]|(i & tag_ref & -> & Href & [E|(p & _ & _ & E)])];
    rewrite E in H; simplify_eq; [apply same_books_refl|].
  repeat split. unfold tag_kinds. simpl.
  apply get_index_ref_Some in Href as (? & [= <-] & _ & Hl).
  rewrite list_fmap_insert. simpl. apply list_insert_id.
  by rewrite list_lookup_fmap, Hl.
Qed.

Lemma in_index_range_same h h' i :
  tag_kinds h' = tag_kinds h → in_index_range h' i = in_index_range h i.
Proof.
  intros H. unfold in_index_range. by rewrite (tag_kinds_length _ _ H).
Qed.

Lemma get_index_ref_is_Some_same h h' index :
  tag_kinds h' = tag_kinds h →
  is_Some (get_index_ref h index) → is_Some (get_index_ref h' index).
Proof.
  intros Hk [r (i & -> & Hr & Hl)%get_index_ref_Some].
  unfold get_index_ref. rewrite (in_index_range_same h h') by done.
  rewrite Hr. apply lookup_lt_is_Some. rewrite (tag_kinds_length _ _ Hk).
  by apply lookup_lt_Some in Hl.
Qed.

(** *** The priority setters *)

Lemma set_priority_inr h index p h' :
  set_priority h index p = inr h' →
  h' = h ∨
  ∃ i f, index = Some i ∧ in_index_range h (mask i) = true ∧ float p = inr f
         ∧ h' = with_priorities h (<[mask i := f]> (_priorities h)).
Proof.
  unfold set_priority. destruct index as [i|]; [|intros [= <-]; by left].
  destruct (in_index_range h (mask i)) eqn:Hr; [|intros [= <-]; by left].
  destruct (float p) as [e|f]; simpl; [done|]. intros [= <-]. right. by exists i, f.
Qed.

Lemma set_priority_min_inr h index p h' :
  set_priority_min h index p = inr h' →
  h' = h ∨
  ∃ i f, index = Some i ∧ in_index_range h (mask i) = true ∧ float p = inr f
         ∧ h' = with_priority_mins h (<[mask i := f]> (_priority_mins h)).
Proof.
  unfold set_priority_min. destruct index as [i|]; [|intros [= <-]; by left].
  destruct (in_index_range h (mask i)) eqn:Hr; [|intros [= <-]; by left].
  destruct (float p) as [e|f]; simpl; [done|]. intros [= <-]. right. by exists i, f.
Qed.

(** The setters raise nothing but the [OverflowError] of [float]. *)
Lemma set_priority_inl h index p e :
  set_priority h index p = inl e →
  e = OverflowError ∧ float p = inl OverflowError
  ∧ is_Some (get_index_ref h index).
Proof.
  unfold set_priority, get_index_ref. destruct index as [i|]; [|done].
  destruct (in_index_range h (mask i)) eqn:Hr; [|done].
  destruct (float p) as [e'|f] eqn:Hf; simpl; [|done]. intros [= <-].
  rewrite (float_raises _ _ Hf). split; [done|]. split; [done|].
  apply lookup_lt_is_Some. unfold in_index_range in Hr.
  apply bool_decide_eq_true in Hr. lia.
Qed.

Lemma set_priority_min_inl h index p e :
  set_priority_min h index p = inl e →
  e = OverflowError ∧ float p = inl OverflowError.
Proof.
  unfold set_priority_min. destruct index as [i|]; [|done].
  destruct (in_index_range h (mask i)); [|done].
  destruct (float p) as [e'|f] eqn:Hf; simpl; [|done]. intros [= <-].
  by rewrite (float_raises _ _ Hf).
Qed.

Lemma get_priority_set_priority h index p h' :
  is_Some (get_index_ref h index) → set_priority h index p = inr h' →
  float p = inr (get_priority h' index).
Proof.
  intros [r (i & -> & Hr & _)%get_index_ref_Some].
  unfold set_priority, get_priority. rewrite Hr.
  destruct (float p) as [e|f]; simpl; [done|]. intros [= <-]. simpl.
  by rewrite lookup_insert_eq.
Qed.

Lemma set_priority_resolving h index p :
  is_Some (get_index_ref h index) →
  set_priority h index p
  = match float p with
    | inl e => inl e
    | inr f =>
        inr (with_priorities h
               (<[default 0 (mask <$> index) := f]> (_priorities h)))
    end.
Proof.
  intros [r (i & -> & Hr & _)%get_index_ref_Some].
  unfold set_priority. rewrite Hr. by destruct (float p).
Qed.

(** *** Acceptance of a proposal *)

Lemma get_will_overwrite_rejected h index tag_ref priority override :
  get_index_ref h index = Some tag_ref →
  get_will_overwrite h index priority override
    = inr (negb (rejected h index tag_ref
                   (default (_def_priority h) priority) override)).
Proof.
  intros Href. unfold get_will_overwrite, rejected.
  destruct index as [i|]; [|done]. rewrite Href.
  set (c := default (_def_priority h) priority).
  set (gp := get_priority h (Some i)).
  destruct (get_overwritable h (Some i)); simpl; [|done].
  destruct (prio_ltb c gp); simpl; [done|].
  destruct (prio_eqb gp c); simpl.
  - by destruct override.
  - by destruct (indexed tag_ref), override.
Qed.

Lemma set_path_by_priority_unfold h index new_path_no_ext priority override :
  set_path_by_priority h index new_path_no_ext priority override
  = match get_index_ref h index with
    | None => inr (h, NegInf)
    | Some _ =>
        match get_will_overwrite h index
                (Some (default (_def_priority h) priority)) override with
        | inl e => inl (e, h)
        | inr will_overwrite =>
            if negb will_overwrite then inr (h, get_priority h index)
            else
              match set_path h index new_path_no_ext true true with
              | inl e => inl (e, h)
              | inr (h', _) =>
                  match set_priority h' index (default (_def_priority h) priority) with
                  | inl e => inl (e, h')
                  | inr h'' => inr (h'', default (_def_priority h) priority)
                  end
              end
        end
    end.
Proof. reflexivity. Qed.

Lemma set_path_by_priority_rejects h index tag_ref new_path_no_ext priority override :
  get_index_ref h index = Some tag_ref →
  rejected h index tag_ref (default (_def_priority h) priority) override = true →
  set_path_by_priority h index new_path_no_ext priority override
    = inr (h, get_priority h index).
Proof.
  intros Href Hrej. rewrite set_path_by_priority_unfold, Href.
  rewrite (get_will_overwrite_rejected _ _ tag_ref) by done.
  simpl. by rewrite Hrej.
Qed.

(** An accepted proposal: [set_path] gives the tag a name without raising,
    then [set_priority] stores the float of the candidate, or raises with
    the name already given. *)
Lemma set_path_by_priority_accepts h index tag_ref new_path_no_ext priority override :
  get_index_ref h index = Some tag_ref →
  let candidate := default (_def_priority h) priority in
  rejected h index tag_ref candidate override = false →
  ∃ h1 new_path,
    set_path h index new_path_no_ext true true = inr (h1, Some new_path)
    ∧ is_Some (get_index_ref h1 index)
    ∧ set_path_by_priority h index new_path_no_ext priority override
        = match set_priority h1 index candidate with
          | inl e => inl (e, h1)
          | inr h2 => inr (h2, candidate)
          end.
Proof.
  intros Href candidate Hrej. rewrite set_path_by_priority_unfold, Href.
  rewrite (get_will_overwrite_rejected _ _ tag_ref) by done.
  change (default (_def_priority h) (Some (default (_def_priority h) priority)))
    with candidate.
  fold candidate. rewrite Hrej. cbn [negb].
  destruct (set_path_cases h index new_path_no_ext true true)
    as [[E _]|(i & r & -> & Href' & [E|(p & _ & _ & E)])].
  - congruence.
  - destruct (set_path_unique_ok h (Some i) new_path_no_ext true) as [? E'].
    congruence.
  - eexists _, _. split; [exact E|]. split; [|by rewrite E].
    apply set_path_same_books in E as (_ & _ & _ & _ & _ & _ & Hk).
    apply (get_index_ref_is_Some_same h); [done|by rewrite Href].
Qed.

(** When the name asked for is free for the tag, it is the name the tag
    gets. *)
Lemma set_path_free h i tag_ref new_path_no_ext eu :
  get_index_ref h (Some i) = Some tag_ref →
  let name := requested_name sanitize_win32_path h i new_path_no_ext in
  let new_path := name +:+ "." +:+ lower (enum_name tag_ref) in
  free_for h i tag_ref name →
  set_path h (Some i) new_path_no_ext eu true
  = inr (with_index_map
           (with_path_map h
              (<[new_path := mask i]> (delete (full_path tag_ref) (_path_map h))))
           (<[Z.to_nat (mask i) := with_path tag_ref name]> (_index_map h)),
         Some new_path).
Proof.
  intros Href name new_path [Hfree Hdigit].
  unfold set_path. rewrite get_index_ref_mask, Href. cbn zeta.
  assert (name
          = lower (strip (path_str (sanitize_win32_path
              (let n :=
                 if true && negb (startswith (lower new_path_no_ext) (root_dir_prefix h))
                 then root_dir_prefix h +:+ lower new_path_no_ext
                 else lower new_path_no_ext in
               if String.eqb n "" || ends_with_backslash n
               then n +:+ "protected_" +:+ pretty (mask i) else n))))) as Hname.
  { unfold name, requested_name. cbn zeta.
    by destruct (startswith (lower new_path_no_ext) (root_dir_prefix h)). }
  cbn zeta in Hname. rewrite <-Hname.
  assert (negb (bool_decide (lower (enum_name tag_ref) ∉ _perm_suffixed_tag_classes h))
          && ends_with_digit name = false) as ->.
  { case_bool_decide as Hperm; [done|]. simpl. by apply Hdigit. }
  rewrite Hfree, andb_false_r. cbn [orb]. by rewrite Hfree.
Qed.


(** *** Unresolvable identities *)

Lemma set_path_by_priority_unresolvable h index new_path_no_ext priority override :
  unresolvable h index →
  set_path_by_priority h index new_path_no_ext priority override = inr (h, NegInf).
Proof.
  intros H%unresolvable_get_index_ref. unfold set_path_by_priority.
  by rewrite H.
Qed.

(** *** Sub-directories *)

(** [get_sub_dir] raises as soon as the directory part of the path and the
    root start with the same component. *)
Lemma get_sub_dir_shared_component h index root tag_ref d dirs root_dirs :
  get_index_ref h index = Some tag_ref →
  removelast (parts (path tag_ref)) = d :: dirs →
  parts root = d :: root_dirs →
  get_sub_dir h index root = inl AttributeError.
Proof.
  intros Href Hd Hr. unfold get_sub_dir. rewrite Href, Hd, Hr.
  by rewrite String.eqb_refl.
Qed.


(** *** Reachable states *)

Lemma set_priority_tag_kinds h index p h' :
  set_priority h index p = inr h' →
  tag_kinds h' = tag_kinds h
  ∧ _overwritables h' = _overwritables h
  ∧ _index_map h' = _index_map h
  ∧ _path_map h' = _path_map h.
Proof. by intros [->|(i & f & _ & _ & _ & ->)]%set_priority_inr. Qed.

Lemma set_priority_min_tag_kinds h index p h' :
  set_priority_min h index p = inr h' →
  tag_kinds h' = tag_kinds h
  ∧ _overwritables h' = _overwritables h
  ∧ _index_map h' = _index_map h
  ∧ _path_map h' = _path_map h.
Proof. by intros [->|(i & f & _ & _ & _ & ->)]%set_priority_min_inr. Qed.

(** What [set_priority] and [set_priority_min] leave alone besides. *)
Lemma set_priority_frame h index p h' :
  set_priority h index p = inr h' →
  _priority_mins h' = _priority_mins h
  ∧ _def_priority h' = _def_priority h
  ∧ _perm_suffixed_tag_classes h' = _perm_suffixed_tag_classes h
  ∧ _root_dir_prefix h' = _root_dir_prefix h.
Proof. by intros [->|(i & f & _ & _ & _ & ->)]%set_priority_inr. Qed.

Lemma set_priority_min_frame h index p h' :
  set_priority_min h index p = inr h' →
  _priorities h' = _priorities h
  ∧ _def_priority h' = _def_priority h
  ∧ _perm_suffixed_tag_classes h' = _perm_suffixed_tag_classes h
  ∧ _root_dir_prefix h' = _root_dir_prefix h.
Proof. by intros [->|(i & f & _ & _ & _ & ->)]%set_priority_min_inr. Qed.

Lemma set_path_by_priority_cases h index new_path_no_ext priority override h' r :
  set_path_by_priority h index new_path_no_ext priority override = inr (h', r) →
  h' = h ∨
  ∃ h1 new_path,
    set_path h index new_path_no_ext true true = inr (h1, new_path)
    ∧ set_priority h1 index (default (_def_priority h) priority) = inr h'
    ∧ r = default (_def_priority h) priority
    ∧ get_will_overwrite h index (Some (default (_def_priority h) priority)) override
        = inr true.
Proof.
  unfold set_path_by_priority.
  destruct (get_index_ref h index) as [tag_ref|]; [|intros [= <- _]; by left].
  cbn zeta.
  destruct (get_will_overwrite h index _ override) as [e|[]] eqn:Hw; cbn [negb].
  - done.
  - destruct (set_path h index new_path_no_ext true true) as [e|[h1 np]] eqn:E;
      [done|].
    destruct (set_priority h1 index _) as [e|h2] eqn:E2; [done|].
    intros [= <- <-]. right. eauto 10.
  - intros [= <- _]. by left.
Qed.

(** [set_path_by_priority] raises nothing but [OverflowError], and only
    after it has set the path: the state it leaves is the one [set_path]
    returned. *)
Lemma set_path_by_priority_raises h index new_path_no_ext priority override e h' :
  set_path_by_priority h index new_path_no_ext priority override = inl (e, h') →
  e = OverflowError
  ∧ float (default (_def_priority h) priority) = inl OverflowError
  ∧ ∃ new_path,
      set_path h index new_path_no_ext true true = inr (h', new_path)
      ∧ get_will_overwrite h index (Some (default (_def_priority h) priority)) override
          = inr true.
Proof.
  rewrite set_path_by_priority_unfold.
  destruct (get_index_ref h index) as [tag_ref|] eqn:Href; [|done].
  rewrite (get_will_overwrite_rejected _ _ tag_ref) by done.
  change (default (_def_priority h) (Some (default (_def_priority h) priority)))
    with (default (_def_priority h) priority).
  destruct (negb (rejected _ _ _ _ _)) eqn:Hw; cbn [negb]; [|done].
  destruct (set_path_unique_ok h index new_path_no_ext true) as [[h1 np] E].
  rewrite E.
  destruct (set_priority h1 index _) as [e'|h2] eqn:E2; [|done].
  intros [= <- <-]. apply set_priority_inl in E2 as (-> & Hf & _).
  split; [done|]. split; [done|]. by exists np.
Qed.

Lemma step_kinds h h' :
  step h h' →
  tag_kinds h' = tag_kinds h ∧ _overwritables h' = _overwritables h.
Proof.
  destruct 1 as [h index np eu erp h' r H|h index np pr ov h' r H
                |h index np pr ov e h' H|h index p h' H|h index p h' H].
  - by apply set_path_same_books in H as (_ & _ & ? & _ & _ & _ & ?).
  - apply set_path_by_priority_cases in H as [->|(h1 & ? & H & H2 & _)]; [done|].
    apply set_path_same_books in H as (_ & _ & ? & _ & _ & _ & ?).
    apply set_priority_tag_kinds in H2 as (-> & -> & _). done.
  - apply set_path_by_priority_raises in H as (_ & _ & np' & H & _).
    by apply set_path_same_books in H as (_ & _ & ? & _ & _ & _ & ?).
  - by apply set_priority_tag_kinds in H as (-> & -> & _).
  - by apply set_priority_min_tag_kinds in H as (-> & -> & _).
Qed.

(** *** The state after construction *)

Lemma init_loop_index_map refs i h :
  _index_map (init_loop refs i h) = _index_map h.
Proof. revert i h. induction refs as [|r refs IH]; intros i h; simpl; [done|]. by rewrite IH. Qed.

Lemma init_loop_def_priority refs i h :
  _def_priority (init_loop refs i h) = _def_priority h.
Proof. revert i h. induction refs as [|r refs IH]; intros i h; simpl; [done|]. by rewrite IH. Qed.

Lemma init_loop_overwritables_lt refs i h k :
  k < i → _overwritables (init_loop refs i h) !! k = _overwritables h !! k.
Proof.
  revert i h. induction refs as [|r refs IH]; intros i h Hk; simpl; [done|].
  rewrite IH by lia. simpl. apply lookup_insert_ne. lia.
Qed.

Lemma init_loop_overwritables refs i h pos r :
  refs !! pos = Some r →
  _overwritables (init_loop refs i h) !! (i + Z.of_nat pos) = Some (negb (indexed r)).
Proof.
  revert i h pos. induction refs as [|r0 refs IH]; intros i h pos Hpos; [done|].
  destruct pos as [|pos]; simpl in *.
  - injection Hpos as ->. rewrite init_loop_overwritables_lt by lia.
    simpl. rewrite Z.add_0_r. apply lookup_insert_eq.
  - replace (i + Z.of_nat (S pos)) with ((i + 1) + Z.of_nat pos) by lia.
    by apply IH.
Qed.

Lemma init_loop_priorities_lt refs i h k :
  k < i → _priorities (init_loop refs i h) !! k = _priorities h !! k.
Proof.
  revert i h. induction refs as [|r refs IH]; intros i h Hk; simpl; [done|].
  rewrite IH by lia. simpl. apply lookup_insert_ne. lia.
Qed.

Lemma init_loop_priorities refs i h pos r :
  refs !! pos = Some r →
  _priorities (init_loop refs i h) !! (i + Z.of_nat pos)
    = Some (if indexed r then INF else _def_priority h).
Proof.
  revert i h pos. induction refs as [|r0 refs IH]; intros i h pos Hpos; [done|].
  destruct pos as [|pos]; simpl in *.
  - injection Hpos as ->. rewrite init_loop_priorities_lt by lia.
    simpl. rewrite Z.add_0_r. apply lookup_insert_eq.
  - replace (i + Z.of_nat (S pos)) with ((i + 1) + Z.of_nat pos) by lia.
    by rewrite (IH _ _ _ Hpos).
Qed.

Lemma init_pins_protected refs dp pr pm perm :
  pins_protected (__init__ refs dp pr pm perm).
Proof.
  unfold pins_protected, __init__. intros pos r.
  rewrite init_loop_index_map. simpl. intros Hpos Hpin.
  rewrite <-(Z.add_0_l (Z.of_nat pos)).
  rewrite (init_loop_overwritables _ _ _ _ _ Hpos). by rewrite Hpin.
Qed.

Lemma step_pins_protected h h' : step h h' → pins_protected h → pins_protected h'.
Proof.
  intros [Hk Ho]%step_kinds Hinv pos r' Hpos Hpin.
  destruct (tag_kinds_lookup _ _ _ _ Hk Hpos) as (r & Hr & _ & Hi).
  rewrite Ho. apply (Hinv pos r); congruence.
Qed.

Lemma reachable_pins_protected h0 h :
  rtc step h0 h → pins_protected h0 → pins_protected h.
Proof. induction 1; eauto using step_pins_protected. Qed.

(** C3, amended. In every state reached from the constructor by calls of
    [set_path], [set_path_by_priority], [set_priority] and
    [set_priority_min] (the calls that raise included), so as long as
    [set_overwritable] has not been used, [set_path_by_priority] on a pinned
    (indexed) tag returns normally, with the current priority, and leaves
    the whole state as it is, for every candidate path, every priority
    (given or not, [INF] included) and both values of [override]. *)
Theorem pinned_entry_protection refs dp pr pm perm h index tag_ref
    new_path_no_ext priority override :
  rtc step (__init__ refs dp pr pm perm) h →
  get_index_ref h index = Some tag_ref →
  indexed tag_ref = true →
  set_path_by_priority h index new_path_no_ext priority override
    = inr (h, get_priority h index).
Proof.
  intros Hreach Href Hpin.
  pose proof (reachable_pins_protected _ _ Hreach (init_pins_protected _ _ _ _ _)) as Hinv.
  apply (set_path_by_priority_rejects _ _ tag_ref); [done|].
  unfold rejected.
  apply get_index_ref_Some in Href as (i & -> & Hr & Hl).
  unfold get_overwritable.
  specialize (Hinv _ _ Hl Hpin). rewrite Z2Nat.id in Hinv by apply mask_nonneg.
  by rewrite Hinv.
Qed.

(** *** Priorities over a sequence of proposals *)

Local Abbreviation propose := (propose sanitize_win32_path).
Local Abbreviation run_proposals := (run_proposals sanitize_win32_path).
Local Abbreviation stored_for := (stored_for sanitize_win32_path).

Lemma propose_rejected h c : accepted h c = false → propose h c = h.
Proof.
  unfold accepted, propose, proposed. rewrite set_path_by_priority_unfold.
  destruct (get_index_ref h (prop_index c)); [|done].
  by destruct (get_will_overwrite h (prop_index c) _ (prop_override c)) as [e|[]].
Qed.

Lemma propose_accepted h c :
  accepted h c = true →
  prio_ltb (proposed h c) (get_priority h (prop_index c)) = false ∧
  ∃ h1, same_books h h1 ∧ is_Some (get_index_ref h1 (prop_index c))
        ∧ propose h c = match set_priority h1 (prop_index c) (proposed h c) with
                        | inr h2 => h2
                        | inl _ => h1
                        end.
Proof.
  unfold accepted, propose. fold (proposed h c).
  destruct (get_index_ref h (prop_index c)) as [r|] eqn:Href; [|done].
  rewrite (get_will_overwrite_rejected _ _ r) by done.
  change (default (_def_priority h) (Some (proposed h c))) with (proposed h c).
  destruct (rejected h (prop_index c) r (proposed h c) (prop_override c)) eqn:Hrej;
    [done|].
  intros _. split.
  - unfold rejected in Hrej.
    by apply orb_false_iff in Hrej as [[_ ?]%orb_false_iff _].
  - destruct (set_path_by_priority_accepts h (prop_index c) r (prop_path c)
                (prop_priority c) (prop_override c) Href Hrej)
      as (h1 & np & E & Hres & ->).
    exists h1. split; [by apply set_path_same_books in E|]. split; [done|].
    fold (proposed h c). by destruct (set_priority h1 _ _).
Qed.

Lemma propose_def_priority h c : _def_priority (propose h c) = _def_priority h.
Proof.
  destruct (accepted h c) eqn:Ha.
  - apply propose_accepted in Ha as (_ & h1 & (_ & _ & _ & Hd & _) & _ & ->).
    rewrite <-Hd.
    destruct (set_priority h1 _ _) as [e|h2] eqn:E; [done|].
    by apply set_priority_frame in E as (_ & -> & _).
  - by rewrite propose_rejected.
Qed.

(** One proposal: the priority of a tag becomes the float of the proposed
    one when the proposal is for that tag, is accepted and has a float;
    otherwise it stays. *)
Lemma propose_get_priority h c i :
  get_priority (propose h c) (Some i)
  = if accepted h c && bool_decide (mask <$> prop_index c = Some (mask i))
    then match float (proposed h c) with
         | inr p => p
         | inl _ => get_priority h (Some i)
         end
    else get_priority h (Some i).
Proof.
  destruct (accepted h c) eqn:Ha; simpl; [|by rewrite propose_rejected].
  apply propose_accepted in Ha as (Hle & h1 & (Hp & _) & Hres & ->).
  rewrite (set_priority_resolving _ _ _ Hres).
  destruct Hres as [r (j & Hj & Hr & _)%get_index_ref_Some].
  rewrite Hj. simpl.
  destruct (float (proposed h c)) as [e|f].
  { unfold get_priority. rewrite Hp. by case_bool_decide. }
  unfold get_priority. simpl. rewrite Hp.
  case_bool_decide as Hm.
  - injection Hm as Hm. by rewrite Hm, lookup_insert_eq.
  - rewrite lookup_insert_ne; [done|]. congruence.
Qed.

(** A stored priority that is a float stays one, and an accepted proposal
    does not lower it. *)
Lemma propose_is_float h c i :
  is_float (get_priority h (Some i)) →
  is_float (get_priority (propose h c) (Some i))
  ∧ get_priority (propose h c) (Some i)
    = if accepted h c && bool_decide (mask <$> prop_index c = Some (mask i))
      then match float (proposed h c) with
           | inr p => prio_max (get_priority h (Some i)) p
           | inl _ => get_priority h (Some i)
           end
      else get_priority h (Some i).
Proof.
  intros Hfl. rewrite propose_get_priority.
  destruct (accepted h c) eqn:Ha; simpl; [|done].
  case_bool_decide as Hm; [|done].
  destruct (float (proposed h c)) as [e|f] eqn:Hf; [done|].
  split; [by eapply float_idemp|].
  apply propose_accepted in Ha as (Hle & _).
  destruct (prop_index c) as [j|]; [|done]. injection Hm as Hm.
  assert (get_priority h (Some j) = get_priority h (Some i)) as Hsame.
  { unfold get_priority. by rewrite Hm. }
  rewrite Hsame in Hle. symmetry. apply prio_max_r.
  pose proof (float_mono _ _ _ _ Hfl Hf) as Hmono. unfold prio_leb in Hmono.
  rewrite Hle in Hmono. by apply negb_true_iff, Hmono.
Qed.

Lemma run_proposals_is_float h calls i :
  is_float (get_priority h (Some i)) →
  is_float (get_priority (run_proposals h calls) (Some i)).
Proof.
  revert h. induction calls as [|c calls IH]; intros h Hfl; [done|].
  change (run_proposals h (c :: calls)) with (run_proposals (propose h c) calls).
  apply IH. by apply propose_is_float.
Qed.

Lemma stored_for_priority h calls i :
  is_float (get_priority h (Some i)) →
  get_priority (run_proposals h calls) (Some i)
  = foldl prio_max (get_priority h (Some i)) (stored_for (mask i) h calls).
Proof.
  revert h. induction calls as [|c calls IH]; intros h Hfl; [done|].
  change (run_proposals h (c :: calls)) with (run_proposals (propose h c) calls).
  destruct (propose_is_float h c i Hfl) as [Hfl' Hp].
  rewrite (IH _ Hfl'), Hp.
  change (stored_for (mask i) h (c :: calls))
    with (if accepted h c && bool_decide (mask <$> prop_index c = Some (mask i))
          then match float (proposed h c) with
               | inr p => p :: stored_for (mask i) (propose h c) calls
               | inl _ => stored_for (mask i) (propose h c) calls
               end
          else stored_for (mask i) (propose h c) calls).
  destruct (accepted h c && bool_decide (mask <$> prop_index c = Some (mask i)));
    [|done].
  by destruct (float (proposed h c)).
Qed.

Lemma prio_max_ge a b : prio_leb a (prio_max a b) = true.
Proof.
  unfold prio_max, prio_leb. destruct (prio_ltb a b) eqn:H.
  - by rewrite (prio_ltb_asym _ _ H).
  - by rewrite prio_ltb_irrefl.
Qed.

Lemma foldl_prio_max_ge a l : prio_leb a (foldl prio_max a l) = true.
Proof.
  revert a. induction l as [|b l IH]; intros a; simpl; [apply prio_leb_refl|].
  eapply prio_leb_trans; [apply prio_max_ge|apply IH].
Qed.

(** C4, amended. For a tag whose stored priority is a float (as every
    priority stored by [set_priority] is; the constructor stores the default
    priority as it is given), over any sequence of [set_path_by_priority]
    calls, from any state: the stored priority after the sequence is the
    maximum of the initial priority and of the floats of the priorities of
    the proposals accepted for the tag (a proposal whose priority has no
    float raises and stores nothing), and it never decreases: after the
    whole run it is at least what it was after any part of it. *)
Theorem priority_monotonicity h before after i :
  is_float (get_priority h (Some i)) →
  get_priority (run_proposals h (before ++ after)) (Some i)
    = foldl prio_max (get_priority h (Some i))
        (stored_for (mask i) h (before ++ after))
  ∧ prio_leb (get_priority (run_proposals h before) (Some i))
             (get_priority (run_proposals h (before ++ after)) (Some i)) = true.
Proof.
  intros Hfl. split; [by apply stored_for_priority|].
  unfold run_proposals. rewrite foldl_app.
  fold (run_proposals h before).
  fold (run_proposals (run_proposals h before) after).
  rewrite (stored_for_priority (run_proposals h before) after)
    by (by apply run_proposals_is_float).
  apply foldl_prio_max_ge.
Qed.

(** *** Uniqueness of full paths *)

Lemma init_key r : lower (path r +:+ "." +:+ enum_name r) = full_path r.
Proof. unfold full_path. by rewrite !lower_app. Qed.

Lemma init_loop_path_map_other refs i h key :
  key ∉ full_path <$> refs →
  _path_map (init_loop refs i h) !! key = _path_map h !! key.
Proof.
  revert i h. induction refs as [|r refs IH]; intros i h Hnot; simpl; [done|].
  rewrite fmap_cons, not_elem_of_cons in Hnot. destruct Hnot as [Hne Hnot].
  rewrite IH by done. simpl. rewrite init_key. by apply lookup_insert_ne.
Qed.

Lemma init_loop_path_map refs i h pos r :
  NoDup (full_path <$> refs) → refs !! pos = Some r →
  _path_map (init_loop refs i h) !! full_path r = Some (i + Z.of_nat pos).
Proof.
  revert i h pos. induction refs as [|r0 refs IH]; intros i h pos Hnd Hpos; [done|].
  rewrite fmap_cons, NoDup_cons in Hnd. destruct Hnd as [Hnot Hnd].
  destruct pos as [|pos].
  - injection Hpos as ->. simpl. rewrite init_loop_path_map_other by done.
    simpl. rewrite init_key, Z.add_0_r. apply lookup_insert_eq.
  - replace (i + Z.of_nat (S pos)) with ((i + 1) + Z.of_nat pos) by lia.
    by apply IH.
Qed.

Lemma init_path_map_consistent refs dp pr pm perm :
  NoDup (full_path <$> refs) → path_map_consistent (__init__ refs dp pr pm perm).
Proof.
  intros Hnd pos r. unfold __init__. rewrite init_loop_index_map. simpl.
  intros Hpos. by rewrite (init_loop_path_map _ _ _ _ _ Hnd Hpos).
Qed.

Lemma set_path_path_map_consistent h index new_path_no_ext eu erp h' r :
  set_path h index new_path_no_ext eu erp = inr (h', r) →
  path_map_consistent h → path_map_consistent h'.
Proof.
  intros H Hinv.
  destruct (set_path_cases h index new_path_no_ext eu erp)
    as [[_ E]|(i & tag_ref & -> & Href & [E|(p & Hfree & Hlow & E)])];
    rewrite E in H; simplify_eq; [done|].
  apply get_index_ref_Some in Href as (? & [= <-] & Hr & Hl).
  intros pos r'. simpl.
  destruct (decide (pos = Z.to_nat (mask i))) as [->|Hne].
  - rewrite list_lookup_insert_eq by (by eapply lookup_lt_Some).
    intros [= <-]. unfold full_path. simpl. rewrite Hlow, lookup_insert_eq.
    by rewrite Z2Nat.id by apply mask_nonneg.
  - rewrite list_lookup_insert_ne by done. intros Hpos.
    pose proof (Hinv _ _ Hpos) as Hkey. pose proof (Hinv _ _ Hl) as Hold.
    rewrite lookup_insert_ne, lookup_delete_ne; [done| |].
    + fold (full_path tag_ref). intros Heq. rewrite Heq in Hold.
      rewrite Hkey in Hold. injection Hold as Hold. lia.
    + intros Heq. unfold path_taken in Hfree. rewrite Heq, Hkey in Hfree.
      apply negb_false_iff, Z.eqb_eq in Hfree. lia.
Qed.

Lemma step_path_map_consistent h h' :
  step h h' → path_map_consistent h → path_map_consistent h'.
Proof.
  destruct 1 as [h index np eu erp h' r H|h index np pr ov h' r H
                |h index np pr ov e h' H|h index p h' H|h index p h' H];
    intros Hinv.
  - by eapply set_path_path_map_consistent.
  - apply set_path_by_priority_cases in H as [->|(h1 & ? & H & H2 & _)]; [done|].
    apply set_path_path_map_consistent in H; [|done].
    intros pos r'.
    apply set_priority_tag_kinds in H2 as (_ & _ & -> & ->). apply H.
  - apply set_path_by_priority_raises in H as (_ & _ & np' & H & _).
    by eapply set_path_path_map_consistent.
  - intros pos r'.
    apply set_priority_tag_kinds in H as (_ & _ & -> & ->). apply Hinv.
  - intros pos r'.
    apply set_priority_min_tag_kinds in H as (_ & _ & -> & ->). apply Hinv.
Qed.

Lemma path_map_consistent_unique h : path_map_consistent h → unique_full_paths h.
Proof.
  intros Hinv i j ri rj Hi Hj Heq.
  pose proof (Hinv _ _ Hi) as H1. pose proof (Hinv _ _ Hj) as H2.
  rewrite Heq, H2 in H1. injection H1 as H1. lia.
Qed.

(** C1, amended. When the tag index handed to the constructor has pairwise
    distinct normalized full paths, every state reached by [set_path],
    [set_path_by_priority], [set_priority] and [set_priority_min] calls has
    them pairwise distinct as well: no two positions of the index carry the
    same lower-case path with the same class extension. *)
Theorem path_uniqueness refs dp pr pm perm h :
  NoDup (full_path <$> refs) →
  rtc step (__init__ refs dp pr pm perm) h →
  unique_full_paths h.
Proof.
  intros Hnd Hreach. apply path_map_consistent_unique.
  pose proof (init_path_map_consistent refs dp pr pm perm Hnd) as Hinit.
  induction Hreach; eauto using step_path_map_consistent.
Qed.

End handler_facts.

(** ** The walker *)

Section walker_facts.

Variable sanitize_win32_path : string → list string.
Variable recursive_rename_functions : string → option rename_func.

Local Abbreviation set_path_by_priority := (set_path_by_priority sanitize_win32_path).
Local Abbreviation heuristic_deprotect :=
  (heuristic_deprotect sanitize_win32_path recursive_rename_functions).
Local Abbreviation traversal :=
  (traverse sanitize_win32_path recursive_rename_functions).
Local Abbreviation run_policy := (run_policy sanitize_win32_path).

Lemma heuristic_deprotect_unfold fuel tid root_dir sub_dir name kw w :
  heuristic_deprotect (S fuel) (Some tid) root_dir sub_dir name kw w
  = if negb (in_index_range w.1 (mask tid)) then Some (w, inr INF)
    else if bool_decide (mask tid ∈ w.2)
            || prio_ltb (default INF (kw_depth kw)) (Fin 0)
    then Some (w, inr (get_priority_min w.1 (Some (mask tid))))
    else if skip_traversal kw (get_priority_min w.1 (Some (mask tid)))
    then Some (w, inr (get_priority_min w.1 (Some (mask tid))))
    else traversal (heuristic_deprotect fuel) (Some tid) (mask tid)
           root_dir sub_dir name kw w.
Proof. reflexivity. Qed.

(** C10. For an identity that is nil, or whose low 16 bits are not a
    position of the tag index, [set_path_by_priority] returns [-INF] and
    leaves the state as it is, while the walker returns [+INF], also
    without touching the state or the visited set. *)
Theorem unresolvable_identity h index new_path_no_ext priority override
    fuel root_dir sub_dir name kw seen :
  unresolvable h index →
  set_path_by_priority h index new_path_no_ext priority override = inr (h, NegInf)
  ∧ heuristic_deprotect (S fuel) index root_dir sub_dir name kw (h, seen)
      = Some ((h, seen), inr INF).
Proof.
  intros H. split; [by apply set_path_by_priority_unresolvable|].
  destruct index as [i|]; [|done]. simpl in *.
  unfold in_index_range. by rewrite bool_decide_eq_false_2.
Qed.

(** C5, amended. For a resolving tag that is not in the visited set, with
    depth left, [use_minimum_priorities] set and a proposed priority [p]:
    the walker returns the priority floor without traversal and without
    touching the state when the floor is strictly above [p], and when the
    floor equals [p] and both [use_minimum_equal_priorities] and
    [return_on_equal_min_priority] are set; in every other case, so whenever
    the floor is strictly below [p], it goes on to the traversal. *)
Theorem walker_priority_short_circuit fuel tag_id root_dir sub_dir name kw h seen p :
  let tag_index_id := mask tag_id in
  let floor := get_priority_min h (Some tag_index_id) in
  in_index_range h tag_index_id = true →
  tag_index_id ∉ seen →
  prio_ltb (default INF (kw_depth kw)) (Fin 0) = false →
  kw_use_minimum_priorities kw = true →
  kw_priority kw = Some p →
  heuristic_deprotect (S fuel) (Some tag_id) root_dir sub_dir name kw (h, seen)
  = if prio_ltb p floor
       || (prio_eqb floor p && kw_use_minimum_equal_priorities kw
           && kw_return_on_equal_min_priority kw)
    then Some ((h, seen), inr floor)
    else traversal (heuristic_deprotect fuel) (Some tag_id) tag_index_id
           root_dir sub_dir name kw (h, seen).
Proof.
  intros tag_index_id floor Hr Hseen Hdepth Hmin Hp.
  rewrite heuristic_deprotect_unfold. cbn [fst snd].
  fold tag_index_id. fold floor.
  rewrite Hr, Hdepth, (bool_decide_eq_false_2 _ Hseen).
  unfold skip_traversal, prio_eqb. rewrite Hp, Hmin.
  destruct (prio_ltb floor p) eqn:Hlt.
  - rewrite (prio_ltb_asym _ _ Hlt).
    rewrite bool_decide_eq_false_2; [reflexivity|].
    intros ->. by rewrite prio_ltb_irrefl in Hlt.
  - destruct (prio_ltb p floor) eqn:Hgt; [reflexivity|].
    rewrite bool_decide_eq_true_2 by (by apply prio_ltb_total).
    by destruct (kw_use_minimum_equal_priorities kw), (kw_return_on_equal_min_priority kw).
Qed.

(** *** Termination *)

Lemma elem_of_valid_ids h m : m ∈ valid_ids h ↔ in_index_range h m = true.
Proof.
  unfold valid_ids, in_index_range.
  rewrite elem_of_list_to_set, list_elem_of_fmap, bool_decide_eq_true.
  split.
  - intros (k & -> & Hk). apply elem_of_seq in Hk. lia.
  - intros H. exists (Z.to_nat m). split; [lia|]. apply elem_of_seq. lia.
Qed.

Lemma valid_ids_same h h' : tag_kinds h' = tag_kinds h → valid_ids h' = valid_ids h.
Proof. intros H. unfold valid_ids. by rewrite (tag_kinds_length _ _ H). Qed.

Lemma unseen_mono h h' seen seen' :
  tag_kinds h' = tag_kinds h → seen ⊆ seen' → (unseen h' seen' ≤ unseen h seen)%nat.
Proof.
  intros Hk Hs. unfold unseen. rewrite (valid_ids_same _ _ Hk).
  apply subseteq_size. solve_set.
Qed.

Lemma unseen_add h seen m :
  in_index_range h m = true → m ∉ seen →
  (unseen h ({[m]} ∪ seen) < unseen h seen)%nat.
Proof.
  intros Hr%elem_of_valid_ids Hm. unfold unseen.
  apply subset_size. split; [solve_set|].
  intros Hsub. specialize (Hsub m). revert Hsub. solve_set.
Qed.

Lemma set_path_by_priority_kinds h index np pr ov h' r :
  set_path_by_priority h index np pr ov = inr (h', r) → tag_kinds h' = tag_kinds h.
Proof.
  intros H.
  by destruct (step_kinds sanitize_win32_path h h'
                 (step_set_path_by_priority _ _ _ _ _ _ _ _ H)).
Qed.

Lemma set_path_by_priority_raises_kinds h index np pr ov e h' :
  set_path_by_priority h index np pr ov = inl (e, h') → tag_kinds h' = tag_kinds h.
Proof.
  intros H.
  by destruct (step_kinds sanitize_win32_path h h'
                 (step_set_path_by_priority_raises _ _ _ _ _ _ _ _ H)).
Qed.

Lemma run_policy_total (walk : walker) (h0 : TagPathHandler) (seen0 : gset Z) :
  (∀ tag_id root_dir sub_dir name kw w,
     tag_kinds w.1 = tag_kinds h0 → seen0 ⊆ w.2 →
     walk_ok w (walk tag_id root_dir sub_dir name kw w)) →
  ∀ p w acc,
    tag_kinds w.1 = tag_kinds h0 → seen0 ⊆ w.2 →
    ∃ w' acc', run_policy walk p w acc = Some (w', acc')
               ∧ w.2 ⊆ w'.2 ∧ tag_kinds w'.1 = tag_kinds w.1.
Proof.
  intros Hwalk. induction p as [| |k IH|index np pr ov k IH|tid rd sd nm kw k IH|v k IH];
    intros w acc Hk Hs; simpl.
  - by eexists _, _.
  - by eexists _, _.
  - by apply IH.
  - destruct (set_path_by_priority w.1 index np pr ov) as [[e h']|[h' r]] eqn:E.
    + pose proof (set_path_by_priority_raises_kinds _ _ _ _ _ _ _ E) as Hk'.
      destruct (IH (inl e) (h', w.2) acc) as (w' & acc' & -> & ? & Hk'');
        [simpl; congruence|done|].
      eexists _, _. split; [done|]. split; [done|].
      simpl in Hk''. congruence.
    + pose proof (set_path_by_priority_kinds _ _ _ _ _ _ _ E) as Hk'.
      destruct (IH (inr r) (h', w.2) acc) as (w' & acc' & -> & ? & Hk'');
        [simpl; congruence|done|].
      eexists _, _. split; [done|]. split; [done|].
      simpl in Hk''. congruence.
  - destruct (Hwalk tid rd sd nm kw w Hk Hs) as (w1 & r & -> & Hs1 & Hk1).
    destruct (IH r w1 acc) as (w' & acc' & -> & ? & Hk'');
      [congruence|solve_set|].
    eexists _, _. split; [done|]. split; [solve_set|congruence].
  - by apply IH.
Qed.

(** With more fuel than there are positions of the tag index outside the
    visited set, the walker returns, whatever the naming policies are. *)
Lemma heuristic_deprotect_total n :
  ∀ fuel tag_id root_dir sub_dir name kw w,
    (unseen w.1 w.2 ≤ n)%nat → (n < fuel)%nat →
    walk_ok w (heuristic_deprotect fuel tag_id root_dir sub_dir name kw w).
Proof.
  induction n as [n IH] using lt_wf_ind.
  intros fuel tag_id root_dir sub_dir name kw [h seen] Hn Hfuel.
  destruct fuel as [|fuel]; [lia|].
  destruct tag_id as [tid|]; [|by eexists _, _].
  rewrite heuristic_deprotect_unfold. cbn [fst snd] in *.
  destruct (in_index_range h (mask tid)) eqn:Hr; [|by eexists _, _].
  cbn [negb].
  destruct (bool_decide (mask tid ∈ seen)) eqn:Hseen; [by eexists _, _|].
  apply bool_decide_eq_false in Hseen.
  cbn [orb].
  destruct (prio_ltb _ (Fin 0)); [by eexists _, _|].
  destruct (skip_traversal _ _); [by eexists _, _|].
  pose proof (unseen_add h seen (mask tid) Hr Hseen) as Hlt.
  set (seen0 := {[mask tid]} ∪ seen) in *.
  assert (Hwalk : ∀ tag_id root_dir sub_dir name kw w,
            tag_kinds w.1 = tag_kinds h → seen0 ⊆ w.2 →
            walk_ok w (heuristic_deprotect fuel tag_id root_dir sub_dir name kw w)).
  { intros tag_id' rd sd nm kw' w Hk Hs.
    apply (IH (unseen h seen0)); [lia| |lia].
    by apply unseen_mono. }
  unfold traverse. cbn [fst snd]. fold seen0.
  destruct (match _index_map h !! Z.to_nat (mask tid) with
            | Some ref => recursive_rename_functions (enum_name ref)
            | None => None
            end) as [rename|].
  - destruct (run_policy_total _ h seen0 Hwalk
                (rename (Some tid) root_dir sub_dir name
                   (with_depth kw (prio_pred (default INF (kw_depth kw)))))
                (h, seen0) INF)
      as ([h' seen'] & acc & -> & Hs & Hk); [done|done|].
    cbn [fst snd] in *.
    case_bool_decide.
    + destruct (set_priority_min h' (Some (mask tid)) acc) as [e|h''] eqn:E.
      * eexists _, _. split; [done|]. cbn [fst snd]. split; [solve_set|done].
      * eexists _, _. split; [done|]. cbn [fst snd]. split; [solve_set|].
        apply set_priority_min_tag_kinds in E as [-> _]. done.
    + eexists _, _. split; [done|]. cbn [fst snd]. split; [solve_set|done].
  - cbn [kw_override with_depth].
    destruct (set_path_by_priority h (Some tid) (root_dir +:+ sub_dir +:+ name)
                (kw_priority kw) (kw_override kw)) as [[e h']|[h' r]] eqn:E.
    + pose proof (set_path_by_priority_raises_kinds _ _ _ _ _ _ _ E) as Hk.
      eexists _, _. split; [done|]. cbn [fst snd]. split; [solve_set|done].
    + pose proof (set_path_by_priority_kinds _ _ _ _ _ _ _ E) as Hk.
      rewrite bool_decide_eq_true_2 by solve_set.
      destruct (set_priority_min h' (Some (mask tid)) (prio_min r INF))
        as [e|h''] eqn:E2.
      * eexists _, _. split; [done|]. cbn [fst snd]. split; [solve_set|done].
      * eexists _, _. split; [done|]. cbn [fst snd]. split; [solve_set|].
        apply set_priority_min_tag_kinds in E2 as [-> _]. done.
Qed.

(** Every walk returns: for every start there is an amount of fuel from
    which on the walker gives a result. *)
Lemma heuristic_deprotect_terminates tag_id root_dir sub_dir name kw w :
  ∃ n, ∀ fuel, (n < fuel)%nat →
    is_Some (heuristic_deprotect fuel tag_id root_dir sub_dir name kw w).
Proof.
  exists (unseen w.1 w.2). intros fuel Hfuel.
  destruct (heuristic_deprotect_total _ fuel tag_id root_dir sub_dir name kw w
              (le_n _) Hfuel) as (w' & r & -> & _). eauto.
Qed.

End walker_facts.

(** *** A cycle of two tag collections *)






(** The state [renamed] describes. *)
Lemma renamed_kinds h i r name p :
  get_index_ref h (Some i) = Some r →
  tag_kinds (renamed h i r name p) = tag_kinds h.
Proof.
  intros (? & [= <-] & _ & Hl)%get_index_ref_Some.
  unfold tag_kinds. simpl. rewrite list_fmap_insert. simpl.
  apply list_insert_id. by rewrite list_lookup_fmap, Hl.
Qed.

Lemma renamed_get_index_ref h i r name p j :
  get_index_ref h (Some i) = Some r →
  get_index_ref (renamed h i r name p) (Some j)
  = if bool_decide (mask j = mask i) then Some (with_path r name)
    else get_index_ref h (Some j).
Proof.
  intros Href. pose proof (renamed_kinds h i r name p Href) as Hk.
  apply get_index_ref_Some in Href as (? & [= <-] & Hr & Hl).
  unfold get_index_ref. rewrite (in_index_range_same _ _ _ Hk). simpl.
  case_bool_decide as Hm.
  - rewrite Hm, Hr. apply list_lookup_insert_eq. by eapply lookup_lt_Some.
  - destruct (in_index_range h (mask j)); [|done].
    apply list_lookup_insert_ne.
    pose proof (mask_nonneg i). pose proof (mask_nonneg j). lia.
Qed.




Section cycle.

Variable sanitize_win32_path : string → list string.
Variable recursive_rename_functions : string → option rename_func.
Variable tag_references : option Z → option (list (option Z)).
Variable LOW_PRIORITY : Priority.

Local Abbreviation set_path := (set_path sanitize_win32_path).
Local Abbreviation set_path_by_priority := (set_path_by_priority sanitize_win32_path).
Local Abbreviation requested_name := (requested_name sanitize_win32_path).
Local Abbreviation rename_tagc := (rename_tagc tag_references LOW_PRIORITY).
Local Abbreviation heuristic_deprotect :=
  (heuristic_deprotect sanitize_win32_path recursive_rename_functions).
Local Abbreviation run_policy := (run_policy sanitize_win32_path).

Lemma set_path_accept_shape h i r new_path_no_ext erp :
  get_index_ref h (Some i) = Some r →
  ∃ p,
    lower p = p ∧
    set_path h (Some i) new_path_no_ext true erp
    = inr (with_index_map
             (with_path_map h
                (<[p +:+ "." +:+ lower (enum_name r) := mask i]>
                   (delete (full_path r) (_path_map h))))
             (<[Z.to_nat (mask i) := with_path r p]> (_index_map h)),
           Some (p +:+ "." +:+ lower (enum_name r))).
Proof.
  intros Href.
  destruct (set_path_cases sanitize_win32_path h (Some i) new_path_no_ext true erp)
    as [[E _]|(j & r' & [= <-] & Href' & [E|(p & _ & Hlow & E)])].
  - congruence.
  - destruct (set_path_unique_ok sanitize_win32_path h (Some i) new_path_no_ext erp)
      as [? E']. congruence.
  - assert (r' = r) as -> by congruence. eauto.
Qed.

(** An accepted proposal for a name that is free: the state it leaves is
    [renamed], with the float of the priority. *)
Lemma propose_free h i tag_ref new_path_no_ext p f override :
  get_index_ref h (Some i) = Some tag_ref →
  rejected h (Some i) tag_ref p override = false →
  free_for h i tag_ref (requested_name h i new_path_no_ext) →
  float p = inr f →
  set_path_by_priority h (Some i) new_path_no_ext (Some p) override
  = inr (renamed h i tag_ref (requested_name h i new_path_no_ext) f, p).
Proof.
  intros Href Hrej Hfree Hf.
  destruct (set_path_by_priority_accepts sanitize_win32_path h (Some i) tag_ref
              new_path_no_ext (Some p) override Href Hrej)
    as (h1 & np & E & Hres & ->).
  rewrite (set_path_free sanitize_win32_path h i tag_ref new_path_no_ext true
             Href Hfree) in E.
  injection E as <- _.
  rewrite (set_priority_resolving _ _ _ Hres). simpl. by rewrite Hf.
Qed.

(** The same proposal when its priority has no float: the call raises
    with the name in place and the books as they were. *)
Lemma propose_overflow h i tag_ref new_path_no_ext p override :
  get_index_ref h (Some i) = Some tag_ref →
  rejected h (Some i) tag_ref p override = false →
  free_for h i tag_ref (requested_name h i new_path_no_ext) →
  float p = inl OverflowError →
  ∃ h1,
    set_path_by_priority h (Some i) new_path_no_ext (Some p) override
      = inl (OverflowError, h1)
    ∧ get_index_ref h1 (Some i)
      = Some (with_path tag_ref (requested_name h i new_path_no_ext))
    ∧ same_books h h1.
Proof.
  intros Href Hrej Hfree Hf.
  destruct (set_path_by_priority_accepts sanitize_win32_path h (Some i) tag_ref
              new_path_no_ext (Some p) override Href Hrej)
    as (h1 & np & E & Hres & ->).
  exists h1. rewrite (set_priority_resolving _ _ _ Hres). simpl. rewrite Hf.
  split; [done|]. split; [|by apply set_path_same_books in E].
  rewrite (set_path_free sanitize_win32_path h i tag_ref new_path_no_ext true
             Href Hfree) in E.
  injection E as <- _.
  pose proof Href as (? & [= <-] & Hr & Hl)%get_index_ref_Some.
  unfold get_index_ref, in_index_range. simpl. rewrite length_insert.
  fold (in_index_range h (mask i)). rewrite Hr.
  apply list_lookup_insert_eq. by eapply lookup_lt_Some.
Qed.




End cycle.

(** ** The compactor *)

Section compactor_facts.

Variable sanitize_win32_path : string → list string.

Local Abbreviation build_paths := (build_paths sanitize_win32_path).
Local Abbreviation entry_trips := (entry_trips sanitize_win32_path).
Local Abbreviation files_cleanly := (files_cleanly sanitize_win32_path).

Lemma check_entry_trips h max_len tag_path index r :
  check_entry sanitize_win32_path h max_len tag_path index = inr r →
  r = None ↔ entry_trips max_len (tag_path, index) = true.
Proof.
  unfold check_entry, entry_trips. simpl.
  destruct (with_suffix _ "") as [e|ns]; simpl; [done|].
  destruct (_ >? max_len); intros [= <-]; split; done.
Qed.

Lemma build_paths_cons h max_len tag_path index items heap :
  build_paths h max_len ((tag_path, index) :: items) heap
  = (checked ← check_entry sanitize_win32_path h max_len tag_path index;
     match checked with
     | None => mret TooNested
     | Some (tag_path_pieces, index) =>
         '(curr_dir, heap) ←
           enter_dirs (removelast tag_path_pieces) (VDict 0) heap;
         tag_ref ←
           match index with
           | None => mret VNone
           | Some index =>
               match list_position (length (_index_map h)) index with
               | None => raise IndexError
               | Some pos => mret (VTag pos)
               end
           end;
         name ←
           match last tag_path_pieces with
           | None => raise IndexError
           | Some name => mret name
           end;
         heap ← assign_leaf name tag_ref curr_dir heap;
         build_paths h max_len items heap
     end).
Proof. reflexivity. Qed.

(** The first loop ends in the nesting check exactly when it meets an entry
    that trips the bound, unless it raises before. *)
Lemma build_paths_nested h max_len items heap r :
  build_paths h max_len items heap = inr r →
  r = TooNested ↔ existsb (entry_trips max_len) items = true.
Proof.
  revert heap. induction items as [|[tag_path index] items IH]; intros heap.
  - intros [= <-]. split; done.
  - rewrite build_paths_cons.
    destruct (check_entry sanitize_win32_path h max_len tag_path index)
      as [e|checked] eqn:Hc; [done|].
    pose proof (check_entry_trips _ _ _ _ _ Hc) as Htrip.
    cbn [existsb]. destruct checked as [[pieces idx]|]; simpl.
    + assert (entry_trips max_len (tag_path, index) = false) as ->.
      { destruct (entry_trips max_len (tag_path, index)); [|done].
        by destruct Htrip as [_ Ht]; specialize (Ht eq_refl). }
      simpl.
      destruct (enter_dirs _ _ heap) as [e|[curr_dir heap1]]; simpl; [done|].
      destruct (match idx with | Some _ => _ | None => _ end) as [e|tag]; simpl; [done|].
      destruct (match last pieces with | Some _ => _ | None => _ end) as [e|nm]; simpl; [done|].
      destruct (assign_leaf nm tag curr_dir heap1) as [e|heap2]; simpl; [done|].
      apply IH.
    + intros [= <-]. destruct Htrip as [Ht _]. by rewrite (Ht eq_refl).
Qed.

Lemma err_too_nested_head max_len : ∃ s, err_too_nested max_len = String "T" s.
Proof. by eexists. Qed.

Lemma with_suffix_other max_len ps sfx e :
  with_suffix ps sfx = inl e → other_error max_len e.
Proof.
  unfold with_suffix. destruct (String.eqb _ ""); [|done].
  intros [= <-]. unfold other_error.
  destruct (err_too_nested_head max_len) as [s ->]. by intros [=].
Qed.

Lemma enter_dirs_other max_len dirs curr_dir heap e :
  enter_dirs dirs curr_dir heap = inl e → other_error max_len e.
Proof.
  revert curr_dir heap. induction dirs as [|d dirs IH]; intros curr_dir heap; simpl; [done|].
  destruct curr_dir as [| |loc]; try by intros [= <-].
  destruct (dict_get d (deref heap loc)); apply IH.
Qed.

Lemma build_paths_other h max_len items heap e :
  build_paths h max_len items heap = inl e → other_error max_len e.
Proof.
  revert heap. induction items as [|[tag_path index] items IH]; intros heap; [done|].
  rewrite build_paths_cons.
  destruct (check_entry sanitize_win32_path h max_len tag_path index)
    as [e'|checked] eqn:Hc; simpl.
  { intros [= <-]. unfold check_entry in Hc.
    destruct (with_suffix _ "") as [e0|ns] eqn:Hw; simpl in Hc.
    - injection Hc as <-. by eapply with_suffix_other.
    - by destruct (_ >? max_len). }
  destruct checked as [[pieces idx]|]; simpl; [|done].
  destruct (enter_dirs _ _ heap) as [e0|[curr_dir heap1]] eqn:Hd; simpl.
  { intros [= <-]. by eapply enter_dirs_other. }
  destruct idx as [idx|]; simpl.
  - destruct (list_position _ idx); simpl; [|by intros [= <-]].
    destruct (last pieces); simpl; [|by intros [= <-]].
    destruct curr_dir; simpl; try by intros [= <-]. apply IH.
  - destruct (last pieces); simpl; [|by intros [= <-]].
    destruct curr_dir; simpl; try by intros [= <-]. apply IH.
Qed.

Lemma shorten_scan_other max_len names fr stack heap e :
  shorten_scan names fr stack heap = inl e → other_error max_len e.
Proof.
  revert fr stack heap. induction names as [|name names IH]; intros fr stack heap; simpl; [done|].
  destruct (dict_get name _) as [[| |loc]|]; [| | |by intros [= <-]].
  - destruct (splitext name) as [base ext].
    destruct (negb _); [|apply IH].
    destruct (f_curr_new_paths fr); try by intros [= <-]. apply IH.
  - destruct (splitext name) as [base ext].
    destruct (negb _); [|apply IH].
    destruct (f_curr_new_paths fr); try by intros [= <-]. apply IH.
  - destruct (negb (is_empty _)); [|apply IH].
    destruct (f_curr_new_paths fr); try by intros [= <-].
    destruct (negb _); [|done]. by destruct (dict_get _ _).
Qed.

Lemma shorten_loop_other max_len fuel fr stack heap e :
  shorten_loop fuel fr stack heap = Some (inl e) → other_error max_len e.
Proof.
  revert fr stack heap. induction fuel as [|fuel IH]; intros fr stack heap; simpl; [done|].
  destruct (shorten_scan _ fr stack heap) as [e0|[[fr' stack'] heap']] eqn:Hs.
  { intros [= <-]. by eapply shorten_scan_other. }
  destruct (negb _); [apply IH|].
  destruct stack' as [|top stack']; [done|].
  destruct (existsb _ _); [by intros [= <-]|apply IH].
Qed.

Lemma apply_scan_other max_len h dp names pp cp stack heap renamed e :
  apply_scan h dp names pp cp stack heap renamed = inl e → other_error max_len e.
Proof.
  revert heap renamed. induction names as [|name names IH]; intros heap renamed; simpl; [done|].
  destruct (dict_get name _) as [[|pos|loc]|]; [| | |by intros [= <-]].
  - apply IH.
  - destruct (_index_map h !! pos) as [ref|]; [|by intros [= <-]].
    destruct (indexed ref); [apply IH|].
    destruct (with_suffix _ _) as [e0|ntp] eqn:Hw; simpl.
    + intros [= <-]. by eapply with_suffix_other.
    + destruct dp; [by intros [= <-]|apply IH].
  - by destruct (negb _).
Qed.

Lemma apply_loop_other max_len fuel h dp pp cp stack heap renamed e :
  apply_loop fuel h dp pp cp stack heap renamed = Some (inl e) →
  other_error max_len e.
Proof.
  revert pp cp stack heap renamed.
  induction fuel as [|fuel IH]; intros pp cp stack heap renamed; simpl; [done|].
  destruct (apply_scan _ _ _ _ _ _ _ _) as [e0|[[[[pp' cp'] stack'] heap'] renamed']] eqn:Hs.
  { intros [= <-]. by eapply apply_scan_other. }
  destruct (is_empty _); [|apply IH].
  destruct stack' as [|[pp'' cp''] stack']; [done|apply IH].
Qed.

Lemma remake_path_map_other ml refs i renamed max_len dp pm ws e :
  remake_path_map refs i renamed max_len dp pm ws = inl e → other_error ml e.
Proof.
  revert i pm ws. induction refs as [|ref refs IH]; intros i pm ws; simpl; [done|].
  destruct (renamed !! i); [by intros [= <-]|apply IH].
Qed.

(** C8, amended. Provided building the trie raises nothing (every path
    read has a file name and none runs through the file name of another,
    which raises [AttributeError] or [TypeError] before the check is
    reached): if some entry of the path map has (segments - 1) * 4 above the
    budget, [shorten_paths] stops in its first loop, before anything of the
    handler is modified: it raises [ValueError] with the nesting message
    when [print_errors] is off, and prints that message and returns
    normally, with nothing shortened, when [print_errors] is on. If no entry
    trips the bound, the call neither raises that error nor prints it. *)
Theorem nesting_depth_check fuel h items max_len do_printout print_errors :
  files_cleanly h max_len items →
  if existsb (entry_trips max_len) items
  then shorten_paths sanitize_win32_path fuel h items max_len do_printout print_errors
       = Some (if print_errors then Reported (err_too_nested max_len)
               else Raised (ValueError (err_too_nested max_len)))
  else ∀ err_str,
         shorten_paths sanitize_win32_path fuel h items max_len do_printout print_errors
           ≠ Some (Reported err_str)
         ∧ shorten_paths sanitize_win32_path fuel h items max_len do_printout print_errors
           ≠ Some (Raised (ValueError (err_too_nested max_len))).
Proof.
  intros Hclean. unfold shorten_paths.
  destruct (build_paths h max_len items [[]; []]) as [e|r] eqn:Hb.
  { by destruct (Hclean e). }
  pose proof (build_paths_nested _ _ _ _ _ Hb) as Hn.
  destruct (existsb (entry_trips max_len) items).
  - destruct Hn as [_ Hn]. rewrite (Hn eq_refl). by destruct print_errors.
  - destruct r as [|heap]; [by destruct Hn as [Hn _]; specialize (Hn eq_refl)|].
    intros err_str.
    destruct (shorten_loop fuel _ [] heap) as [[e|heap1]|] eqn:H1; [| |done].
    { split; [done|]. intros [= ->]. by eapply shorten_loop_other. }
    destruct (apply_loop fuel h do_printout [] 1 [] heap1 ∅) as [[e|renamed]|] eqn:H2;
      [| |done].
    { split; [done|]. intros [= ->]. by eapply apply_loop_other. }
    destruct (remake_path_map _ 0 renamed max_len do_printout ∅ [])
      as [e|[pm ws]] eqn:H3.
    { split; [done|]. intros [= ->]. by eapply remake_path_map_other. }
    done.
Qed.



End compactor_facts.

(** * Concrete runs *)

(** C1, as stated, fails at construction: a tag index in which two tags of
    the same class carry the same path gives a reachable state in which two
    identities have the same normalized full path. *)
Lemma path_uniqueness_counterexample :
  ∃ h,
    rtc (step sanitize_plain)
      (__init__ [TagRef "a" "bitmap" false; TagRef "a" "bitmap" false]
         (Fin 0) ∅ ∅ ∅) h
    ∧ ¬ unique_full_paths h.
Proof.
  eexists. split; [apply rtc_refl|].
  intros H. specialize (H 0%nat 1%nat _ _ eq_refl eq_refl eq_refl). done.
Qed.

Lemma path_uniqueness_witness :
  let h0 := __init__ [TagRef "a" "bitmap" false; TagRef "b" "bitmap" false]
              (Fin 0) ∅ ∅ ∅ in
  let h := state_after h0 (set_path sanitize_plain h0 (Some 1) "a" true false) in
  get_path h (Some 1) = "a #1" ∧ unique_full_paths h.
Proof.
  intros h0 h. split; [reflexivity|].
  apply (path_uniqueness sanitize_plain
           [TagRef "a" "bitmap" false; TagRef "b" "bitmap" false]
           (Fin 0) ∅ ∅ ∅).
  - apply (bool_decide_unpack _). vm_compute. exact I.
  - eapply rtc_l; [|apply rtc_refl].
    apply (step_set_path sanitize_plain h0 (Some 1) "a" true false h
             (Some "a #1.bitmap")).
    vm_compute. reflexivity.
Defined.



Lemma pinned_entry_protection_witness :
  let h := __init__ [TagRef "x\a" "bitmap" true] (Fin 0) ∅ ∅ ∅ in
  set_path_by_priority sanitize_plain h (Some 0) "y\b" (Some (Fin 5)) true
    = inr (h, get_priority h (Some 0)).
Proof.
  intros h.
  apply (pinned_entry_protection sanitize_plain
           [TagRef "x\a" "bitmap" true] (Fin 0) ∅ ∅ ∅ h (Some 0)
           (TagRef "x\a" "bitmap" true)).
  - apply rtc_refl.
  - reflexivity.
  - reflexivity.
Defined.

(** C3, as stated, fails on the code: the protection of a pinned tag is the
    overwritable flag the constructor clears, and [set_overwritable] sets it
    again. After [set_overwritable(0, True)] a proposal with [override]
    renames the pinned tag, at priority [INF] as at any priority that is
    not below the recorded one. *)
Lemma pinned_entry_protection_counterexample :
  let h := set_overwritable
             (__init__ [TagRef "x\a" "bitmap" true] (Fin 0) ∅ ∅ ∅) (Some 0) true in
  let h' := propose sanitize_plain h (Proposal (Some 0) "y\b" (Some INF) true) in
  get_index_ref h (Some 0) = Some (TagRef "x\a" "bitmap" true)
  ∧ set_path_by_priority sanitize_plain h (Some 0) "y\b" (Some INF) true
    = inr (h', INF)
  ∧ get_index_ref h' (Some 0) = Some (TagRef "y\b" "bitmap" true).
Proof. repeat split; vm_compute; reflexivity. Qed.

(** C4, as stated, fails on the code: the constructor stores the default
    priority as it is given and [set_priority] stores a float. With the
    default priority 2^53 + 1, a proposal at the default priority with
    [override] is accepted and lowers the priority of the tag to 2^53. *)
Lemma priority_monotonicity_counterexample :
  let h := __init__ [TagRef "x\a" "bitmap" false] (Fin (2 ^ 53 + 1)) ∅ ∅ ∅ in
  let c := Proposal (Some 0) "x\b" None true in
  let h' := run_proposals sanitize_plain h [c] in
  get_priority h (Some 0) = Fin (2 ^ 53 + 1)
  ∧ accepted h c = true
  ∧ get_path h' (Some 0) = "x\b"
  ∧ get_priority h' (Some 0) = Fin (2 ^ 53)
  ∧ prio_ltb (get_priority h' (Some 0)) (get_priority h (Some 0)) = true.
Proof. repeat split; vm_compute; reflexivity. Qed.

Lemma priority_monotonicity_witness :
  let h := __init__ [TagRef "" "bitmap" false] (Fin 0) ∅ ∅ ∅ in
  let before := [Proposal (Some 0) "x\b" (Some (Fin 2)) false] in
  let after := [Proposal (Some 0) "x\c" (Some (Fin 1)) false;
                Proposal (Some 0) "x\d" (Some (Fin (2 ^ 53 + 1))) false] in
  get_priority (run_proposals sanitize_plain h (before ++ after)) (Some 0)
    = foldl prio_max (Fin 0) [Fin 2; Fin (2 ^ 53)]
  ∧ prio_leb (get_priority (run_proposals sanitize_plain h before) (Some 0))
             (get_priority (run_proposals sanitize_plain h (before ++ after)) (Some 0))
    = true.
Proof.
  intros h before after.
  destruct (priority_monotonicity sanitize_plain h before after 0) as [H1 H2].
  { reflexivity. }
  split; [|exact H2]. rewrite H1. vm_compute. reflexivity.
Defined.

(** A tag at priority [-INF] takes a proposal at priority 1 and then
    refuses one at priority 0. *)
Example accept_then_reject :
  let h := __init__ [TagRef "" "bitmap" false] NegInf ∅ ∅ ∅ in
  let h' := run_proposals sanitize_plain h
              [Proposal (Some 0) "x\b" (Some (Fin 1)) false;
               Proposal (Some 0) "x\c" (Some (Fin 0)) false] in
  get_path h' (Some 0) = "x\b" ∧ get_priority h' (Some 0) = Fin 1.
Proof. split; vm_compute; reflexivity. Qed.

(** A name that another tag of the same class holds: [set_path] gives the
    next free numbered name, and raises when told not to look for one. *)
Example set_path_collision :
  let h := __init__ [TagRef "a" "bitmap" false; TagRef "b" "bitmap" false]
             (Fin 0) ∅ ∅ ∅ in
  (∃ h', set_path sanitize_plain h (Some 1) "a" true false
           = inr (h', Some "a #1.bitmap"))
  ∧ set_path sanitize_plain h (Some 1) "a" false false = inl KeyError.
Proof. split; [eexists|]; vm_compute; reflexivity. Qed.

(** C9 fails on the code: for a tag at [a\b\c] and the root [a], where the
    directory part shares its first component with the root, [get_sub_dir]
    raises [AttributeError] instead of returning the rest of the directory
    part. *)
Theorem get_sub_dir_shared_prefix_raises :
  get_sub_dir (__init__ [TagRef "a\b\c" "bitmap" false] (Fin 0) ∅ ∅ ∅)
    (Some 0) "a" = inl AttributeError.
Proof. reflexivity. Qed.

(** Without a shared first component the sub-directory is returned. *)
Example get_sub_dir_no_shared_prefix :
  get_sub_dir (__init__ [TagRef "a\b\c" "bitmap" false] (Fin 0) ∅ ∅ ∅)
    (Some 0) "" = inr "a\b\".
Proof. reflexivity. Qed.

Lemma unresolvable_identity_witness :
  let h := __init__ [TagRef "x\a" "bitmap" false] (Fin 0) ∅ ∅ ∅ in
  let kw := Kwargs None false false false false None in
  set_path_by_priority sanitize_plain h (Some 5) "x\b" (Some (Fin 1)) true
    = inr (h, NegInf)
  ∧ heuristic_deprotect sanitize_plain (λ _, None) 1 (Some 5) "" "x\" "b" kw (h, ∅)
      = Some ((h, ∅), inr INF).
Proof.
  intros h kw.
  apply (unresolvable_identity sanitize_plain (λ _, None) h (Some 5)).
  intros [_ H]. vm_compute in H. discriminate H.
Defined.

(** C5, as stated, fails on the code: with [use_minimum_priorities] and
    [return_on_equal_min_priority] set, a proposal equal to the priority
    floor of the tag, and [use_minimum_equal_priorities] not set, the walker
    does not return early: it traverses, and here renames the tag. *)
Lemma walker_equal_priority_counterexample :
  let h := __init__ [TagRef "x\a" "bitmap" false] (Fin 0) ∅ ∅ ∅ in
  let kw := Kwargs (Some (Fin 0)) true false true true None in
  get_priority_min h (Some 0) = Fin 0
  ∧ get_path h (Some 0) = "x\a"
  ∧ ∃ h', heuristic_deprotect sanitize_plain (λ _, None) 1 (Some 0) "" "x\" "b"
            kw (h, ∅) = Some ((h', ∅), inr (Fin 0))
          ∧ get_path h' (Some 0) = "x\b".
Proof.
  intros h kw. split; [reflexivity|]. split; [reflexivity|].
  eexists. split; [vm_compute; reflexivity|reflexivity].
Qed.

Lemma walker_priority_short_circuit_witness :
  let h0 := __init__ [TagRef "x\a" "bitmap" false] (Fin 0) ∅ ∅ ∅ in
  let h := after h0 (set_priority_min h0 (Some 0) (Fin 2)) in
  let kw := Kwargs (Some (Fin 1)) true false true false None in
  heuristic_deprotect sanitize_plain (λ _, None) 1 (Some 0) "" "x\" "b" kw (h, ∅)
    = Some ((h, ∅), inr (Fin 2)).
Proof.
  intros h0 h kw.
  apply (walker_priority_short_circuit sanitize_plain (λ _, None) 0 0 "" "x\" "b"
           kw h ∅ (Fin 1)).
  - reflexivity.
  - solve_set.
  - reflexivity.
  - reflexivity.
  - reflexivity.
Defined.



(** The same walk, run. *)
Example cycle_run :
  let h := __init__ [TagRef "" "tag_collection" false;
                     TagRef "" "tag_collection" false] (Fin 0) ∅ ∅ ∅ in
  let references := λ tag_id : option Z,
    match tag_id with
    | Some 0 => Some [Some 1]
    | Some 1 => Some [Some 0]
    | _ => None
    end in
  let kw := Kwargs None false false false false None in
  ∃ h' seen',
    heuristic_deprotect sanitize_plain (tag_collections_only references (Fin 1))
      3 (Some 0) "" "ui\" "shell" kw (h, ∅) = Some ((h', seen'), inr (Fin 0))
    ∧ get_path h' (Some 0) = "ui\shell"
    ∧ get_path h' (Some 1) = "ui\shell\protected_1"
    ∧ elements seen' = [].
Proof.
  intros h references kw. eexists _, _. split; [vm_compute; reflexivity|].
  repeat split; vm_compute; reflexivity.
Qed.



(** A name that its parent directory folds to nothing is scheduled for
    re-parenting, and re-parenting raises [AttributeError]. *)
Example shorten_paths_reparent_raises :
  let h := __init__ [TagRef "levels\test\test" "scenario" false] (Fin 0) ∅ ∅ ∅ in
  shorten_paths sanitize_plain 10 h [("levels\test\test.scenario", 0)] 12
    false false = Some (Raised AttributeError).
Proof. vm_compute. reflexivity. Qed.

Lemma nesting_depth_check_witness :
  let h := __init__ [TagRef "weapons\pistol\pistol_barrel" "gbxmodel" false]
             (Fin 0) ∅ ∅ ∅ in
  shorten_paths sanitize_plain 10 h [("weapons\pistol\pistol_barrel.gbxmodel", 0)]
    5 false true = Some (Reported (err_too_nested 5)).
Proof.
  intros h.
  apply (nesting_depth_check sanitize_plain 10 h
           [("weapons\pistol\pistol_barrel.gbxmodel", 0)] 5 false true).
  intros e H. vm_compute in H. discriminate H.
Defined.

(** With the reporting flag off the same call raises. *)
Example nesting_depth_check_raises :
  let h := __init__ [TagRef "weapons\pistol\pistol_barrel" "gbxmodel" false]
             (Fin 0) ∅ ∅ ∅ in
  shorten_paths sanitize_plain 10 h [("weapons\pistol\pistol_barrel.gbxmodel", 0)]
    5 false false = Some (Raised (ValueError (err_too_nested 5))).
Proof. vm_compute. reflexivity. Qed.

(** C8, as stated, fails on the code: the check is made entry by entry
    while the trie is built, and filing an earlier entry can raise first.
    Here the second path runs through the file name of the first, so
    [setdefault] returns the leaf and the item assignment raises
    [TypeError]; the third path, which trips the bound, is never looked at,
    and the call raises with [print_errors] on as well. *)
Lemma nesting_depth_check_counterexample :
  let h := __init__ [TagRef "a" "bitmap" false; TagRef "a.bitmap\b" "bitmap" false;
                     TagRef "c\d\e\f" "bitmap" false] (Fin 0) ∅ ∅ ∅ in
  let items := [("a.bitmap", 0); ("a.bitmap\b.bitmap", 1); ("c\d\e\f.bitmap", 2)] in
  _path_map h = list_to_map items
  ∧ existsb (entry_trips sanitize_plain 5) items = true
  ∧ shorten_paths sanitize_plain 10 h items 5 false false = Some (Raised TypeError)
  ∧ shorten_paths sanitize_plain 10 h items 5 false true = Some (Raised TypeError).
Proof. repeat split; vm_compute; reflexivity. Qed.

(** A tag that is renamed gets a path object for a path, and making the
    path map again then raises [TypeError]. *)
Example shorten_paths_rename_raises :
  let h := __init__ [TagRef "weapons\pistol\pistol_barrel" "gbxmodel" false]
             (Fin 0) ∅ ∅ ∅ in
  shorten_paths sanitize_plain 10 h [("weapons\pistol\pistol_barrel.gbxmodel", 0)]
    20 false false = Some (Raised TypeError).
Proof. vm_compute. reflexivity. Qed.

(** * Further properties of the handler *)

(** ** Identities *)

Lemma mask_salt (i k : Z) : mask (i + k * 65536) = mask i.
Proof.
  unfold mask. change 65535 with (Z.ones 16).
  rewrite !Z.land_ones by lia. change (2 ^ 16) with 65536.
  apply Z_mod_plus_full.
Qed.

Lemma get_priority_mask h i : get_priority h (Some (mask i)) = get_priority h (Some i).
Proof. unfold get_priority. by rewrite mask_idemp. Qed.

Lemma get_priority_min_mask h i :
  get_priority_min h (Some (mask i)) = get_priority_min h (Some i).
Proof. unfold get_priority_min. by rewrite mask_idemp. Qed.

Lemma get_overwritable_mask h i :
  get_overwritable h (Some (mask i)) = get_overwritable h (Some i).
Proof. unfold get_overwritable. by rewrite mask_idemp. Qed.

Lemma set_priority_mask h i p :
  set_priority h (Some (mask i)) p = set_priority h (Some i) p.
Proof. unfold set_priority. by rewrite mask_idemp. Qed.

Lemma get_will_overwrite_mask h i p ov :
  get_will_overwrite h (Some (mask i)) p ov = get_will_overwrite h (Some i) p ov.
Proof.
  unfold get_will_overwrite.
  by rewrite get_overwritable_mask, get_priority_mask, get_index_ref_mask.
Qed.

Section identity_facts.

Variable sanitize_win32_path : string → list string.

Local Abbreviation set_path := (set_path sanitize_win32_path).
Local Abbreviation set_path_by_priority := (set_path_by_priority sanitize_win32_path).

Lemma set_path_mask h i np eu erp :
  set_path h (Some (mask i)) np eu erp = set_path h (Some i) np eu erp.
Proof. unfold set_path. by rewrite mask_idemp. Qed.

Lemma set_path_by_priority_mask h i np p ov :
  set_path_by_priority h (Some (mask i)) np p ov
  = set_path_by_priority h (Some i) np p ov.
Proof.
  rewrite !set_path_by_priority_unfold.
  rewrite get_index_ref_mask, get_will_overwrite_mask, get_priority_mask,
    set_path_mask.
  set (sp := set_path h (Some i) np true true). clearbody sp.
  destruct (get_index_ref h (Some i)); [|done].
  destruct (get_will_overwrite h (Some i) _ ov) as [e|[]]; simpl; [done| |done].
  destruct sp as [e|[h' r]]; simpl; [done|].
  by rewrite mask_idemp.
Qed.

(** X1. Only the low 16 bits of an identity count: an identity and the same
    identity with any multiple of 65536 added (another salt in the high
    bits, or a negative number) read the same entry, priority, floor and
    overwritable flag, and [set_path], [set_path_by_priority] and
    [set_priority] do the same with both. *)
Theorem identity_low_bits h i k new_path_no_ext eu erp priority override p :
  let j := i + k * 65536 in
  get_index_ref h (Some j) = get_index_ref h (Some i)
  ∧ get_priority h (Some j) = get_priority h (Some i)
  ∧ get_priority_min h (Some j) = get_priority_min h (Some i)
  ∧ get_overwritable h (Some j) = get_overwritable h (Some i)
  ∧ set_path h (Some j) new_path_no_ext eu erp
    = set_path h (Some i) new_path_no_ext eu erp
  ∧ set_path_by_priority h (Some j) new_path_no_ext priority override
    = set_path_by_priority h (Some i) new_path_no_ext priority override
  ∧ set_priority h (Some j) p = set_priority h (Some i) p.
Proof.
  intros j. pose proof (mask_salt i k) as Hm. fold j in Hm.
  rewrite <-(get_index_ref_mask h j), <-(get_priority_mask h j),
    <-(get_priority_min_mask h j), <-(get_overwritable_mask h j),
    <-(set_path_mask h j), <-(set_path_by_priority_mask h j),
    <-(set_priority_mask h j), Hm.
  by rewrite get_index_ref_mask, get_priority_mask, get_priority_min_mask,
    get_overwritable_mask, set_path_mask, set_path_by_priority_mask,
    set_priority_mask.
Qed.

End identity_facts.

(** ** The state after construction *)

Lemma init_loop_tables_out refs i h k :
  k < i ∨ i + Z.of_nat (length refs) ≤ k →
  _priorities (init_loop refs i h) !! k = _priorities h !! k
  ∧ _priority_mins (init_loop refs i h) !! k = _priority_mins h !! k
  ∧ _overwritables (init_loop refs i h) !! k = _overwritables h !! k.
Proof.
  revert i h. induction refs as [|r refs IH]; intros i h Hk; simpl; [done|].
  simpl in Hk. destruct (IH (i + 1) (init_entry h i r)) as (-> & -> & ->); [lia|].
  simpl. rewrite !lookup_insert_ne by lia. done.
Qed.

Lemma init_loop_priority_mins refs i h pos r :
  refs !! pos = Some r →
  _priority_mins (init_loop refs i h) !! (i + Z.of_nat pos)
    = Some (if indexed r then INF else _def_priority h).
Proof.
  revert i h pos. induction refs as [|r0 refs IH]; intros i h pos Hpos; [done|].
  destruct pos as [|pos]; simpl in *.
  - injection Hpos as ->. change (Z.of_nat 0) with 0. rewrite Z.add_0_r.
    destruct (init_loop_tables_out refs (i + 1) (init_entry h i r) i)
      as (_ & -> & _); [lia|].
    simpl. apply lookup_insert_eq.
  - replace (i + Z.of_nat (S pos)) with ((i + 1) + Z.of_nat pos) by lia.
    by rewrite (IH _ _ _ Hpos).
Qed.

(** X2. The constructor books every entry of the tag index afresh, whatever
    tables of priorities and floors it is handed: a pinned entry gets
    priority and floor [INF] and is not overwritable, any other entry gets
    the default priority as priority and floor and is overwritable. The
    tables handed in only show through at identities that do not resolve. *)
Theorem constructor_books refs dp pr pm perm i :
  let h := __init__ refs dp pr pm perm in
  match get_index_ref h (Some i) with
  | Some r =>
      get_priority h (Some i) = (if indexed r then INF else dp)
      ∧ get_priority_min h (Some i) = (if indexed r then INF else dp)
      ∧ get_overwritable h (Some i) = negb (indexed r)
  | None =>
      get_priority h (Some i) = default NegInf (pr !! mask i)
      ∧ get_priority_min h (Some i) = default INF (pm !! mask i)
      ∧ get_overwritable h (Some i) = false
  end.
Proof.
  intros h.
  assert (Hidx : _index_map h = refs).
  { unfold h, __init__. by rewrite init_loop_index_map. }
  destruct (get_index_ref h (Some i)) as [r|] eqn:Href.
  - apply get_index_ref_Some in Href as (? & [= <-] & Hr & Hl).
    rewrite Hidx in Hl.
    unfold get_priority, get_priority_min, get_overwritable, h, __init__.
    rewrite <-(Z2Nat.id (mask i)) by apply mask_nonneg.
    rewrite <-(Z.add_0_l (Z.of_nat _)).
    rewrite (init_loop_priorities _ _ _ _ _ Hl),
      (init_loop_priority_mins _ _ _ _ _ Hl),
      (init_loop_overwritables _ _ _ _ _ Hl).
    done.
  - assert (Hout : mask i < 0 ∨ 0 + Z.of_nat (length refs) ≤ mask i).
    { unfold get_index_ref in Href.
      destruct (in_index_range h (mask i)) eqn:Hr.
      - apply lookup_ge_None in Href.
        unfold in_index_range in Hr. apply bool_decide_eq_true in Hr. lia.
      - unfold in_index_range in Hr. apply bool_decide_eq_false in Hr.
        rewrite Hidx in Hr. lia. }
    unfold get_priority, get_priority_min, get_overwritable, h, __init__.
    destruct (init_loop_tables_out refs 0
                (Handler "" ∅ refs pr pm perm dp ∅) (mask i) Hout)
      as (-> & -> & ->).
    done.
Qed.

Lemma last_with_full_path_cons r refs key pos :
  last_with_full_path (r :: refs) key pos ↔
  (∃ pos', pos = S pos' ∧ last_with_full_path refs key pos')
  ∨ (pos = O ∧ full_path r = key ∧ key ∉ (full_path <$> refs)).
Proof.
  unfold last_with_full_path. split.
  - intros [(r0 & Hpos & Hkey) Hlast]. destruct pos as [|pos].
    + right. split; [done|]. simpl in Hpos. injection Hpos as <-.
      split; [done|].
      intros (r' & Heq & Hin)%list_elem_of_fmap.
      apply list_elem_of_lookup in Hin as [pos' Hin].
      specialize (Hlast (S pos') r' Hin (eq_sym Heq)). lia.
    + left. exists pos. split; [done|]. split; [by exists r0|].
      intros pos' r' Hin Heq. specialize (Hlast (S pos') r' Hin Heq). lia.
  - intros [(pos' & -> & (r0 & Hpos & Hkey) & Hlast)|(-> & Hkey & Hnot)].
    + split; [by exists r0|].
      intros [|pos''] r' Hin Heq; [lia|].
      specialize (Hlast pos'' r' Hin Heq). lia.
    + split; [by exists r|].
      intros [|pos'] r' Hin Heq; [lia|]. exfalso. apply Hnot.
      apply list_elem_of_fmap. exists r'. split; [done|].
      by eapply list_elem_of_lookup_2.
Qed.

Lemma init_loop_path_map_last refs i0 h key i :
  _path_map (init_loop refs i0 h) !! key = Some i ↔
  (∃ pos, i = i0 + Z.of_nat pos ∧ last_with_full_path refs key pos)
  ∨ (_path_map h !! key = Some i ∧ key ∉ (full_path <$> refs)).
Proof.
  revert i0 h. induction refs as [|r refs IH]; intros i0 h.
  - simpl. split; [intros H; right; split; [done|apply not_elem_of_nil]|].
    intros [(pos & _ & (r & Hr & _) & _)|[H _]]; [done|done].
  - simpl. rewrite IH. simpl. rewrite init_key. split.
    + intros [(pos & -> & Hlast)|[Hlook Hnot]].
      * left. exists (S pos). split; [lia|].
        apply last_with_full_path_cons. left. by exists pos.
      * destruct (decide (full_path r = key)) as [Heq|Hne].
        -- rewrite Heq, lookup_insert_eq in Hlook. injection Hlook as <-.
           left. exists O. split; [lia|].
           apply last_with_full_path_cons. right. done.
        -- rewrite lookup_insert_ne in Hlook by done. right.
           split; [done|]. apply not_elem_of_cons. done.
    + intros [(pos & -> & Hlast)|[Hlook Hnot]].
      * apply last_with_full_path_cons in Hlast
          as [(pos' & -> & Hlast)|(-> & Hkey & Hnot)].
        -- left. exists pos'. split; [lia|done].
        -- right. split; [|done]. rewrite Hkey, lookup_insert_eq.
           f_equal. lia.
      * apply not_elem_of_cons in Hnot as [Hne Hnot].
        right. split; [|done]. by rewrite lookup_insert_ne.
Qed.

(** X3. The path map the constructor builds: a normalized full path is a key
    exactly when some entry of the tag index has it, and it is filed under
    the position of the last such entry. Of two entries with the same full
    path the earlier one cannot be found by its name. *)
Theorem constructor_path_map refs dp pr pm perm key i :
  _path_map (__init__ refs dp pr pm perm) !! key = Some i
  ↔ ∃ pos, i = Z.of_nat pos ∧ last_with_full_path refs key pos.
Proof.
  unfold __init__. rewrite init_loop_path_map_last. simpl. split.
  - intros [(pos & -> & H)|[H _]]; [by exists pos|done].
  - intros (pos & -> & H). left. by exists pos.
Qed.

(** ** Setters *)

(** X4. [set_priority] and [set_priority_min] on an identity whose low bits
    are a position of the tag index store the float of the priority for
    that position and for no other: it is what the getter then reads at
    every identity with the same low bits, and the other identities read
    what they read before. When the priority has no float, both raise
    [OverflowError] and store nothing. [set_overwritable] stores its flag in
    the same way. On any other identity the three setters leave the
    handler as it is, whatever the priority is: nothing is converted,
    nothing is raised, and the tables never get an entry outside the tag
    index through them. *)
Theorem setters_respect_bounds h i j p b :
  if in_index_range h (mask i) then
    get_overwritable (set_overwritable h (Some i) b) (Some j)
      = (if bool_decide (mask j = mask i) then b else get_overwritable h (Some j))
    ∧ match float p with
      | inr f =>
          ∃ h1 h2,
            set_priority h (Some i) p = inr h1
            ∧ set_priority_min h (Some i) p = inr h2
            ∧ get_priority h1 (Some j)
              = (if bool_decide (mask j = mask i) then f else get_priority h (Some j))
            ∧ get_priority_min h2 (Some j)
              = (if bool_decide (mask j = mask i) then f
                 else get_priority_min h (Some j))
      | inl _ =>
          set_priority h (Some i) p = inl OverflowError
          ∧ set_priority_min h (Some i) p = inl OverflowError
      end
  else
    set_priority h (Some i) p = inr h
    ∧ set_priority_min h (Some i) p = inr h
    ∧ set_overwritable h (Some i) b = h.
Proof.
  unfold set_priority, set_priority_min, set_overwritable,
    get_priority, get_priority_min, get_overwritable.
  destruct (in_index_range h (mask i)); [|done]. simpl. split.
  { case_bool_decide as Hm.
    - by rewrite Hm, lookup_insert_eq.
    - by rewrite lookup_insert_ne. }
  destruct (float p) as [e|f] eqn:Hf; simpl.
  { by rewrite (float_raises _ _ Hf). }
  eexists _, _. split; [done|]. split; [done|]. simpl.
  case_bool_decide as Hm.
  - by rewrite Hm, !lookup_insert_eq.
  - by rewrite !lookup_insert_ne.
Qed.

(** ** Renaming *)

Lemma last_char_app_char s c : last_char (s +:+ String c "") = Some c.
Proof.
  induction s as [|d s IH]; [done|].
  rewrite string_app_cons. simpl. rewrite IH.
  destruct (s +:+ String c "") eqn:E; [|done].
  by destruct s.
Qed.

Section renaming_facts.

Variable sanitize_win32_path : string → list string.

Local Abbreviation set_path := (set_path sanitize_win32_path).
Local Abbreviation set_path_by_priority := (set_path_by_priority sanitize_win32_path).
Local Abbreviation step := (step sanitize_win32_path).
Local Abbreviation call := (call sanitize_win32_path).

Lemma set_path_renamed h i tag_ref new_path_no_ext eu erp h' new_path :
  get_index_ref h (Some i) = Some tag_ref →
  set_path h (Some i) new_path_no_ext eu erp = inr (h', Some new_path) →
  ∃ p, let ext := "." +:+ lower (enum_name tag_ref) in
    new_path = p +:+ ext
    ∧ lower p = p
    ∧ path_taken (_path_map h) (mask i) (p +:+ ext) = false
    ∧ h' = with_index_map
             (with_path_map h
                (<[p +:+ ext := mask i]>
                   (delete (lower (path tag_ref) +:+ ext) (_path_map h))))
             (<[Z.to_nat (mask i) := with_path tag_ref p]> (_index_map h)).
Proof.
  intros Href H.
  destruct (set_path_cases sanitize_win32_path h (Some i) new_path_no_ext eu erp)
    as [[E _]|(i' & r & [= <-] & Href' & [E|(p & Hfree & Hlow & E)])].
  - congruence.
  - congruence.
  - rewrite E in H. rewrite Href in Href'. injection Href' as <-.
    injection H as <- <-. by exists p.
Qed.

(** X5. What [set_path] returns is what the getters then read: the new full
    path is the path of the entry, which is in lower case, a dot and the
    class name in lower case; the path map has it under the position of the
    entry; the class is as before, and [get_full_tag_path], when it is not
    empty, is the new full path up to the case of the class name. The
    priorities, floors, overwritable flags, default priority, suffixed
    classes, root prefix and the classes and pins of all entries are
    untouched. *)
Theorem set_path_round_trip h i new_path_no_ext eu erp h' new_path :
  set_path h (Some i) new_path_no_ext eu erp = inr (h', Some new_path) →
  new_path = get_path h' (Some i) +:+ "." +:+ lower (get_ext h' (Some i))
  ∧ lower (get_path h' (Some i)) = get_path h' (Some i)
  ∧ get_ext h' (Some i) = get_ext h (Some i)
  ∧ _path_map h' !! new_path = Some (mask i)
  ∧ (get_full_tag_path h' (Some i) ≠ "" →
     lower (get_full_tag_path h' (Some i)) = new_path)
  ∧ same_books h h'.
Proof.
  intros H. pose proof (set_path_same_books _ _ _ _ _ _ _ _ H) as Hbooks.
  destruct (get_index_ref h (Some i)) as [tag_ref|] eqn:Href.
  2:{ destruct (set_path_cases sanitize_win32_path h (Some i) new_path_no_ext eu erp)
        as [[_ E]|(i' & r & _ & Href' & _)]; congruence. }
  destruct (set_path_renamed _ _ _ _ _ _ _ _ Href H) as (p & -> & Hlow & _ & ->).
  apply get_index_ref_Some in Href as (? & [= <-] & Hr & Hl).
  assert (Href' : get_index_ref
            (with_index_map
               (with_path_map h
                  (<[p +:+ "." +:+ lower (enum_name tag_ref) := mask i]>
                     (delete (lower (path tag_ref) +:+ "." +:+ lower (enum_name tag_ref))
                        (_path_map h))))
               (<[Z.to_nat (mask i) := with_path tag_ref p]> (_index_map h)))
            (Some i) = Some (with_path tag_ref p)).
  { unfold get_index_ref, in_index_range in *. simpl.
    rewrite length_insert, Hr.
    apply list_lookup_insert_eq. by eapply lookup_lt_Some. }
  unfold get_full_tag_path, get_path, get_ext.
  rewrite Href'. unfold get_index_ref. rewrite Hr, Hl. simpl.
  split; [done|]. split; [done|]. split; [done|].
  split; [apply lookup_insert_eq|]. split; [|done].
  destruct (negb (p =? "")%string && negb (enum_name tag_ref =? "")%string);
    [|done].
  intros _. by rewrite !lower_app, Hlow.
Qed.

(** X6. [set_path] touches one entry and at most two keys: every entry at
    another position is as before, the new full path is filed, the old
    full path of the entry is given up unless it is the new one, and every
    other key of the path map is as before. *)
Theorem set_path_frame h i tag_ref new_path_no_ext eu erp h' new_path :
  get_index_ref h (Some i) = Some tag_ref →
  set_path h (Some i) new_path_no_ext eu erp = inr (h', Some new_path) →
  (∀ j, mask j ≠ mask i → get_index_ref h' (Some j) = get_index_ref h (Some j))
  ∧ (∀ key, key ≠ new_path →
       _path_map h' !! key
       = if decide (key = full_path tag_ref) then None else _path_map h !! key).
Proof.
  intros Href H.
  destruct (set_path_renamed _ _ _ _ _ _ _ _ Href H) as (p & -> & Hlow & _ & ->).
  split.
  - intros j Hj. unfold get_index_ref, in_index_range. simpl.
    rewrite length_insert. destruct (bool_decide _); [|done].
    apply list_lookup_insert_ne.
    pose proof (mask_nonneg i). pose proof (mask_nonneg j). lia.
  - intros key Hkey. simpl. rewrite lookup_insert_ne by done.
    fold (full_path tag_ref). destruct (decide (key = full_path tag_ref)) as [->|Hne].
    + apply lookup_delete_eq.
    + by apply lookup_delete_ne.
Qed.

(** X7. [set_path] raises nothing but [KeyError], and only when it is called
    with [ensure_unique_name] off: the identity then resolves and some full
    path of the path map is held by another position. *)
Theorem set_path_raises_only_key_error h index new_path_no_ext eu erp e :
  set_path h index new_path_no_ext eu erp = inl e →
  e = KeyError ∧ eu = false
  ∧ ∃ i tag_ref key owner,
      index = Some i ∧ get_index_ref h index = Some tag_ref
      ∧ _path_map h !! key = Some owner ∧ owner ≠ mask i.
Proof.
  intros H.
  assert (He : e = KeyError).
  { destruct (set_path_cases sanitize_win32_path h index new_path_no_ext eu erp)
      as [[_ E]|(i & r & _ & _ & [E|(p & _ & _ & E)])]; congruence. }
  split; [done|]. split.
  { destruct eu; [|done].
    destruct (set_path_unique_ok sanitize_win32_path h index new_path_no_ext erp)
      as [r E]. congruence. }
  destruct index as [i|]; [|done].
  unfold set_path in H. rewrite get_index_ref_mask in H.
  destruct (get_index_ref h (Some i)) as [tag_ref|] eqn:Href; [|done].
  match type of H with
  | (if path_taken ?m ?ix ?key then _ else _) = _ =>
      destruct (path_taken m ix key) eqn:Htaken; [|done];
      exists i, tag_ref, key
  end.
  unfold path_taken in Htaken.
  destruct (_path_map h !! _) as [owner|] eqn:Hlook; [|done].
  exists owner. repeat split; try done.
  apply negb_true_iff, Z.eqb_neq in Htaken. done.
Qed.

(** X8. For a class among the permanently suffixed ones, the path [set_path]
    stores never ends in a digit, whatever was asked for and whatever the
    sanitizer returns. *)
Theorem perm_suffixed_path_has_no_digit_suffix h i tag_ref new_path_no_ext eu erp
    h' new_path :
  get_index_ref h (Some i) = Some tag_ref →
  lower (enum_name tag_ref) ∈ _perm_suffixed_tag_classes h →
  set_path h (Some i) new_path_no_ext eu erp = inr (h', Some new_path) →
  ends_with_digit (get_path h' (Some i)) = false.
Proof.
  intros Href Hperm H.
  unfold set_path in H. rewrite get_index_ref_mask, Href in H.
  rewrite (bool_decide_eq_false_2 (lower (enum_name tag_ref)
                                     ∉ _perm_suffixed_tag_classes h)) in H
    by (intros Hn; by apply Hn).
  cbn [negb andb] in H.
  match type of H with
  | (if path_taken ?m ?ix (?p +:+ ?ext) then _ else _) = _ =>
      destruct (path_taken m ix (p +:+ ext)); [done|];
      set (stored := p) in *
  end.
  injection H as <- _.
  assert (Hstored : ends_with_digit stored = false).
  { unfold stored.
    match goal with
    | |- ends_with_digit (if ?c then _ else _) = _ => destruct c eqn:Hc
    end.
    - unfold ends_with_digit. by rewrite last_char_app_char.
    - apply orb_false_iff in Hc as [Hc _]. exact Hc. }
  apply get_index_ref_Some in Href as (? & [= <-] & Hr & Hl).
  unfold get_path, get_index_ref, in_index_range in *. simpl.
  rewrite length_insert, Hr.
  rewrite list_lookup_insert_eq by (by eapply lookup_lt_Some). done.
Qed.

(** X9. A tag does not collide with itself: asking [set_path] for the path a
    tag already has, when that path is in the form [set_path] stores (the
    sanitizer, stripping and lower-casing leave it as it is, it is not
    empty, does not end in a backslash, and does not end in a digit if the
    class forbids that) and the path map has the tag under its full path,
    changes nothing and returns the full path, with or without
    [ensure_unique_name]; [ensure_root_prefixed] is off. *)
Theorem set_path_own_name h i tag_ref eu :
  get_index_ref h (Some i) = Some tag_ref →
  _path_map h !! full_path tag_ref = Some (mask i) →
  path tag_ref ≠ "" →
  ends_with_backslash (lower (path tag_ref)) = false →
  lower (strip (path_str (sanitize_win32_path (lower (path tag_ref))))) = path tag_ref →
  (lower (enum_name tag_ref) ∈ _perm_suffixed_tag_classes h →
   ends_with_digit (path tag_ref) = false) →
  set_path h (Some i) (path tag_ref) eu false = inr (h, Some (full_path tag_ref)).
Proof.
  intros Href Hkey Hne Hbs Hnorm Hdigit.
  assert (Hlow : lower (path tag_ref) = path tag_ref).
  { rewrite <-Hnorm. apply lower_idemp. }
  assert (Hne' : String.eqb (lower (path tag_ref)) "" = false).
  { apply String.eqb_neq. by rewrite Hlow. }
  assert (Hfull : path tag_ref +:+ "." +:+ lower (enum_name tag_ref) = full_path tag_ref).
  { unfold full_path. by rewrite Hlow. }
  unfold set_path. rewrite get_index_ref_mask, Href.
  cbn [andb negb]. rewrite Hne', Hbs. cbn [orb]. rewrite Hnorm, Hfull.
  assert (Htaken : path_taken (_path_map h) (mask i) (full_path tag_ref) = false).
  { unfold path_taken. rewrite Hkey. by rewrite Z.eqb_refl. }
  rewrite Htaken, andb_false_r.
  assert (Hsuffix : negb (bool_decide (lower (enum_name tag_ref)
                                         ∉ _perm_suffixed_tag_classes h))
                    && ends_with_digit (path tag_ref) = false).
  { case_bool_decide as Hperm; [done|]. simpl. by apply Hdigit. }
  rewrite Hsuffix. cbn [orb]. rewrite Hfull, Htaken.
  f_equal. f_equal.
  apply get_index_ref_Some in Href as (? & [= <-] & Hr & Hl).
  fold (full_path tag_ref).
  rewrite insert_delete_eq, insert_id by done.
  rewrite list_insert_id; [by destruct h|].
  rewrite Hl. by destruct tag_ref.
Qed.

(** ** Acceptance *)

(** X10. A higher bid never loses where a lower one wins: when
    [get_will_overwrite] accepts a proposal for a resolving tag, it accepts
    every proposal for it at the same or a higher priority, and setting
    [override] never turns an acceptance into a refusal. *)
Theorem get_will_overwrite_monotone h index p p' override override' :
  is_Some (get_index_ref h index) →
  get_will_overwrite h index (Some p) override = inr true →
  prio_leb p p' = true →
  (override = true → override' = true) →
  get_will_overwrite h index (Some p') override' = inr true.
Proof.
  intros [tag_ref Href] Hacc Hle Hov.
  rewrite (get_will_overwrite_rejected _ _ tag_ref) in * by done.
  injection Hacc as Hacc. f_equal.
  apply negb_true_iff in Hacc. apply negb_true_iff.
  unfold rejected in *. simpl in *.
  apply orb_false_iff in Hacc as [[Ho Hlt]%orb_false_iff Hpin].
  rewrite Ho. simpl.
  set (cur := get_priority h index) in *.
  unfold prio_leb in Hle. apply negb_true_iff in Hle.
  assert (Hlt' : prio_ltb p' cur = false).
  { destruct (prio_ltb p' cur) eqn:E; [|done]. exfalso.
    destruct (prio_ltb cur p) eqn:E2.
    - by rewrite (prio_ltb_trans _ _ _ E E2) in Hle.
    - pose proof (prio_ltb_total _ _ Hlt E2) as ->. congruence. }
  rewrite Hlt'. simpl.
  destruct override'; [by rewrite andb_false_r|].
  destruct override; [by specialize (Hov eq_refl)|].
  simpl in Hpin. rewrite andb_true_r in Hpin.
  apply orb_false_iff in Hpin as [Heq Hidx].
  rewrite Hidx, orb_false_r, andb_true_r.
  unfold prio_eqb in *. apply bool_decide_eq_false in Heq.
  apply bool_decide_eq_false. intros Hcur. rewrite Hcur in *.
  apply Heq. symmetry. by apply prio_ltb_total.
Qed.

(** ** The overwritable flag *)

Lemma get_index_ref_set_overwritable h index b j :
  get_index_ref (set_overwritable h index b) j = get_index_ref h j.
Proof.
  unfold set_overwritable. destruct index as [i|]; [|done].
  by destruct (in_index_range h (mask i)).
Qed.

Lemma get_priority_set_overwritable h index b j :
  get_priority (set_overwritable h index b) j = get_priority h j.
Proof.
  unfold set_overwritable. destruct index as [i|]; [|done].
  by destruct (in_index_range h (mask i)).
Qed.

Lemma get_overwritable_set_overwritable h index b :
  is_Some (get_index_ref h index) →
  get_overwritable (set_overwritable h index b) index = b.
Proof.
  intros [r (i & -> & Hr & _)%get_index_ref_Some].
  unfold set_overwritable, get_overwritable. rewrite Hr. simpl.
  by rewrite lookup_insert_eq.
Qed.

(** X11. Once [set_overwritable] has switched a tag off, [set_path_by_priority]
    turns every proposal for it down, whatever its priority and with or
    without [override]: it returns the recorded priority and changes
    nothing. *)
Theorem set_overwritable_false_blocks h index new_path_no_ext priority override :
  is_Some (get_index_ref h index) →
  set_path_by_priority (set_overwritable h index false) index new_path_no_ext
    priority override
  = inr (set_overwritable h index false, get_priority h index).
Proof.
  intros Href. pose proof Href as [tag_ref Htag].
  rewrite <-(get_priority_set_overwritable h index false index).
  apply (set_path_by_priority_rejects _ _ _ tag_ref).
  - by rewrite get_index_ref_set_overwritable.
  - unfold rejected. by rewrite get_overwritable_set_overwritable.
Qed.

(** X12. The pin alone does not protect an entry: once [set_overwritable] has
    switched a pinned tag on, a proposal whose priority is not below the
    recorded one is still turned down without [override], but with
    [override] it renames the tag: when the name asked for is free, the
    pinned tag gets that name, filed in the path map in place of its old
    one, and the float of the priority of the proposal. When that priority
    has no float the call raises [OverflowError], with the pinned tag
    renamed all the same. *)
Theorem override_renames_pinned_once_overwritable h i tag_ref new_path_no_ext p :
  let h1 := set_overwritable h (Some i) true in
  let name := requested_name sanitize_win32_path h1 i new_path_no_ext in
  get_index_ref h (Some i) = Some tag_ref →
  indexed tag_ref = true →
  prio_ltb p (get_priority h (Some i)) = false →
  free_for h1 i tag_ref name →
  set_path_by_priority h1 (Some i) new_path_no_ext (Some p) false
    = inr (h1, get_priority h (Some i))
  ∧ match float p with
    | inr f =>
        set_path_by_priority h1 (Some i) new_path_no_ext (Some p) true
          = inr (renamed h1 i tag_ref name f, p)
        ∧ get_index_ref (renamed h1 i tag_ref name f) (Some i)
          = Some (TagRef name (enum_name tag_ref) true)
    | inl _ =>
        ∃ h2,
          set_path_by_priority h1 (Some i) new_path_no_ext (Some p) true
            = inl (OverflowError, h2)
          ∧ get_index_ref h2 (Some i) = Some (TagRef name (enum_name tag_ref) true)
          ∧ get_priority h2 (Some i) = get_priority h (Some i)
    end.
Proof.
  intros h1 name Href Hpin Hprio Hfree.
  assert (Href1 : get_index_ref h1 (Some i) = Some tag_ref).
  { unfold h1. by rewrite get_index_ref_set_overwritable. }
  assert (Hgp : get_priority h1 (Some i) = get_priority h (Some i)).
  { apply get_priority_set_overwritable. }
  assert (Hrej : rejected h1 (Some i) tag_ref p true = false).
  { unfold rejected. rewrite Hgp, Hprio.
    unfold h1. rewrite get_overwritable_set_overwritable by (by rewrite Href).
    simpl. by rewrite andb_false_r. }
  split.
  - rewrite <-Hgp. apply (set_path_by_priority_rejects _ _ _ tag_ref); [done|].
    unfold rejected. rewrite Hpin. simpl. by rewrite !orb_true_r.
  - destruct (float p) as [e|f] eqn:Hf.
    + rewrite (float_raises _ _ Hf) in Hf.
      destruct (propose_overflow sanitize_win32_path h1 i tag_ref new_path_no_ext p
                  true Href1 Hrej Hfree Hf) as (h2 & E & Hi & Hb).
      exists h2. split; [done|]. split.
      * rewrite Hi. unfold with_path. by rewrite Hpin.
      * rewrite <-Hgp. unfold get_priority. by destruct Hb as (-> & _).
    + split.
      * by apply propose_free.
      * rewrite (renamed_get_index_ref _ _ _ _ _ _ Href1).
        rewrite bool_decide_eq_true_2 by done. unfold with_path. by rewrite Hpin.
Qed.

(** ** The path map mirrors the tag index *)

Lemma path_map_exact_consistent h : path_map_exact h → path_map_consistent h.
Proof. intros Hex pos r Hpos. apply Hex. by exists pos, r. Qed.

Lemma init_path_map_exact refs dp pr pm perm :
  NoDup (full_path <$> refs) → path_map_exact (__init__ refs dp pr pm perm).
Proof.
  intros Hnd key i. unfold __init__ at 2. rewrite init_loop_index_map. simpl.
  unfold __init__. rewrite init_loop_path_map_last. simpl. split.
  - intros [(pos & -> & (r & Hr & Hkey) & _)|[H _]]; [|done].
    by exists pos, r.
  - intros (pos & r & -> & Hr & Hkey). left. exists pos. split; [done|].
    split; [by exists r|].
    intros pos' r' Hr' Hkey'.
    assert (pos' = pos); [|lia].
    apply (NoDup_lookup _ _ _ key Hnd);
      rewrite list_lookup_fmap; [rewrite Hr'|rewrite Hr]; simpl; congruence.
Qed.

Lemma set_path_path_map_exact h index new_path_no_ext eu erp h' r :
  set_path h index new_path_no_ext eu erp = inr (h', r) →
  path_map_exact h → path_map_exact h'.
Proof.
  intros H Hex.
  destruct (set_path_cases sanitize_win32_path h index new_path_no_ext eu erp)
    as [[_ E]|(i & tag_ref & -> & Href & [E|(p & Hfree & Hlow & E)])];
    rewrite E in H; simplify_eq; [done|].
  apply get_index_ref_Some in Href as (? & [= <-] & Hr & Hl).
  set (at_i := Z.to_nat (mask i)) in *.
  assert (Hati : Z.of_nat at_i = mask i).
  { unfold at_i. apply Z2Nat.id, mask_nonneg. }
  assert (Hold : _path_map h !! full_path tag_ref = Some (mask i)).
  { apply Hex. by exists at_i, tag_ref. }
  assert (Hnew : full_path (with_path tag_ref p) = p +:+ "." +:+ lower (enum_name tag_ref)).
  { unfold full_path. simpl. by rewrite Hlow. }
  intros key j. simpl. fold (full_path tag_ref). split.
  - destruct (decide (key = p +:+ "." +:+ lower (enum_name tag_ref))) as [->|Hne].
    + rewrite lookup_insert_eq. intros [= <-].
      exists at_i, (with_path tag_ref p). split; [done|]. split; [|done].
      apply list_lookup_insert_eq. by eapply lookup_lt_Some.
    + rewrite lookup_insert_ne by done.
      destruct (decide (key = full_path tag_ref)) as [->|Hne'].
      { by rewrite lookup_delete_eq. }
      rewrite lookup_delete_ne by done.
      intros (pos & r & -> & Hpos & Hkey)%Hex.
      exists pos, r. split; [done|]. split; [|done].
      rewrite list_lookup_insert_ne; [done|]. intros <-. congruence.
  - intros (pos & r & -> & Hpos & Hkey).
    destruct (decide (pos = at_i)) as [->|Hne].
    + rewrite list_lookup_insert_eq in Hpos by (by eapply lookup_lt_Some).
      injection Hpos as <-. rewrite Hnew in Hkey. subst key.
      rewrite lookup_insert_eq. by rewrite Hati.
    + rewrite list_lookup_insert_ne in Hpos by done.
      assert (Hk : _path_map h !! key = Some (Z.of_nat pos)).
      { apply Hex. by exists pos, r. }
      rewrite lookup_insert_ne, lookup_delete_ne; [done| |].
      * intros Heq. rewrite Heq, Hk in Hold. injection Hold as Hold. lia.
      * intros Heq. unfold path_taken in Hfree. rewrite Heq, Hk in Hfree.
        apply negb_false_iff, Z.eqb_eq in Hfree. lia.
Qed.

Lemma path_map_exact_same h h' :
  _path_map h' = _path_map h → _index_map h' = _index_map h →
  path_map_exact h → path_map_exact h'.
Proof. unfold path_map_exact. by intros -> ->. Qed.

Lemma step_path_map_exact h h' : step h h' → path_map_exact h → path_map_exact h'.
Proof.
  destruct 1 as [h index np eu erp h' r H|h index np pr ov h' r H
                |h index np pr ov e h' H|h index p h' H|h index p h' H];
    intros Hex.
  - by eapply set_path_path_map_exact.
  - apply set_path_by_priority_cases in H as [->|(h1 & ? & H & H2 & _)]; [done|].
    apply set_path_path_map_exact in H; [|done].
    apply set_priority_tag_kinds in H2 as (_ & _ & Hi & Hp).
    by apply (path_map_exact_same h1).
  - apply set_path_by_priority_raises in H as (_ & _ & np' & H & _).
    by eapply set_path_path_map_exact.
  - apply set_priority_tag_kinds in H as (_ & _ & Hi & Hp).
    by apply (path_map_exact_same h).
  - apply set_priority_min_tag_kinds in H as (_ & _ & Hi & Hp).
    by apply (path_map_exact_same h).
Qed.

Lemma remake_path_map_init refs i renamed max_len do_printout pm ws pm' ws' h0 :
  remake_path_map refs i renamed max_len do_printout pm ws = inr (pm', ws') →
  _path_map h0 = pm →
  pm' = _path_map (init_loop refs (Z.of_nat i) h0).
Proof.
  revert i pm ws h0. induction refs as [|ref refs IH]; intros i pm ws h0; simpl.
  - by intros [= <- <-] <-.
  - destruct (renamed !! i); [done|]. intros H Hpm.
    replace (Z.of_nat i + 1) with (Z.of_nat (S i)) by lia.
    eapply IH; [exact H|]. simpl. by rewrite Hpm.
Qed.

Lemma shorten_paths_completed fuel h items max_len do_printout print_errors h' warnings :
  shorten_paths sanitize_win32_path fuel h items max_len do_printout print_errors
    = Some (Completed h' warnings) →
  h' = with_path_map h (_path_map h')
  ∧ _path_map h'
    = _path_map (__init__ (_index_map h) (_def_priority h) ∅ ∅ ∅).
Proof.
  unfold shorten_paths.
  destruct (build_paths _ h max_len items [[]; []]) as [e|[|heap]]; [done| |].
  { by destruct print_errors. }
  destruct (shorten_loop fuel _ [] heap) as [[e|heap1]|]; [done| |done].
  destruct (apply_loop fuel h do_printout [] 1 [] heap1 ∅) as [[e|renamed]|];
    [done| |done].
  destruct (remake_path_map _ 0 renamed max_len do_printout ∅ [])
    as [e|[pm ws]] eqn:H3; [done|].
  intros [= <- <-]. split; [done|]. simpl.
  by apply (remake_path_map_init _ _ _ _ _ _ _ _ _
              (Handler "" ∅ (_index_map h) ∅ ∅ ∅ (_def_priority h) ∅)) in H3.
Qed.

(** X13. A [shorten_paths] that runs to completion leaves the handler as it
    was except for the path map, which it builds anew from the tag index
    just as the constructor does: every normalized full path of an entry is
    a key, filed under the position of the last entry that has it, and
    there is no other key. *)
Theorem shorten_paths_rebuilds_path_map fuel h items max_len do_printout
    print_errors h' warnings :
  shorten_paths sanitize_win32_path fuel h items max_len do_printout print_errors
    = Some (Completed h' warnings) →
  h' = with_path_map h (_path_map h')
  ∧ ∀ key i,
      _path_map h' !! key = Some i
      ↔ ∃ pos, i = Z.of_nat pos ∧ last_with_full_path (_index_map h) key pos.
Proof.
  intros [Hh Hpm]%shorten_paths_completed. split; [done|].
  intros key i. rewrite Hpm. unfold __init__.
  rewrite init_loop_path_map_last. simpl. split.
  - intros [(pos & -> & H)|[H _]]; [by exists pos|done].
  - intros (pos & -> & H). left. by exists pos.
Qed.

Lemma call_path_map_exact h h' : call h h' → path_map_exact h → path_map_exact h'.
Proof.
  destruct 1 as [h h' H|h index b|h classes|h value|fuel h items ml dp pe h' ws H];
    intros Hex.
  - by eapply step_path_map_exact.
  - apply (path_map_exact_same h); [| |done];
      unfold set_overwritable; destruct index as [i|]; try done;
      by destruct (in_index_range h (mask i)).
  - by apply (path_map_exact_same h).
  - by apply (path_map_exact_same h).
  - apply shorten_paths_completed in H as [Hh Hpm].
    assert (Hnd : NoDup (full_path <$> _index_map h)).
    { apply NoDup_alt. intros a b x.
      rewrite !list_lookup_fmap.
      destruct (_index_map h !! a) as [ra|] eqn:Ha; [|done].
      destruct (_index_map h !! b) as [rb|] eqn:Hb; [|done].
      simpl. intros [= Hka] [= Hkb].
      apply (path_map_consistent_unique h (path_map_exact_consistent h Hex)
               a b ra rb Ha Hb). congruence. }
    pose proof (init_path_map_exact (_index_map h) (_def_priority h) ∅ ∅ ∅ Hnd)
      as Hinit.
    intros key i. rewrite Hpm, Hh. simpl.
    rewrite (Hinit key i). unfold __init__. by rewrite init_loop_index_map.
Qed.

(** X14. From a tag index whose entries have pairwise distinct normalized full
    paths, every state reached by calls of the methods that change the
    handler has a path map that mirrors the tag index exactly: a key is
    filed under a position exactly when the entry there has that full path.
    So looking up the full path of any tag gives its position, and a name
    that a tag has given up is free again. *)
Theorem path_map_mirrors_index refs dp pr pm perm h :
  NoDup (full_path <$> refs) →
  rtc call (__init__ refs dp pr pm perm) h →
  path_map_exact h.
Proof.
  intros Hnd Hreach.
  pose proof (init_path_map_exact refs dp pr pm perm Hnd) as Hinit.
  induction Hreach; eauto using call_path_map_exact.
Qed.

End renaming_facts.

(** ** Paths *)

Lemma split_by_no_char p s : Forall (λ w, no_char p w = true) (split_by p s).
Proof.
  induction s as [|c s IH]; simpl; [by constructor|].
  destruct (p c) eqn:Hc; [by constructor|].
  destruct (split_by p s) as [|w ws]; [by constructor; [simpl; rewrite Hc|]|].
  inversion IH as [|? ? Hw Hws]; subst.
  constructor; [|done]. simpl. by rewrite Hc.
Qed.

Lemma split_by_id p w : no_char p w = true → split_by p w = [w].
Proof.
  induction w as [|c w IH]; simpl; [done|].
  destruct (p c); [done|]. simpl. intros H. by rewrite IH.
Qed.

Lemma is_clean_not_root w : is_clean w = true → String.eqb w root_part = false.
Proof.
  unfold is_clean, root_part. intros [Hn _]%andb_true_iff.
  apply String.eqb_neq. intros ->. done.
Qed.

Lemma parts_clean_component w : is_clean w = true → parts w = [w].
Proof.
  unfold is_clean. intros [Hn Hc]%andb_true_iff.
  unfold parts. rewrite (split_by_id _ _ Hn). simpl. rewrite Hc.
  destruct w as [|c w]; [done|]. simpl in Hn.
  by destruct (is_sep c).
Qed.

Lemma parts_relative_clean s :
  is_relative s = true → Forall (λ w, is_clean w = true) (parts s).
Proof.
  intros Hrel.
  assert (Hcomps : Forall (λ w, is_clean w = true)
                     (List.filter is_component (split_by is_sep s))).
  { apply Forall_forall. intros w Hin%list_elem_of_In%filter_In.
    destruct Hin as [Hin%list_elem_of_In Hcomp].
    pose proof (split_by_no_char is_sep s) as Hall.
    rewrite Forall_forall in Hall. unfold is_clean.
    by rewrite (Hall w Hin), Hcomp. }
  unfold parts. destruct s as [|c s]; [done|].
  simpl in Hrel. by destruct (is_sep c).
Qed.

Lemma foldl_join_piece_clean acc ws :
  Forall (λ w, is_clean w = true) ws → foldl join_piece acc ws = acc ++ ws.
Proof.
  revert acc. induction ws as [|w ws IH]; intros acc Hall; simpl.
  - by rewrite app_nil_r.
  - inversion Hall as [|? ? Hw Hws]; subst.
    unfold join_piece at 2. rewrite (parts_clean_component _ Hw).
    rewrite (is_clean_not_root _ Hw), (IH _ Hws), <-app_assoc. done.
Qed.

Lemma join_snoc sep ws w :
  ws ≠ [] → join sep (ws ++ [w]) = join sep ws +:+ sep +:+ w.
Proof.
  induction ws as [|x ws IH]; [done|]. intros _.
  destruct ws as [|y ws]; [done|].
  change (join sep ((x :: y :: ws) ++ [w]))
    with (x +:+ sep +:+ join sep ((y :: ws) ++ [w])).
  rewrite IH by done.
  change (join sep (x :: y :: ws)) with (x +:+ sep +:+ join sep (y :: ws)).
  by rewrite !string_app_assoc.
Qed.

Lemma path_str_relative ws :
  ws ≠ [] → Forall (λ w, is_clean w = true) ws → path_str ws = join "\" ws.
Proof.
  destruct ws as [|r rest]; [done|]. intros _ Hall.
  inversion Hall as [|? ? Hr _]; subst.
  unfold path_str. by rewrite (is_clean_not_root _ Hr).
Qed.

Lemma path_name_relative ws w :
  is_clean w = true → path_name (ws ++ [w]) = w.
Proof.
  intros Hw. unfold path_name.
  destruct ws as [|x ws]; simpl.
  - by rewrite (is_clean_not_root _ Hw).
  - destruct (ws ++ [w]) as [|y l] eqn:E; [by destruct ws|].
    rewrite <-E. change (x :: ws ++ [w]) with ((x :: ws) ++ [w]).
    by rewrite last_snoc.
Qed.

(** X15. Whenever [get_sub_dir] returns, it returns the whole directory part of
    the path of the tag, whatever [root] is: for a relative path without a
    drive, the result followed by [get_basename] is the path with its
    components joined by backslashes. No leading directory is ever taken
    off on account of [root]. *)
Theorem get_sub_dir_returns_whole_directory h index root tag_ref d :
  get_index_ref h index = Some tag_ref →
  is_relative (path tag_ref) = true →
  char_in ":" (path tag_ref) = false →
  get_sub_dir h index root = inr d →
  d +:+ get_basename h index = join "\" (parts (path tag_ref)).
Proof.
  intros Href Hrel _ Hd.
  pose proof (parts_relative_clean _ Hrel) as Hclean.
  unfold get_sub_dir, get_basename in *. rewrite Href in *.
  destruct (parts (path tag_ref)) as [|x ps] eqn:Hparts using rev_ind.
  { simpl in Hd. by injection Hd as <-. }
  clear IHps. rewrite removelast_last in Hd.
  apply Forall_app in Hclean as [Hps Hx].
  inversion Hx as [|? ? Hx' _]; subst.
  rewrite (path_name_relative _ _ Hx').
  assert (Hdirs : ps ≠ [] →
            path_str (PureWindowsPath ps) +:+ "\" +:+ x = join "\" (ps ++ [x])).
  { intros Hne. unfold PureWindowsPath.
    rewrite (foldl_join_piece_clean [] ps Hps). simpl.
    rewrite (path_str_relative _ Hne Hps). by rewrite join_snoc. }
  destruct ps as [|p ps].
  - simpl in Hd. by injection Hd as <-.
  - destruct (parts root) as [|r root_dirs].
    + injection Hd as <-. rewrite string_app_assoc. by apply Hdirs.
    + destruct (String.eqb p r); [done|].
      injection Hd as <-. rewrite string_app_assoc. by apply Hdirs.
Qed.

(** ** The root directory prefix *)

Lemma rev_string_onto_app s acc :
  rev_string_onto s acc = rev_string_onto s "" +:+ acc.
Proof.
  revert acc. induction s as [|c s IH]; intros acc; simpl; [done|].
  rewrite (IH (String c acc)), (IH (String c "")).
  by rewrite string_app_assoc.
Qed.

Lemma rev_string_cons c s : rev_string (String c s) = rev_string s +:+ String c "".
Proof. unfold rev_string. simpl. apply rev_string_onto_app. Qed.

Lemma last_char_app s t : t ≠ "" → last_char (s +:+ t) = last_char t.
Proof.
  intros Ht. induction s as [|c s IH]; [done|].
  rewrite string_app_cons. simpl. rewrite IH.
  destruct (s +:+ t) eqn:E; [|done].
  destruct s; [|done]. simpl in E. by subst.
Qed.

Lemma last_char_lower s : last_char (lower s) = lower_ascii <$> last_char s.
Proof.
  induction s as [|c s IH]; [done|]. simpl. rewrite IH.
  by destruct s.
Qed.

Lemma lower_ascii_is_sep c : is_sep (lower_ascii c) = is_sep c.
Proof.
  destruct c as [[] [] [] [] [] [] [] []]; reflexivity.
Qed.

Lemma lower_lstrip p s : lower s = s → lower (lstrip p s) = lstrip p s.
Proof.
  induction s as [|c s IH]; [done|]. simpl. intros [= Hc Hs].
  destruct (p c); [by apply IH|]. simpl. by rewrite Hc, Hs.
Qed.

Lemma lower_rev_string s : lower (rev_string s) = rev_string (lower s).
Proof.
  induction s as [|c s IH]; [done|]. simpl lower.
  by rewrite !rev_string_cons, lower_app, IH.
Qed.

Lemma lower_rstrip p s : lower s = s → lower (rstrip p s) = rstrip p s.
Proof.
  intros Hs. unfold rstrip. rewrite lower_rev_string. f_equal.
  apply lower_lstrip. by rewrite lower_rev_string, Hs.
Qed.

Lemma lstrip_head p s c t : lstrip p s = String c t → p c = false.
Proof.
  induction s as [|d s IH]; [done|]. simpl.
  destruct (p d) eqn:Hd; [done|]. by intros [= <- _].
Qed.

(** What [rstrip] leaves does not end in a character of the class. *)
Lemma rstrip_last p s c : last_char (rstrip p s) = Some c → p c = false.
Proof.
  unfold rstrip. destruct (lstrip p (rev_string s)) as [|d t] eqn:E; [done|].
  rewrite rev_string_cons, last_char_app by done. intros [= <-].
  by eapply lstrip_head.
Qed.

(** A string that does not end in a character of the class is left as it
    is. *)
Lemma rstrip_id p s c : last_char s = Some c → p c = false → rstrip p s = s.
Proof.
  intros Hlast Hc.
  assert (Hrev : ∀ u, rev_string (rev_string u) = u).
  { induction u as [|d u IH]; [done|].
    rewrite rev_string_cons.
    assert (Hsnoc : ∀ v e, rev_string (v +:+ String e "") = String e (rev_string v)).
    { induction v as [|f v IHv]; intros e; [done|].
      rewrite string_app_cons, !rev_string_cons, IHv. done. }
    by rewrite Hsnoc, IH. }
  assert (Hhead : ∃ t, rev_string s = String c t).
  { clear Hc. revert c Hlast. induction s as [|d s IH]; intros c Hlast; [done|].
    rewrite rev_string_cons. destruct s as [|e s].
    - injection Hlast as <-. by exists "".
    - destruct (IH c Hlast) as [t ->]. by eexists. }
  destruct Hhead as [t Ht]. unfold rstrip. rewrite Ht. simpl. rewrite Hc.
  by rewrite <-Ht, Hrev.
Qed.

Lemma is_clean_last w :
  is_clean w = true → ∃ c, last_char w = Some c ∧ is_sep c = false.
Proof.
  unfold is_clean. intros [Hn Hc]%andb_true_iff.
  destruct w as [|d w]; [done|]. clear Hc.
  revert d Hn. induction w as [|e w IH]; intros d Hn; simpl in *.
  - exists d. split; [done|]. by destruct (is_sep d).
  - apply andb_true_iff in Hn as [_ Hn]. by apply IH.
Qed.

Lemma parts_shape s :
  ∃ comps, Forall (λ w, is_clean w = true) comps
           ∧ (parts s = comps ∨ parts s = root_part :: comps).
Proof.
  exists (List.filter is_component (split_by is_sep s)). split.
  - apply Forall_forall. intros w Hin%list_elem_of_In%filter_In.
    destruct Hin as [Hin%list_elem_of_In Hcomp].
    pose proof (split_by_no_char is_sep s) as Hall.
    rewrite Forall_forall in Hall. unfold is_clean.
    by rewrite (Hall w Hin), Hcomp.
  - unfold parts. destruct s as [|c s]; [by left|].
    destruct (is_sep c); [by right|by left].
Qed.

Lemma join_last_clean comps :
  comps ≠ [] → Forall (λ w, is_clean w = true) comps →
  ∃ c, last_char (join "\" comps) = Some c ∧ is_sep c = false.
Proof.
  induction comps as [|w comps IH]; [done|]. intros _ Hall.
  inversion Hall as [|? ? Hw Hcomps]; subst.
  destruct comps as [|x comps]; [by apply is_clean_last|].
  destruct IH as (c & Hc & Hsep); [done|done|].
  exists c. split; [|done].
  change (join "\" (w :: x :: comps)) with (w +:+ "\" +:+ join "\" (x :: comps)).
  rewrite (last_char_app w) by (by rewrite string_app_cons).
  rewrite (last_char_app "\") by (intros E; by rewrite E in Hc).
  done.
Qed.

Lemma single_piece value : PureWindowsPath [value] = parts value.
Proof.
  unfold PureWindowsPath. simpl. unfold join_piece.
  destruct (parts value) as [|r rest]; [done|].
  by destruct (String.eqb r root_part).
Qed.

(** X16. The setter of [root_dir_prefix] changes only the prefix, and the
    prefix it stores is in lower case and is either empty or ends in
    exactly one backslash. It is empty exactly when the value is a bare
    root, a path that starts with a separator and has no component. So
    assigning the empty string does not clear the prefix: the empty path
    prints as a dot, and the dot is stored with its backslash. *)
Theorem root_dir_prefix_normal_form h value :
  let h' := set_root_dir_prefix h value in
  let prefix := root_dir_prefix h' in
  h' = with_root_dir_prefix h prefix
  ∧ lower prefix = prefix
  ∧ if bool_decide (parts value = [root_part]) then prefix = ""
    else ∃ w c, prefix = w +:+ "\" ∧ last_char w = Some c ∧ is_backslash c = false.
Proof.
  intros h' prefix. split; [done|].
  unfold prefix, h', root_dir_prefix, set_root_dir_prefix. simpl.
  rewrite single_piece.
  set (shown := lower (path_str (parts value))).
  assert (Hlow : lower (rstrip is_backslash shown) = rstrip is_backslash shown).
  { apply lower_rstrip. apply lower_idemp. }
  split.
  { destruct (String.eqb_spec (rstrip is_backslash shown) ""); [done|].
    by rewrite lower_app, Hlow. }
  case_bool_decide as Hroot.
  - unfold shown. by rewrite Hroot.
  - assert (Hlast : ∃ c, last_char shown = Some c ∧ is_sep c = false).
    { unfold shown. rewrite last_char_lower.
      destruct (parts_shape value) as (comps & Hclean & [E|E]); rewrite E in *.
      - destruct comps as [|w comps]; [by exists "."%char|].
        assert (Hne : w :: comps ≠ []) by done.
        rewrite (path_str_relative _ Hne Hclean).
        destruct (join_last_clean (w :: comps)) as (c & -> & Hc); [done|done|].
        exists (lower_ascii c). split; [done|]. by rewrite lower_ascii_is_sep.
      - destruct comps as [|w comps]; [done|].
        unfold path_str. rewrite String.eqb_refl.
        destruct (join_last_clean (w :: comps)) as (c & Hc & Hsep); [done|done|].
        rewrite last_char_app by (intros E'; by rewrite E' in Hc).
        rewrite Hc. exists (lower_ascii c). split; [done|].
        by rewrite lower_ascii_is_sep. }
    destruct Hlast as (c & Hc & Hsep).
    assert (Hbs : is_backslash c = false).
    { unfold is_sep in Hsep. unfold is_backslash.
      by apply orb_false_iff in Hsep as [-> _]. }
    rewrite (rstrip_id _ _ _ Hc Hbs).
    destruct (String.eqb_spec shown "") as [E|_]; [by rewrite E in Hc|].
    by exists shown, c.
Qed.

(** * Further properties of the compactor *)

(** ** Shortening a name against its parent *)

Lemma split_by_nonempty p s : split_by p s ≠ [].
Proof.
  destruct s as [|c s]; simpl; [done|].
  destruct (p c); [done|]. by destruct (split_by p s).
Qed.

Lemma join_cons sep w ws :
  ws ≠ [] → join sep (w :: ws) = w +:+ sep +:+ join sep ws.
Proof. by destruct ws. Qed.

Lemma join_cons_String sep c w ws :
  join sep (String c w :: ws) = String c (join sep (w :: ws)).
Proof. destruct ws; [done|]. simpl. by rewrite string_app_cons. Qed.

(** Splitting at a character and joining with it gives the string back. *)
Lemma join_split_by (sep : ascii) (s : string) :
  join (String sep "") (split_by (λ c, Ascii.eqb c sep) s) = s.
Proof.
  induction s as [|c s IH]; [done|]. simpl.
  destruct (Ascii.eqb_spec c sep) as [->|Hne].
  - rewrite join_cons by apply split_by_nonempty. by rewrite IH.
  - pose proof (split_by_nonempty (λ c, Ascii.eqb c sep) s) as Hne'.
    destruct (split_by (λ c, Ascii.eqb c sep) s) as [|w ws]; [done|].
    by rewrite join_cons_String, IH.
Qed.

Lemma length_replace_char a b s :
  String.length (replace_char a b s) = String.length s.
Proof. induction s as [|c s IH]; simpl; [done|]. by rewrite IH. Qed.

Lemma length_join_cons sep w ws :
  String.length (join sep (w :: ws))
  = (String.length w
     + (if is_empty ws then 0 else String.length sep + String.length (join sep ws)))%nat.
Proof.
  destruct ws as [|x ws]; [simpl; lia|].
  rewrite join_cons by done. rewrite !string_length_app. simpl. lia.
Qed.

Lemma length_join_sep sep sep' ws :
  String.length sep = String.length sep' →
  String.length (join sep ws) = String.length (join sep' ws).
Proof.
  intros Hsep. induction ws as [|w ws IH]; [done|].
  rewrite !length_join_cons, Hsep, IH. done.
Qed.

Lemma length_join_drop sep n ws :
  (String.length (join sep (drop n ws)) ≤ String.length (join sep ws))%nat.
Proof.
  revert ws. induction n as [|n IH]; intros ws; [by rewrite drop_0|].
  destruct ws as [|w ws]; [done|]. simpl drop.
  etransitivity; [apply IH|]. rewrite length_join_cons.
  destruct ws; simpl; lia.
Qed.

Lemma length_join_take sep n ws :
  (String.length (join sep (take n ws)) ≤ String.length (join sep ws))%nat.
Proof.
  revert n. induction ws as [|w ws IH]; intros n; [by rewrite take_nil|].
  destruct n as [|n]; [simpl; lia|]. simpl take.
  rewrite !length_join_cons. specialize (IH n).
  destruct ws as [|x ws]; [by rewrite take_nil|].
  destruct (take n (x :: ws)); simpl in *; lia.
Qed.

(** X17. [shorten_name_to_parent] never makes a name longer. *)
Theorem shorten_name_to_parent_no_longer parent name :
  (String.length (shorten_name_to_parent parent name) ≤ String.length name)%nat.
Proof.
  unfold shorten_name_to_parent.
  set (join_char := if char_in "_" name then "_" else " ").
  etransitivity; [apply length_join_take|].
  etransitivity; [apply length_join_drop|].
  rewrite (length_join_sep join_char " ") by (unfold join_char; by destruct (char_in _ _)).
  unfold name_words.
  rewrite (join_split_by " " (replace_char "_" " " name)).
  by rewrite length_replace_char.
Qed.

Lemma common_prefix_diag l : common_prefix l l = length l.
Proof.
  induction l as [|x l IH]; [done|]. simpl.
  by rewrite String.eqb_refl, IH.
Qed.

(** X18. A name made of the same words as the name of its parent directory is
    shortened to nothing. *)
Theorem shorten_name_to_parent_same_words parent name :
  name_words parent = name_words name →
  shorten_name_to_parent parent name = "".
Proof.
  intros H. unfold shorten_name_to_parent. rewrite H.
  rewrite !common_prefix_diag, length_rev.
  by replace (length (name_words name) - length (name_words name)
              - length (name_words name))%nat with O by lia.
Qed.

Lemma common_prefix_head a b : head a ≠ head b → common_prefix a b = O.
Proof.
  destruct a as [|x a], b as [|y b]; try done. simpl.
  intros H. destruct (String.eqb_spec x y) as [->|]; done.
Qed.

Lemma split_by_cons p c s :
  split_by p (String c s)
  = if p c then "" :: split_by p s
    else match split_by p s with
         | [] => [String c ""]
         | w :: ws => String c w :: ws
         end.
Proof. reflexivity. Qed.

Lemma replace_char_cons a b c s :
  replace_char a b (String c s)
  = String (if Ascii.eqb c a then b else c) (replace_char a b s).
Proof. reflexivity. Qed.

(** Joining the words of a name with underscores turns its blanks into
    underscores. *)
Lemma join_underscore_words name :
  join "_" (split_by (λ c, Ascii.eqb c " ") (replace_char "_" " " name))
  = replace_char " " "_" name.
Proof.
  induction name as [|c s IH]; [done|].
  rewrite !replace_char_cons, split_by_cons.
  destruct (Ascii.eqb_spec c "_") as [->|Hus].
  - rewrite Ascii.eqb_refl. change (Ascii.eqb "_" " ") with false.
    rewrite join_cons by apply split_by_nonempty. by rewrite IH.
  - destruct (Ascii.eqb_spec c " ") as [->|Hsp].
    + rewrite join_cons by apply split_by_nonempty. by rewrite IH.
    + pose proof (split_by_nonempty (λ c, Ascii.eqb c " ") (replace_char "_" " " s))
        as Hne.
      destruct (split_by _ (replace_char "_" " " s)) as [|w ws]; [done|].
      by rewrite join_cons_String, IH.
Qed.

Lemma replace_char_absent a b s : char_in a s = false → replace_char a b s = s.
Proof.
  induction s as [|c s IH]; [done|]. simpl.
  rewrite Ascii.eqb_sym.
  destruct (Ascii.eqb c a); [done|]. intros H. by rewrite IH.
Qed.

(** X19. A name whose first word is not the first word of the parent and whose
    last word is not the last word of the parent comes back as it is,
    provided it does not mix underscores and blanks; a name that mixes them
    comes back with underscores only. *)
Theorem shorten_name_to_parent_nothing_shared parent name :
  head (name_words parent) ≠ head (name_words name) →
  last (name_words parent) ≠ last (name_words name) →
  shorten_name_to_parent parent name
  = if char_in "_" name && char_in " " name
    then replace_char " " "_" name
    else name.
Proof.
  intros Hhead Hlast. unfold shorten_name_to_parent.
  rewrite (common_prefix_head _ _ Hhead).
  rewrite (common_prefix_head (rev _) (rev _))
    by (rewrite !rev_alt; fold (reverse (name_words parent));
        fold (reverse (name_words name)); by rewrite !head_reverse).
  rewrite drop_0, !Nat.sub_0_r, firstn_all.
  unfold name_words.
  destruct (char_in "_" name) eqn:Hus; cbn [andb].
  - rewrite join_underscore_words.
    destruct (char_in " " name) eqn:Hsp; [done|].
    by apply replace_char_absent.
  - rewrite (replace_char_absent _ _ _ Hus). apply (join_split_by " ").
Qed.

(** * Further properties of the walker *)

Section walker_more.

Variable sanitize_win32_path : string → list string.
Variable recursive_rename_functions : string → option rename_func.

Local Abbreviation set_path := (set_path sanitize_win32_path).
Local Abbreviation set_path_by_priority := (set_path_by_priority sanitize_win32_path).
Local Abbreviation step := (step sanitize_win32_path).
Local Abbreviation walk_step := (walk_step sanitize_win32_path).
Local Abbreviation heuristic_deprotect :=
  (heuristic_deprotect sanitize_win32_path recursive_rename_functions).
Local Abbreviation run_policy := (run_policy sanitize_win32_path).

Lemma walk_step_step h h' : walk_step h h' → step h h'.
Proof.
  destruct 1 as [h index np pr ov h' r H|h index np pr ov e h' H|h index p h' H].
  - by eapply step_set_path_by_priority.
  - by eapply step_set_path_by_priority_raises.
  - by eapply step_set_priority_min.
Qed.

Lemma walk_steps_steps h h' : rtc walk_step h h' → rtc step h h'.
Proof.
  induction 1 as [|h h1 h2 H _ IH]; [done|].
  eapply rtc_l; [by apply walk_step_step|done].
Qed.

Lemma walk_steps_kinds h h' :
  rtc walk_step h h' →
  tag_kinds h' = tag_kinds h ∧ _overwritables h' = _overwritables h.
Proof.
  induction 1 as [|h h1 h2 H _ [IH1 IH2]]; [done|].
  apply walk_step_step, step_kinds in H as [H1 H2]. split; congruence.
Qed.

Lemma run_policy_steps (walk : walker) :
  (∀ tag_id root_dir sub_dir name kw w w' r,
     walk tag_id root_dir sub_dir name kw w = Some (w', r) →
     rtc walk_step w.1 w'.1 ∧ w.2 ⊆ w'.2) →
  ∀ p w acc w' acc',
    run_policy walk p w acc = Some (w', acc') →
    rtc walk_step w.1 w'.1 ∧ w.2 ⊆ w'.2.
Proof.
  intros Hwalk.
  induction p as [| |k IH|index np pr ov k IH|tid rd sd nm kw k IH|v k IH];
    intros w acc w' acc'; simpl.
  - by intros [= <- _].
  - by intros [= <- _].
  - apply IH.
  - destruct (set_path_by_priority w.1 index np pr ov) as [[e h1]|[h1 r]] eqn:E.
    + intros [H1 H2]%IH. simpl in *. split; [|done].
      eapply rtc_l; [|exact H1]. by eapply walk_step_propose_raises.
    + intros [H1 H2]%IH. simpl in *. split; [|done].
      eapply rtc_l; [|exact H1]. by eapply walk_step_propose.
  - destruct (walk tid rd sd nm kw w) as [[w1 r]|] eqn:E; [|done].
    apply Hwalk in E as [E1 E2]. intros [H1 H2]%IH.
    split; [by etransitivity|by etransitivity].
  - apply IH.
Qed.

Lemma recorded_floor_set h h' h2 tid v :
  tag_kinds h' = tag_kinds h → in_index_range h (mask tid) = true →
  set_priority_min h' (Some (mask tid)) v = inr h2 →
  float v = inr (recorded_floor h2 (Some tid)).
Proof.
  intros Hk Hr. unfold recorded_floor, set_priority_min, get_priority_min.
  rewrite mask_idemp, (in_index_range_same h h') by done. rewrite Hr.
  destruct (float v) as [e|f]; simpl; [done|]. intros [= <-].
  unfold in_index_range at 1. simpl. fold (in_index_range h' (mask tid)).
  rewrite (in_index_range_same h h') by done. rewrite Hr. simpl.
  by rewrite lookup_insert_eq.
Qed.

(** What every walk that ends has done, and what it ends with. *)
Lemma heuristic_deprotect_steps fuel :
  ∀ tag_id root_dir sub_dir name kw h seen w' r,
    heuristic_deprotect fuel tag_id root_dir sub_dir name kw (h, seen) = Some (w', r) →
    rtc walk_step h w'.1 ∧ seen ⊆ w'.2
    ∧ match r with
      | inl e => e = OverflowError
      | inr v =>
          recorded_floor w'.1 tag_id = v
          ∨ float v = inr (recorded_floor w'.1 tag_id)
      end.
Proof.
  induction fuel as [|fuel IH]; intros tag_id root_dir sub_dir name kw h seen w' r;
    [done|].
  destruct tag_id as [tid|]; [|intros [= <- <-]; split; [done|split; [done|by left]]].
  rewrite heuristic_deprotect_unfold. cbn [fst snd].
  unfold recorded_floor. rewrite !get_priority_min_mask.
  destruct (in_index_range h (mask tid)) eqn:Hr; cbn [negb].
  2:{ intros [= <- <-]. cbn [fst snd]. rewrite Hr. split; [done|split; [done|by left]]. }
  destruct (bool_decide (mask tid ∈ seen)) eqn:Hseen; cbn [orb].
  { intros [= <- <-]. cbn [fst snd]. rewrite Hr. split; [done|split; [done|by left]]. }
  apply bool_decide_eq_false in Hseen.
  destruct (prio_ltb _ (Fin 0)).
  { intros [= <- <-]. cbn [fst snd]. rewrite Hr. split; [done|split; [done|by left]]. }
  destruct (skip_traversal _ _).
  { intros [= <- <-]. cbn [fst snd]. rewrite Hr. split; [done|split; [done|by left]]. }
  assert (Hwalk : ∀ tag_id root_dir sub_dir name kw w w' r,
            heuristic_deprotect fuel tag_id root_dir sub_dir name kw w = Some (w', r) →
            rtc walk_step w.1 w'.1 ∧ w.2 ⊆ w'.2).
  { intros tid' rd sd nm kw' [h0 seen0] w0 r0 H0.
    by apply IH in H0 as (? & ? & _). }
  unfold traverse. cbn [fst snd].
  destruct (match _index_map h !! Z.to_nat (mask tid) with
            | Some ref => recursive_rename_functions (enum_name ref)
            | None => None
            end) as [rename|].
  - destruct (run_policy _ (rename _ _ _ _ _) _ INF) as [[[h1 seen1] acc]|] eqn:E;
      [|done].
    apply (run_policy_steps _ Hwalk) in E as [E1 E2]. cbn [fst snd] in *.
    rewrite bool_decide_eq_true_2 by solve_set.
    pose proof (walk_steps_kinds _ _ E1) as [Hk _].
    destruct (set_priority_min h1 (Some (mask tid)) acc) as [e|h2] eqn:E3;
      intros [= <- <-]; cbn [fst snd].
    + split; [done|]. split; [solve_set|].
      by apply set_priority_min_inl in E3 as [-> _].
    + split; [|split; [solve_set|]].
      * eapply rtc_r; [exact E1|by eapply walk_step_floor].
      * right. exact (recorded_floor_set h h1 h2 tid acc Hk Hr E3).
  - cbn [kw_override with_depth].
    destruct (set_path_by_priority h (Some tid) (root_dir +:+ sub_dir +:+ name)
                (kw_priority kw) (kw_override kw)) as [[e h1]|[h1 r1]] eqn:E.
    + intros [= <- <-]. cbn [fst snd].
      split; [apply rtc_once; by eapply walk_step_propose_raises|].
      split; [solve_set|].
      by apply set_path_by_priority_raises in E as [-> _].
    + rewrite bool_decide_eq_true_2 by solve_set.
      assert (E1 : rtc walk_step h h1).
      { apply rtc_once. by eapply walk_step_propose. }
      pose proof (walk_steps_kinds _ _ E1) as [Hk _].
      destruct (set_priority_min h1 (Some (mask tid)) (prio_min r1 INF))
        as [e|h2] eqn:E3; intros [= <- <-]; cbn [fst snd].
      * split; [done|]. split; [solve_set|].
        by apply set_priority_min_inl in E3 as [-> _].
      * split; [|split; [solve_set|]].
        -- eapply rtc_r; [exact E1|by eapply walk_step_floor].
        -- right.
           exact (recorded_floor_set h h1 h2 tid _ Hk Hr E3).
Qed.

(** X20. Whatever the naming policies are, a walk that ends has changed the
    handler only by calls of [set_path_by_priority] and [set_priority_min],
    has taken nothing out of the visited set that was in it, and has
    raised nothing but the [OverflowError] of a priority that has no float.
    The classes and pins of the entries and the overwritable flags are as
    before. *)
Theorem walker_only_proposes fuel tag_id root_dir sub_dir name kw h seen h' seen' r :
  heuristic_deprotect fuel tag_id root_dir sub_dir name kw (h, seen)
    = Some ((h', seen'), r) →
  rtc walk_step h h'
  ∧ seen ⊆ seen'
  ∧ (∀ e, r = inl e → e = OverflowError)
  ∧ tag_kinds h' = tag_kinds h
  ∧ _overwritables h' = _overwritables h.
Proof.
  intros (H1 & H2 & H3)%heuristic_deprotect_steps. simpl in *.
  destruct (walk_steps_kinds _ _ H1) as [Hk Ho].
  repeat split; try done. by intros e ->.
Qed.


Lemma walk_step_propose_eq h h' index np pr ov :
  (∃ r, set_path_by_priority h index np pr ov = inr (h', r))
  ∨ (∃ e, set_path_by_priority h index np pr ov = inl (e, h')) →
  propose sanitize_win32_path h (Proposal index np pr ov) = h'.
Proof.
  unfold propose. cbn [prop_index prop_path prop_priority prop_override].
  by intros [[r ->]|[e ->]].
Qed.

Lemma walk_step_priority h h' i :
  walk_step h h' →
  is_float (get_priority h (Some i)) →
  is_float (get_priority h' (Some i))
  ∧ prio_leb (get_priority h (Some i)) (get_priority h' (Some i)) = true.
Proof.
  intros Hstep Hfl.
  assert (Hprop : ∀ index np pr ov,
            propose sanitize_win32_path h (Proposal index np pr ov) = h' →
            is_float (get_priority h' (Some i))
            ∧ prio_leb (get_priority h (Some i)) (get_priority h' (Some i)) = true).
  { intros index np pr ov <-.
    destruct (propose_is_float sanitize_win32_path h (Proposal index np pr ov) i Hfl)
      as [Hfl' Hp].
    split; [done|]. rewrite Hp.
    destruct (_ && _); [|apply prio_leb_refl].
    destruct (float _); [apply prio_leb_refl|apply prio_max_ge]. }
  destruct Hstep as [h index np pr ov h' r H|h index np pr ov e h' H|h index p h' H].
  - apply (Hprop index np pr ov), walk_step_propose_eq. left. by exists r.
  - apply (Hprop index np pr ov), walk_step_propose_eq. right. by exists e.
  - apply set_priority_min_frame in H as (Hp & _).
    unfold get_priority. rewrite Hp. split; [done|apply prio_leb_refl].
Qed.

(** X22. A walk never lowers a priority that is a float: a tag whose stored
    priority is a float (as every priority stored by [set_priority] is) has
    after the walk a priority that is a float and is not below the one it
    had, whatever the naming policies propose. *)
Theorem walker_never_lowers_priority fuel tag_id root_dir sub_dir name kw h seen
    h' seen' r i :
  heuristic_deprotect fuel tag_id root_dir sub_dir name kw (h, seen)
    = Some ((h', seen'), r) →
  is_float (get_priority h (Some i)) →
  is_float (get_priority h' (Some i))
  ∧ prio_leb (get_priority h (Some i)) (get_priority h' (Some i)) = true.
Proof.
  intros (H & _)%heuristic_deprotect_steps. simpl in H.
  induction H as [|h1 h2 h3 H12 _ IH]; intros Hfl; [split; [done|apply prio_leb_refl]|].
  destruct (walk_step_priority _ _ i H12 Hfl) as [Hfl2 Hle].
  destruct (IH Hfl2) as [Hfl3 Hle3]. split; [done|].
  by eapply prio_leb_trans.
Qed.

Lemma set_path_pinned h index np eu erp h' r pos tag_ref :
  set_path h index np eu erp = inr (h', r) →
  (∀ i, index = Some i → pos ≠ Z.to_nat (mask i)) →
  _index_map h !! pos = Some tag_ref →
  _index_map h' !! pos = Some tag_ref ∧ _priorities h' = _priorities h.
Proof.
  intros H Hne Hpos.
  destruct (set_path_cases sanitize_win32_path h index np eu erp)
    as [[Hnone E]|(i & r0 & -> & Href & [E|(q & _ & _ & E)])];
    rewrite E in H; simplify_eq; [done|].
  simpl. specialize (Hne i eq_refl). by rewrite list_lookup_insert_ne by done.
Qed.

Lemma walk_step_pinned h h' pos tag_ref :
  walk_step h h' → pins_protected h →
  _index_map h !! pos = Some tag_ref → indexed tag_ref = true →
  _index_map h' !! pos = Some tag_ref
  ∧ _priorities h' !! Z.of_nat pos = _priorities h !! Z.of_nat pos.
Proof.
  intros Hstep Hpins Hpos Hpin.
  assert (Hother : ∀ index c ov,
            get_will_overwrite h index (Some c) ov = inr true →
            ∀ i, index = Some i → pos ≠ Z.to_nat (mask i)).
  { intros index c ov Hw i -> ->.
    unfold get_will_overwrite, get_overwritable in Hw.
    specialize (Hpins _ _ Hpos Hpin).
    rewrite Z2Nat.id in Hpins by apply mask_nonneg.
    by rewrite Hpins in Hw. }
  destruct Hstep as [h index np pr ov h' r H|h index np pr ov e h' H|h index p h' H].
  - apply set_path_by_priority_cases in H as [->|(h1 & new_path & H & H2 & _ & Hw)];
      [done|].
    pose proof (Hother _ _ _ Hw) as Hne.
    destruct (set_path_pinned _ _ _ _ _ _ _ _ _ H Hne Hpos) as [Hl Hp].
    apply set_priority_inr in H2 as [->|(i & f & -> & _ & _ & ->)].
    + by rewrite Hp.
    + simpl. split; [done|]. rewrite Hp. apply lookup_insert_ne.
      specialize (Hne i eq_refl). pose proof (mask_nonneg i). lia.
  - apply set_path_by_priority_raises in H as (_ & _ & np' & H & Hw).
    pose proof (Hother _ _ _ Hw) as Hne.
    destruct (set_path_pinned _ _ _ _ _ _ _ _ _ H Hne Hpos) as [Hl Hp].
    by rewrite Hp.
  - apply set_priority_min_inr in H as [->|(j & f & _ & _ & _ & ->)]; done.
Qed.

(** X23. A walk never touches a pinned tag: in a state reached from the
    constructor by renaming and re-prioritising calls, whatever the naming
    policies propose, every pinned entry has after the walk the path and
    the priority it had before. *)
Theorem walker_keeps_pinned_entries refs dp pr pm perm fuel tag_id root_dir sub_dir
    name kw h seen h' seen' r i tag_ref :
  rtc step (__init__ refs dp pr pm perm) h →
  heuristic_deprotect fuel tag_id root_dir sub_dir name kw (h, seen)
    = Some ((h', seen'), r) →
  get_index_ref h (Some i) = Some tag_ref →
  indexed tag_ref = true →
  get_index_ref h' (Some i) = Some tag_ref
  ∧ get_priority h' (Some i) = get_priority h (Some i).
Proof.
  intros Hreach (H & _)%heuristic_deprotect_steps Href Hpin. simpl in H.
  pose proof (reachable_pins_protected _ _ _ Hreach (init_pins_protected _ _ _ _ _))
    as Hpins.
  apply get_index_ref_Some in Href as (? & [= <-] & Hr & Hl).
  assert (Hinv : _index_map h' !! Z.to_nat (mask i) = Some tag_ref
                 ∧ _priorities h' !! Z.of_nat (Z.to_nat (mask i))
                   = _priorities h !! Z.of_nat (Z.to_nat (mask i))).
  { clear Hreach. induction H as [|h1 h2 h3 H12 H23 IH]; [done|].
    destruct (walk_step_pinned _ _ _ _ H12 Hpins Hl Hpin) as [Hl2 Hp2].
    destruct IH as [IH1 IH2].
    - unfold in_index_range in *.
      apply walk_step_step, step_kinds in H12 as [Hk _].
      by rewrite (tag_kinds_length _ _ Hk).
    - done.
    - apply (step_pins_protected sanitize_win32_path h1 h2); [|done].
      by apply walk_step_step.
    - split; [done|]. congruence. }
  destruct Hinv as [Hl' Hp'].
  rewrite Z2Nat.id in Hp' by apply mask_nonneg.
  pose proof (walk_steps_kinds _ _ H) as [Hk _].
  unfold get_index_ref, get_priority.
  rewrite (in_index_range_same h h') by done. by rewrite Hr, Hl', Hp'.
Qed.

(** X24. For a tag whose class has no naming policy the walk is one proposal:
    once the early returns are out of the way, the walker proposes the
    path [root_dir + sub_dir + name] with the priority and [override] of
    its keywords. When the proposal raises, the walk raises with it and
    the tag stays in the visited set. Otherwise the walker takes the tag
    out of the visited set and records the float of what
    [set_path_by_priority] returned as the floor of the tag, and returns
    that value as it is; the floor recorded is then the float of the
    priority the tag has. When the value has no float, the walk raises
    with the tag out of the visited set and no floor recorded. *)
Theorem walker_without_policy fuel tid root_dir sub_dir name kw h seen tag_ref :
  get_index_ref h (Some tid) = Some tag_ref →
  recursive_rename_functions (enum_name tag_ref) = None →
  mask tid ∉ seen →
  prio_ltb (default INF (kw_depth kw)) (Fin 0) = false →
  skip_traversal kw (get_priority_min h (Some tid)) = false →
  match set_path_by_priority h (Some tid) (root_dir +:+ sub_dir +:+ name)
          (kw_priority kw) (kw_override kw) with
  | inl (e, h1) =>
      heuristic_deprotect (S fuel) (Some tid) root_dir sub_dir name kw (h, seen)
      = Some ((h1, {[mask tid]} ∪ seen), inl e)
  | inr (h1, r) =>
      match float r with
      | inl e =>
          heuristic_deprotect (S fuel) (Some tid) root_dir sub_dir name kw (h, seen)
          = Some ((h1, seen), inl e)
      | inr f =>
          heuristic_deprotect (S fuel) (Some tid) root_dir sub_dir name kw (h, seen)
          = Some ((with_priority_mins h1 (<[mask tid := f]> (_priority_mins h1)), seen),
                  inr r)
          ∧ float (get_priority h1 (Some tid)) = inr f
      end
  end.
Proof.
  intros Href Hreg Hseen Hdepth Hskip.
  pose proof Href as (? & [= <-] & Hr & Hl)%get_index_ref_Some.
  rewrite heuristic_deprotect_unfold. cbn [fst snd].
  rewrite Hr, Hdepth, (bool_decide_eq_false_2 _ Hseen), get_priority_min_mask, Hskip.
  unfold traverse. cbn [fst snd negb orb kw_override with_depth]. rewrite Hl, Hreg.
  destruct (set_path_by_priority h (Some tid) (root_dir +:+ sub_dir +:+ name)
              (kw_priority kw) (kw_override kw)) as [[e h1]|[h1 r]] eqn:E; [done|].
  rewrite prio_min_INF, bool_decide_eq_true_2 by solve_set.
  assert (Hk : tag_kinds h1 = tag_kinds h) by (by eapply set_path_by_priority_kinds).
  unfold set_priority_min. rewrite mask_idemp, (in_index_range_same h h1), Hr by done.
  assert (Hback : ({[mask tid]} ∪ seen) ∖ {[mask tid]} = seen) by solve_set.
  rewrite Hback.
  destruct (float r) as [e|f] eqn:Hf; simpl; [done|]. split; [done|].
  destruct (rejected h (Some tid) tag_ref
              (default (_def_priority h) (kw_priority kw)) (kw_override kw)) eqn:Hrej.
  - rewrite (set_path_by_priority_rejects _ _ _ tag_ref) in E by done.
    by injection E as <- <-.
  - destruct (set_path_by_priority_accepts sanitize_win32_path h (Some tid) tag_ref
                (root_dir +:+ sub_dir +:+ name) (kw_priority kw) (kw_override kw)
                Href Hrej) as (h0 & np & _ & Hres & E').
    rewrite E' in E.
    destruct (set_priority h0 (Some tid) _) as [e|h2] eqn:E2; [done|].
    injection E as <- <-.
    pose proof (get_priority_set_priority _ _ _ _ Hres E2) as Hp.
    rewrite Hf in Hp. injection Hp as <-. by eapply float_idemp.
Qed.

Lemma size_valid_ids h : size (valid_ids h) = length (_index_map h).
Proof.
  unfold valid_ids. rewrite size_list_to_set.
  - by rewrite length_fmap, length_seq.
  - apply NoDup_fmap_2; [apply _|apply NoDup_seq].
Qed.

(** X25. With more fuel than the tag index has entries every walk returns,
    whatever the naming policies are and however the tags refer to each
    other: walks never nest deeper than there are entries outside the
    visited set. *)
Theorem walker_fuel_bound fuel tag_id root_dir sub_dir name kw h seen :
  (length (_index_map h) < fuel)%nat →
  is_Some (heuristic_deprotect fuel tag_id root_dir sub_dir name kw (h, seen)).
Proof.
  intros Hfuel.
  assert (Hn : (unseen h seen ≤ length (_index_map h))%nat).
  { unfold unseen. rewrite <-size_valid_ids. apply subseteq_size. solve_set. }
  destruct (heuristic_deprotect_total sanitize_win32_path recursive_rename_functions
              (length (_index_map h)) fuel tag_id root_dir sub_dir name kw (h, seen)
              Hn Hfuel) as (w' & r' & -> & _).
  done.
Qed.

End walker_more.

(** ** The naming policy of tag collections *)

Section tagc_facts.

Variable sanitize_win32_path : string → list string.
Variable recursive_rename_functions : string → option rename_func.
Variable tag_references : option Z → option (list (option Z)).
Variable LOW_PRIORITY : Priority.

Local Abbreviation set_path_by_priority := (set_path_by_priority sanitize_win32_path).
Local Abbreviation heuristic_deprotect :=
  (heuristic_deprotect sanitize_win32_path recursive_rename_functions).
Local Abbreviation rename_tagc := (rename_tagc tag_references LOW_PRIORITY).

(** The walk of a tag whose policy is [rename_func], once the early
    returns are out of the way. *)
Lemma heuristic_deprotect_policy fuel tid root_dir sub_dir name kw h seen tag_ref
    rename_func :
  get_index_ref h (Some tid) = Some tag_ref →
  recursive_rename_functions (enum_name tag_ref) = Some rename_func →
  mask tid ∉ seen →
  prio_ltb (default INF (kw_depth kw)) (Fin 0) = false →
  skip_traversal kw (get_priority_min h (Some tid)) = false →
  heuristic_deprotect (S fuel) (Some tid) root_dir sub_dir name kw (h, seen)
  = match run_policy sanitize_win32_path (heuristic_deprotect fuel)
            (rename_func (Some tid) root_dir sub_dir name
               (with_depth kw (prio_pred (default INF (kw_depth kw)))))
            (h, {[mask tid]} ∪ seen) INF with
    | None => None
    | Some ((h', seen'), acc) =>
        if bool_decide (mask tid ∈ seen') then
          match set_priority_min h' (Some tid) acc with
          | inl e => Some ((h', seen' ∖ {[mask tid]}), inl e)
          | inr h'' => Some ((h'', seen' ∖ {[mask tid]}), inr acc)
          end
        else Some ((h', seen'), inl KeyError)
    end.
Proof.
  intros Href Hreg Hseen Hdepth Hskip.
  rewrite heuristic_deprotect_unfold. cbn [fst snd].
  apply get_index_ref_Some in Href as (? & [= <-] & Hr & Hl).
  rewrite Hr, Hdepth, (bool_decide_eq_false_2 _ Hseen), get_priority_min_mask, Hskip.
  unfold traverse. cbn [fst snd negb orb]. rewrite Hl, Hreg.
  destruct (run_policy _ _ _ _ _) as [[[h' seen'] acc]|]; [|done].
  unfold set_priority_min. by rewrite mask_idemp.
Qed.

(** X26. A tag collection the map has no metadata for is left alone by its
    policy: nothing is proposed and nothing is walked. The walker still
    records a floor for it, the empty minimum [INF], and returns that. *)
Theorem rename_tagc_without_metadata fuel tid root_dir sub_dir name kw h seen tag_ref :
  get_index_ref h (Some tid) = Some tag_ref →
  recursive_rename_functions (enum_name tag_ref) = Some rename_tagc →
  mask tid ∉ seen →
  prio_ltb (default INF (kw_depth kw)) (Fin 0) = false →
  skip_traversal kw (get_priority_min h (Some tid)) = false →
  tag_references (Some tid) = None →
  heuristic_deprotect (S fuel) (Some tid) root_dir sub_dir name kw (h, seen)
  = Some ((with_priority_mins h (<[mask tid := INF]> (_priority_mins h)), seen),
          inr INF).
Proof.
  intros Href Hreg Hseen Hdepth Hskip Hmeta.
  rewrite (heuristic_deprotect_policy _ _ _ _ _ _ _ _ _ _ Href Hreg Hseen Hdepth Hskip).
  unfold rename_tagc. rewrite Hmeta. cbn [run_policy].
  rewrite bool_decide_eq_true_2 by solve_set.
  apply get_index_ref_Some in Href as (? & [= <-] & Hr & Hl).
  unfold set_priority_min. rewrite Hr. simpl.
  do 2 f_equal. f_equal. solve_set.
Qed.

(** X27. When the path a tag collection has after its proposal starts with the
    directory [root_dir] starts with, the policy ends at its call of
    [get_sub_dir], which raises: none of the tags the collection refers to
    is walked. The walker swallows the exception and goes on to record the
    float of what the proposal returned as the floor of the collection,
    and returns that value as it is; when the value has no float (it can be
    the priority the constructor stored as it was given), the walk raises
    [OverflowError] instead and records nothing. *)
Theorem rename_tagc_stops_at_shared_root fuel tid root_dir sub_dir name kw h seen
    tag_ref refs h1 v d dirs root_dirs :
  get_index_ref h (Some tid) = Some tag_ref →
  recursive_rename_functions (enum_name tag_ref) = Some rename_tagc →
  mask tid ∉ seen →
  prio_ltb (default INF (kw_depth kw)) (Fin 0) = false →
  skip_traversal kw (get_priority_min h (Some tid)) = false →
  tag_references (Some tid) = Some refs →
  set_path_by_priority h (Some tid)
    (root_dir +:+ sub_dir
     +:+ (if String.eqb name "" then protected_name (Some tid) else name))
    (Some LOW_PRIORITY) (kw_override kw) = inr (h1, v) →
  removelast (parts (get_path h1 (Some tid))) = d :: dirs →
  parts root_dir = d :: root_dirs →
  heuristic_deprotect (S fuel) (Some tid) root_dir sub_dir name kw (h, seen)
  = match float v with
    | inr f =>
        Some ((with_priority_mins h1 (<[mask tid := f]> (_priority_mins h1)), seen),
              inr v)
    | inl _ => Some ((h1, seen), inl OverflowError)
    end.
Proof.
  intros Href Hreg Hseen Hdepth Hskip Hmeta Hprop Hdirs Hroot.
  rewrite (heuristic_deprotect_policy _ _ _ _ _ _ _ _ _ _ Href Hreg Hseen Hdepth Hskip).
  unfold rename_tagc. rewrite Hmeta.
  cbn [run_policy with_priority with_depth kw_priority kw_override fst snd].
  rewrite Hprop. cbn [run_policy fst snd].
  assert (Hraise : get_sub_dir h1 (Some tid) root_dir = inl AttributeError).
  { unfold get_path in Hdirs. unfold get_sub_dir.
    destruct (get_index_ref h1 (Some tid)) as [r1|]; [|done].
    by rewrite Hdirs, Hroot, String.eqb_refl. }
  rewrite Hraise. cbn [run_policy].
  rewrite bool_decide_eq_true_2 by solve_set.
  rewrite prio_min_INF.
  assert (Hk : tag_kinds h1 = tag_kinds h)
    by (by eapply (set_path_by_priority_kinds sanitize_win32_path)).
  apply get_index_ref_Some in Href as (? & [= <-] & Hr & Hl).
  unfold set_priority_min. rewrite (in_index_range_same _ _ _ Hk), Hr.
  assert (Hback : ({[mask tid]} ∪ seen) ∖ {[mask tid]} = seen) by solve_set.
  rewrite Hback.
  destruct (float v) as [e|f] eqn:Hf; simpl; [|done].
  by rewrite (float_raises _ _ Hf).
Qed.

End tagc_facts.

(** * Item and icon strings *)

Lemma no_char_app p a b : no_char p (a +:+ b) = no_char p a && no_char p b.
Proof.
  induction a as [|c a IH]; [done|].
  rewrite string_app_cons. simpl. rewrite IH. by rewrite andb_assoc.
Qed.

Lemma no_char_replace_char p a b s :
  p b = false → (∀ c, p c = true → c = a) → no_char p (replace_char a b s) = true.
Proof.
  intros Hb Ha. induction s as [|c s IH]; [done|]. simpl. rewrite IH.
  destruct (Ascii.eqb_spec c a) as [->|Hne]; [by rewrite Hb|].
  destruct (p c) eqn:Hc; [|done]. by apply Ha in Hc.
Qed.

Lemma no_char_replace_char_keeps p a b s :
  p b = false → no_char p s = true → no_char p (replace_char a b s) = true.
Proof.
  intros Hb. induction s as [|c s IH]; [done|]. simpl.
  intros [Hc Hs]%andb_true_iff. rewrite (IH Hs).
  destruct (Ascii.eqb c a); [by rewrite Hb|by rewrite Hc].
Qed.

Lemma replace_from_cons old new skip c s :
  replace_from old new skip (String c s)
  = match skip with
    | S skip' => replace_from old new skip' s
    | O =>
        if startswith (String c s) old
        then new +:+ replace_from old new (String.length old - 1) s
        else String c (replace_from old new O s)
    end.
Proof. reflexivity. Qed.

Lemma split_from_cons sep skip c s :
  split_from sep skip (String c s)
  = match skip with
    | S skip' => split_from sep skip' s
    | O =>
        if startswith (String c s) sep
        then "" :: split_from sep (String.length sep - 1) s
        else match split_from sep O s with
             | [] => [String c ""]
             | w :: ws => String c w :: ws
             end
    end.
Proof. reflexivity. Qed.

Lemma no_char_replace_from p old new skip s :
  no_char p new = true → no_char p s = true →
  no_char p (replace_from old new skip s) = true.
Proof.
  intros Hnew. revert skip. induction s as [|c s IH]; intros skip; [done|].
  intros H. simpl in H. apply andb_true_iff in H as [Hc Hs].
  rewrite replace_from_cons.
  destruct skip as [|skip]; [|by apply IH].
  destruct (startswith (String c s) old).
  - by rewrite no_char_app, Hnew, IH.
  - simpl. by rewrite Hc, IH.
Qed.

Lemma no_char_replace p old new s :
  no_char p new = true → no_char p s = true → no_char p (replace old new s) = true.
Proof. apply no_char_replace_from. Qed.

Lemma no_char_split_from p sep skip s :
  no_char p s = true → Forall (λ w, no_char p w = true) (split_from sep skip s).
Proof.
  revert skip. induction s as [|c s IH]; intros skip; [by repeat constructor|].
  intros H. simpl in H. apply andb_true_iff in H as [Hc Hs].
  rewrite split_from_cons.
  destruct skip as [|skip]; [|by apply IH].
  destruct (startswith (String c s) sep); [constructor; [done|by apply IH]|].
  specialize (IH O Hs).
  destruct (split_from sep 0 s) as [|w ws]; [by repeat constructor; simpl; rewrite Hc|].
  inversion IH as [|? ? Hw Hws]; subst.
  constructor; [|done]. simpl. by rewrite Hc, Hw.
Qed.

Lemma no_char_last_piece p sep s :
  no_char p s = true → no_char p (last_piece sep s) = true.
Proof.
  intros Hs. unfold last_piece, split_on.
  pose proof (no_char_split_from p sep O s Hs) as Hall.
  destruct (last (split_from sep 0 s)) as [w|] eqn:Hlast; [|done].
  rewrite Forall_forall in Hall. apply Hall. simpl.
  apply last_Some in Hlast as [l ->]. apply elem_of_app. right. by left.
Qed.

Lemma no_char_lstrip p q s : no_char p s = true → no_char p (lstrip q s) = true.
Proof.
  induction s as [|c s IH]; [done|]. simpl.
  intros [Hc Hs]%andb_true_iff.
  destruct (q c); [by apply IH|]. simpl. by rewrite Hc, Hs.
Qed.

Lemma no_char_rev_string p s : no_char p (rev_string s) = no_char p s.
Proof.
  induction s as [|c s IH]; [done|].
  rewrite rev_string_cons, no_char_app, IH. simpl.
  rewrite andb_true_r. apply andb_comm.
Qed.

Lemma no_char_strip p q s : no_char p s = true → no_char p (strip_chars q s) = true.
Proof.
  intros Hs. unfold strip_chars.
  rewrite no_char_rev_string. apply no_char_lstrip.
  rewrite no_char_rev_string. by apply no_char_lstrip.
Qed.

Lemma no_char_prefix p n s :
  no_char p s = true → no_char p (prefix_of_length n s) = true.
Proof.
  unfold prefix_of_length. revert s. induction n as [|n IH]; intros s.
  - by destruct s.
  - destruct s as [|c s]; [done|]. simpl.
    intros [Hc Hs]%andb_true_iff. by rewrite Hc, IH.
Qed.

Lemma length_prefix n s : (String.length (prefix_of_length n s) ≤ n)%nat.
Proof.
  unfold prefix_of_length. revert s. induction n as [|n IH]; intros s.
  - by destruct s.
  - destruct s as [|c s]; simpl; [lia|]. specialize (IH s). lia.
Qed.

Lemma rev_string_app a b : rev_string (a +:+ b) = rev_string b +:+ rev_string a.
Proof.
  induction a as [|c a IH].
  - by rewrite string_app_nil_l, string_app_nil_r.
  - by rewrite string_app_cons, !rev_string_cons, IH, string_app_assoc.
Qed.

Lemma rev_string_involutive s : rev_string (rev_string s) = s.
Proof.
  induction s as [|c s IH]; [done|].
  by rewrite rev_string_cons, rev_string_app, IH.
Qed.

Lemma lstrip_suffix p s : ∃ v, s = v +:+ lstrip p s.
Proof.
  induction s as [|c s [v IH]]; [by exists ""|]. simpl.
  destruct (p c).
  - exists (String c v). by rewrite string_app_cons, <-IH.
  - by exists "".
Qed.

Lemma lstrip_fixed p s : (∀ c t, s = String c t → p c = false) → lstrip p s = s.
Proof.
  destruct s as [|c s]; [done|]. intros H. simpl.
  by rewrite (H c s eq_refl).
Qed.

(** Stripping what has been stripped changes nothing. *)
Lemma strip_chars_idemp p s : strip_chars p (strip_chars p s) = strip_chars p s.
Proof.
  unfold strip_chars.
  set (t := lstrip p s). set (u := lstrip p (rev_string t)).
  assert (Hu : lstrip p u = u).
  { apply lstrip_fixed. intros c w Hw. by apply (lstrip_head p (rev_string t) c w). }
  assert (Hr : lstrip p (rev_string u) = rev_string u).
  { apply lstrip_fixed. intros c w Hw.
    destruct (lstrip_suffix p (rev_string t)) as [v Hv]. fold u in Hv.
    apply (f_equal rev_string) in Hv.
    rewrite rev_string_involutive, rev_string_app, Hw, string_app_cons in Hv.
    by apply (lstrip_head p s c (w +:+ rev_string v)). }
  by rewrite Hr, rev_string_involutive, Hu.
Qed.

Section object_string_facts.

Variable orig_str_to_identifier : string → option string.

Local Abbreviation str_to_identifier := (str_to_identifier orig_str_to_identifier).
Local Abbreviation item_words := (item_words orig_str_to_identifier).
Local Abbreviation item_string := (item_string orig_str_to_identifier).
Local Abbreviation icon_string := (icon_string orig_str_to_identifier).
Local Abbreviation set_item_strings := (set_item_strings orig_str_to_identifier).
Local Abbreviation set_icon_strings := (set_icon_strings orig_str_to_identifier).

Lemma item_words_no_underscore data : no_char is_underscore (item_words data) = true.
Proof.
  unfold item_words. repeat (apply no_char_replace; [done|]).
  apply no_char_replace_char; [done|].
  intros c Hc. by apply Ascii.eqb_eq in Hc.
Qed.

Lemma item_string_no_underscore data : no_char is_underscore (item_string data) = true.
Proof.
  unfold item_string. apply no_char_strip.
  pose proof (item_words_no_underscore data) as Hw.
  destruct (String.eqb _ "need a string entry here"); [done|].
  destruct (FLAG_MATCH_SUB _); [done|].
  destruct (BALL_MATCH_SUB _); [done|].
  destruct (contains " for " _).
  { by rewrite no_char_app, no_char_last_piece. }
  destruct (startswith _ "for "); [|done].
  by rewrite no_char_app, no_char_last_piece.
Qed.

Lemma icon_string_no_underscore data : no_char is_underscore (icon_string data) = true.
Proof.
  unfold icon_string. apply no_char_strip.
  destruct (String.eqb _ "need a string entry here"); [done|].
  apply no_char_strip. apply no_char_replace_char; [done|].
  intros c Hc. by apply Ascii.eqb_eq in Hc.
Qed.

Lemma get_object_string_map (f : string → string) strings index :
  get_object_string (f <$> strings) index
  = if bool_decide (0 ≤ index < Z.of_nat (length strings))
    then prefix_of_length max_object_str_len
           (default "" (f <$> strings !! Z.to_nat index))
    else "".
Proof.
  unfold get_object_string. by rewrite length_fmap, list_lookup_fmap.
Qed.

(** X28. What [get_item_string] and [get_icon_string] read after
    [set_item_strings] and [set_icon_strings]: at an index of the strings
    handed in, the first 120 characters of what the string was turned
    into; at any other index, a negative one included, the empty string.
    What they read never has more than 120 characters and never contains
    an underscore. *)
Theorem object_strings_read_back strings index :
  let item := get_item_string (set_item_strings strings) index in
  let icon := get_icon_string (set_icon_strings strings) index in
  (String.length item ≤ max_object_str_len)%nat
  ∧ (String.length icon ≤ max_object_str_len)%nat
  ∧ no_char is_underscore item = true
  ∧ no_char is_underscore icon = true
  ∧ match strings !! Z.to_nat index with
    | Some data =>
        if bool_decide (0 ≤ index)
        then item = prefix_of_length max_object_str_len (item_string data)
             ∧ icon = prefix_of_length max_object_str_len (icon_string data)
        else item = "" ∧ icon = ""
    | None => item = "" ∧ icon = ""
    end.
Proof.
  intros item icon. unfold item, icon, get_item_string, get_icon_string.
  unfold set_item_strings, set_icon_strings. rewrite !get_object_string_map.
  destruct (strings !! Z.to_nat index) as [data|] eqn:Hdata.
  - pose proof (lookup_lt_Some _ _ _ Hdata) as Hlt. simpl.
    case_bool_decide as Hpos.
    + rewrite bool_decide_eq_true_2 by lia.
      repeat split; try apply length_prefix; try done;
        apply no_char_prefix;
        [apply item_string_no_underscore|apply icon_string_no_underscore].
    + rewrite bool_decide_eq_false_2 by lia. repeat split; simpl; lia.
  - apply lookup_ge_None in Hdata.
    rewrite bool_decide_eq_false_2 by lia. repeat split; simpl; lia.
Qed.

(** X29. The strings [set_item_strings] and [set_icon_strings] store have no
    white space at either end, and an icon string is never the placeholder
    text. *)
Theorem object_strings_are_stripped data :
  strip (item_string data) = item_string data
  ∧ strip (icon_string data) = icon_string data
  ∧ icon_string data ≠ "need a string entry here".
Proof.
  split; [apply strip_chars_idemp|]. split; [apply strip_chars_idemp|].
  unfold icon_string.
  destruct (String.eqb_spec
              (strip (replace_char "_" " " (str_to_identifier (lower data))))
              "need a string entry here") as [Heq|Hne]; [done|].
  unfold strip in *. by rewrite strip_chars_idemp.
Qed.

Lemma startswith_backspace s word :
  no_char is_backspace_char s = true → startswith s (between_backspaces word) = false.
Proof.
  destruct s as [|c s]; [done|]. simpl.
  intros [Hc _]%andb_true_iff. apply negb_true_iff in Hc.
  unfold is_backspace_char in Hc. by rewrite Hc.
Qed.

(** X30. The patterns for flags and balls never match an item string whose
    identifier has no backspace character in it: these two rules of
    [set_item_strings] are never applied to such a string, and what is
    stored for it is decided by the other rules alone. *)
Theorem item_string_patterns_never_match data :
  no_char is_backspace_char (str_to_identifier (lower data)) = true →
  FLAG_MATCH_SUB (item_words data) = false
  ∧ BALL_MATCH_SUB (item_words data) = false
  ∧ item_string data
    = strip (let s := item_words data in
             if String.eqb s "need a string entry here" then ""
             else if contains " for " s then last_piece " for " s +:+ " ammo"
             else if startswith s "for " then last_piece "for " s +:+ " ammo"
             else s).
Proof.
  intros Hid.
  assert (Hw : no_char is_backspace_char (item_words data) = true).
  { unfold item_words. repeat (apply no_char_replace; [done|]).
    by apply no_char_replace_char_keeps. }
  assert (Hflag : FLAG_MATCH_SUB (item_words data) = false).
  { by apply startswith_backspace. }
  assert (Hball : BALL_MATCH_SUB (item_words data) = false).
  { unfold BALL_MATCH_SUB. by rewrite !startswith_backspace. }
  split; [done|]. split; [done|].
  unfold item_string. by rewrite Hflag, Hball.
Qed.

End object_string_facts.

(** * Concrete runs of the further properties *)

Lemma set_path_round_trip_witness :
  let h := __init__ [TagRef "x\a" "Bitmap" false] (Fin 0) ∅ ∅ ∅ in
  let h' := state_after h (set_path sanitize_plain h (Some 0) "X\B" true false) in
  "x\b.bitmap" = get_path h' (Some 0) +:+ "." +:+ lower (get_ext h' (Some 0))
  ∧ lower (get_path h' (Some 0)) = get_path h' (Some 0)
  ∧ get_ext h' (Some 0) = get_ext h (Some 0)
  ∧ _path_map h' !! "x\b.bitmap" = Some (mask 0)
  ∧ (get_full_tag_path h' (Some 0) ≠ "" →
     lower (get_full_tag_path h' (Some 0)) = "x\b.bitmap")
  ∧ same_books h h'.
Proof.
  intros h h'.
  apply (set_path_round_trip sanitize_plain h 0 "X\B" true false h' "x\b.bitmap").
  vm_compute. reflexivity.
Defined.

Lemma set_path_frame_witness :
  let h := __init__ [TagRef "x\a" "bitmap" false; TagRef "x\c" "bitmap" false]
             (Fin 0) ∅ ∅ ∅ in
  let h' := state_after h (set_path sanitize_plain h (Some 0) "x\b" true false) in
  (∀ j, mask j ≠ mask 0 → get_index_ref h' (Some j) = get_index_ref h (Some j))
  ∧ (∀ key, key ≠ "x\b.bitmap" →
       _path_map h' !! key
       = if decide (key = full_path (TagRef "x\a" "bitmap" false)) then None
         else _path_map h !! key).
Proof.
  intros h h'.
  apply (set_path_frame sanitize_plain h 0 (TagRef "x\a" "bitmap" false) "x\b"
           true false h' "x\b.bitmap").
  - reflexivity.
  - vm_compute. reflexivity.
Defined.

Lemma set_path_raises_only_key_error_witness :
  let h := __init__ [TagRef "a" "bitmap" false; TagRef "b" "bitmap" false]
             (Fin 0) ∅ ∅ ∅ in
  KeyError = KeyError ∧ false = false
  ∧ ∃ i tag_ref key owner,
      Some 1 = Some i ∧ get_index_ref h (Some 1) = Some tag_ref
      ∧ _path_map h !! key = Some owner ∧ owner ≠ mask i.
Proof.
  intros h.
  apply (set_path_raises_only_key_error sanitize_plain h (Some 1) "a" false false
           KeyError).
  vm_compute. reflexivity.
Defined.

Lemma perm_suffixed_path_has_no_digit_suffix_witness :
  let h := __init__ [TagRef "x\a" "sound" false] (Fin 0) ∅ ∅ {["sound"]} in
  let h' := state_after h (set_path sanitize_plain h (Some 0) "x\b2" true false) in
  ends_with_digit (get_path h' (Some 0)) = false.
Proof.
  intros h h'.
  apply (perm_suffixed_path_has_no_digit_suffix sanitize_plain h 0
           (TagRef "x\a" "sound" false) "x\b2" true false h' "x\b2_.sound").
  - reflexivity.
  - vm_compute. apply (bool_decide_unpack _). vm_compute. exact I.
  - vm_compute. reflexivity.
Defined.

(** The name asked for ended in a digit; the sound is filed with an
    underscore after it. *)
Example perm_suffixed_run :
  let h := __init__ [TagRef "x\a" "sound" false] (Fin 0) ∅ ∅ {["sound"]} in
  get_path (state_after h (set_path sanitize_plain h (Some 0) "x\b2" true false))
    (Some 0) = "x\b2_".
Proof. vm_compute. reflexivity. Qed.

Lemma set_overwritable_false_blocks_witness :
  let h := __init__ [TagRef "x\a" "bitmap" false] (Fin 0) ∅ ∅ ∅ in
  set_path_by_priority sanitize_plain (set_overwritable h (Some 0) false) (Some 0)
    "x\b" (Some (Fin 9)) true
  = inr (set_overwritable h (Some 0) false, get_priority h (Some 0)).
Proof.
  intros h.
  apply (set_overwritable_false_blocks sanitize_plain h (Some 0) "x\b"
           (Some (Fin 9)) true).
  vm_compute. eexists. reflexivity.
Defined.

Lemma override_renames_pinned_once_overwritable_witness :
  let h := __init__ [TagRef "x\a" "bitmap" true] (Fin 0) ∅ ∅ ∅ in
  let h1 := set_overwritable h (Some 0) true in
  let h2 := renamed h1 0 (TagRef "x\a" "bitmap" true) "x\b" INF in
  set_path_by_priority sanitize_plain h1 (Some 0) "x\b" (Some INF) false
    = inr (h1, get_priority h (Some 0))
  ∧ set_path_by_priority sanitize_plain h1 (Some 0) "x\b" (Some INF) true
    = inr (h2, INF)
  ∧ get_index_ref h2 (Some 0) = Some (TagRef "x\b" "bitmap" true).
Proof.
  intros h h1 h2.
  destruct (override_renames_pinned_once_overwritable sanitize_plain h 0
              (TagRef "x\a" "bitmap" true) "x\b" INF) as [H1 [H2 H3]].
  - reflexivity.
  - reflexivity.
  - reflexivity.
  - split; [vm_compute; reflexivity|]. intros H. vm_compute in H. discriminate H.
  - split; [exact H1|]. split; [exact H2|exact H3].
Defined.

(** The pinned tag, switched on and proposed to with [override] at [INF],
    has the new path. *)
Example pinned_renamed_run :
  let h := __init__ [TagRef "x\a" "bitmap" true] (Fin 0) ∅ ∅ ∅ in
  get_path
    (propose sanitize_plain (set_overwritable h (Some 0) true)
       (Proposal (Some 0) "x\b" (Some INF) true)) (Some 0) = "x\b".
Proof. vm_compute. reflexivity. Qed.

Lemma shorten_paths_rebuilds_path_map_witness :
  let h := __init__ [TagRef "ui\shell\bitmaps\background" "bitmap" true]
             (Fin 0) ∅ ∅ ∅ in
  let res := shorten_paths sanitize_plain 10 h
               [("ui\shell\bitmaps\background.bitmap", 0)] 20 false false in
  let h' := compacted h res in
  h' = with_path_map h (_path_map h')
  ∧ ∀ key i,
      _path_map h' !! key = Some i
      ↔ ∃ pos, i = Z.of_nat pos ∧ last_with_full_path (_index_map h) key pos.
Proof.
  intros h res h'.
  apply (shorten_paths_rebuilds_path_map sanitize_plain 10 h
           [("ui\shell\bitmaps\background.bitmap", 0)] 20 false false h'
           (warnings_of res)).
  vm_compute. reflexivity.
Defined.

Lemma path_map_mirrors_index_witness :
  let h0 := __init__ [TagRef "x\a" "bitmap" false; TagRef "x\c" "bitmap" false]
              (Fin 0) ∅ ∅ ∅ in
  path_map_exact (state_after h0 (set_path sanitize_plain h0 (Some 0) "x\b" true false)).
Proof.
  intros h0.
  apply (path_map_mirrors_index sanitize_plain
           [TagRef "x\a" "bitmap" false; TagRef "x\c" "bitmap" false]
           (Fin 0) ∅ ∅ ∅).
  - apply (bool_decide_unpack _). vm_compute. exact I.
  - apply rtc_once, call_step.
    apply (step_set_path sanitize_plain h0 (Some 0) "x\b" true false _
             (Some "x\b.bitmap")).
    vm_compute. reflexivity.
Defined.

(** After the renaming the old name is free: the path map has no entry for
    it. *)
Example old_name_is_free :
  let h0 := __init__ [TagRef "x\a" "bitmap" false; TagRef "x\c" "bitmap" false]
              (Fin 0) ∅ ∅ ∅ in
  let h := state_after h0 (set_path sanitize_plain h0 (Some 0) "x\b" true false) in
  _path_map h !! "x\a.bitmap" = None ∧ _path_map h !! "x\b.bitmap" = Some 0.
Proof. split; vm_compute; reflexivity. Qed.

Lemma get_sub_dir_returns_whole_directory_witness :
  let h := __init__ [TagRef "a\b\c" "bitmap" false] (Fin 0) ∅ ∅ ∅ in
  "a\b\" +:+ get_basename h (Some 0) = join "\" (parts "a\b\c").
Proof.
  intros h.
  apply (get_sub_dir_returns_whole_directory h (Some 0) "z\a"
           (TagRef "a\b\c" "bitmap" false) "a\b\").
  - reflexivity.
  - reflexivity.
  - reflexivity.
  - reflexivity.
Defined.

(** Assigning the empty string to [root_dir_prefix] stores a dot and a
    backslash; a bare root clears the prefix. *)
Example root_dir_prefix_of_empty_string :
  let h := __init__ [] (Fin 0) ∅ ∅ ∅ in
  root_dir_prefix (set_root_dir_prefix h "") = ".\"
  ∧ root_dir_prefix (set_root_dir_prefix h "\") = ""
  ∧ root_dir_prefix (set_root_dir_prefix h "Deprotected/Tags\\") = "deprotected\tags\".
Proof. repeat split; vm_compute; reflexivity. Qed.

Lemma shorten_name_to_parent_same_words_witness :
  shorten_name_to_parent "plasma_rifle" "plasma rifle" = "".
Proof.
  apply (shorten_name_to_parent_same_words "plasma_rifle" "plasma rifle").
  reflexivity.
Defined.

Lemma shorten_name_to_parent_nothing_shared_witness :
  shorten_name_to_parent "weapons" "plasma rifle"
  = if char_in "_" "plasma rifle" && char_in " " "plasma rifle"
    then replace_char " " "_" "plasma rifle"
    else "plasma rifle".
Proof.
  apply (shorten_name_to_parent_nothing_shared "weapons" "plasma rifle").
  - intros H. vm_compute in H. discriminate H.
  - intros H. vm_compute in H. discriminate H.
Defined.

(** Words shared with the parent go; a name that mixes blanks and
    underscores comes back with underscores. *)
Example shorten_name_to_parent_runs :
  shorten_name_to_parent "plasma rifle" "plasma rifle_fp arms" = "fp_arms"
  ∧ shorten_name_to_parent "weapons" "fp arms_left" = "fp_arms_left".
Proof. split; vm_compute; reflexivity. Qed.

Lemma walker_only_proposes_witness :
  let h := __init__ [TagRef "" "tag_collection" false;
                     TagRef "" "tag_collection" false] (Fin 0) ∅ ∅ ∅ in
  let kw := Kwargs None false false false false None in
  let registry := tag_collections_only (cycle_of_two 0 1) (Fin 1) in
  let res := heuristic_deprotect sanitize_plain registry 3 (Some 0)
               "" "ui\" "shell" kw (h, ∅) in
  let h' := (world_after (h, ∅) res).1 in
  rtc (walk_step sanitize_plain) h h'
  ∧ ∅ ⊆ (world_after (h, ∅) res).2
  ∧ (∀ e, value_after res = inl e → e = OverflowError)
  ∧ tag_kinds h' = tag_kinds h
  ∧ _overwritables h' = _overwritables h.
Proof.
  intros h kw registry res h'.
  apply (walker_only_proposes sanitize_plain registry 3 (Some 0) "" "ui\" "shell"
           kw h ∅ h' (world_after (h, ∅) res).2 (value_after res)).
  vm_compute. reflexivity.
Defined.

(** A priority that has no float, proposed for a tag without a policy from
    within the walk of a pinned collection: the nested walk renames the
    tag and raises, and the tag stays in the visited set, while the walk of
    the collection returns. *)
Example walker_leaves_tag_marked :
  let h := __init__ [TagRef "coll" "tag_collection" true; TagRef "y" "bitmap" false]
             (Fin 0) ∅ ∅ ∅ in
  let kw := Kwargs None false false false false None in
  let references := λ t : option Z,
    if bool_decide (t = Some 0) then Some [Some 1] else None in
  let res := heuristic_deprotect sanitize_plain
               (tag_collections_only references (Fin (10 ^ 400))) 3 (Some 0)
               "" "ui\" "shell" kw (h, ∅) in
  value_after res = inr INF
  ∧ elements (world_after (h, ∅) res).2 = [1]
  ∧ get_path (world_after (h, ∅) res).1 (Some 1) = "coll\protected_1"
  ∧ get_priority (world_after (h, ∅) res).1 (Some 1) = Fin 0.
Proof. repeat split; vm_compute; reflexivity. Qed.


Lemma walker_never_lowers_priority_witness :
  let h := __init__ [TagRef "" "tag_collection" false;
                     TagRef "" "tag_collection" false] (Fin 0) ∅ ∅ ∅ in
  let kw := Kwargs None false false false false None in
  let registry := tag_collections_only (cycle_of_two 0 1) (Fin 1) in
  let res := heuristic_deprotect sanitize_plain registry 3 (Some 0)
               "" "ui\" "shell" kw (h, ∅) in
  is_float (get_priority (world_after (h, ∅) res).1 (Some 1))
  ∧ prio_leb (get_priority h (Some 1))
      (get_priority (world_after (h, ∅) res).1 (Some 1)) = true.
Proof.
  intros h kw registry res.
  apply (walker_never_lowers_priority sanitize_plain registry 3 (Some 0) "" "ui\"
           "shell" kw h ∅ (world_after (h, ∅) res).1 (world_after (h, ∅) res).2
           (value_after res) 1).
  - vm_compute. reflexivity.
  - reflexivity.
Defined.

Lemma walker_keeps_pinned_entries_witness :
  let refs := [TagRef "" "tag_collection" false;
               TagRef "scenery\rock" "bitmap" true] in
  let h := __init__ refs (Fin 0) ∅ ∅ ∅ in
  let kw := Kwargs None false false false true None in
  let references := λ t : option Z,
    if bool_decide (t = Some 0) then Some [Some 1] else None in
  let registry := tag_collections_only references (Fin 1) in
  let res := heuristic_deprotect sanitize_plain registry 3 (Some 0)
               "" "ui\" "shell" kw (h, ∅) in
  let h' := (world_after (h, ∅) res).1 in
  get_index_ref h' (Some 1) = Some (TagRef "scenery\rock" "bitmap" true)
  ∧ get_priority h' (Some 1) = get_priority h (Some 1).
Proof.
  intros refs h kw references registry res h'.
  apply (walker_keeps_pinned_entries sanitize_plain registry refs (Fin 0) ∅ ∅ ∅ 3
           (Some 0) "" "ui\" "shell" kw h ∅ h' (world_after (h, ∅) res).2
           (value_after res) 1 (TagRef "scenery\rock" "bitmap" true)).
  - apply rtc_refl.
  - vm_compute. reflexivity.
  - reflexivity.
  - reflexivity.
Defined.

(** The same walk: the collection is renamed, the pinned bitmap it refers
    to is not, although the walk went through it with [override] set. *)
Example walker_pinned_run :
  let h := __init__ [TagRef "" "tag_collection" false;
                     TagRef "scenery\rock" "bitmap" true] (Fin 0) ∅ ∅ ∅ in
  let kw := Kwargs None false false false true None in
  let references := λ t : option Z,
    if bool_decide (t = Some 0) then Some [Some 1] else None in
  let res := heuristic_deprotect sanitize_plain
               (tag_collections_only references (Fin 1)) 3 (Some 0)
               "" "ui\" "shell" kw (h, ∅) in
  get_path (world_after (h, ∅) res).1 (Some 0) = "ui\shell"
  ∧ get_path (world_after (h, ∅) res).1 (Some 1) = "scenery\rock".
Proof. split; vm_compute; reflexivity. Qed.

Lemma walker_fuel_bound_witness :
  let h := __init__ [TagRef "" "tag_collection" false;
                     TagRef "" "tag_collection" false] (Fin 0) ∅ ∅ ∅ in
  let kw := Kwargs None false false false false None in
  let registry := tag_collections_only (cycle_of_two 0 1) (Fin 1) in
  is_Some (heuristic_deprotect sanitize_plain registry 3 (Some 0)
             "" "ui\" "shell" kw (h, ∅)).
Proof.
  intros h kw registry.
  apply (walker_fuel_bound sanitize_plain registry 3 (Some 0) "" "ui\" "shell" kw h ∅).
  simpl. lia.
Defined.

Lemma rename_tagc_without_metadata_witness :
  let h := __init__ [TagRef "coll" "tag_collection" false; TagRef "y" "bitmap" false]
             (Fin 0) ∅ ∅ ∅ in
  let kw := Kwargs (Some (Fin 5)) false false false false None in
  let tag_references := λ _ : option Z, @None (list (option Z)) in
  heuristic_deprotect sanitize_plain (tag_collections_only tag_references (Fin 1)) 1
    (Some 0) "" "" "coll" kw (h, ∅)
  = Some ((with_priority_mins h (<[mask 0 := INF]> (_priority_mins h)), ∅), inr INF).
Proof.
  intros h kw tag_references.
  apply (rename_tagc_without_metadata sanitize_plain
           (tag_collections_only tag_references (Fin 1)) tag_references (Fin 1)
           0 0 "" "" "coll" kw h ∅ (TagRef "coll" "tag_collection" false)).
  - reflexivity.
  - reflexivity.
  - solve_set.
  - reflexivity.
  - reflexivity.
  - reflexivity.
Defined.

Lemma rename_tagc_stops_at_shared_root_witness :
  let h := __init__ [TagRef "coll" "tag_collection" false; TagRef "y" "bitmap" false]
             (Fin 0) ∅ ∅ ∅ in
  let kw := Kwargs (Some (Fin 5)) false false false false None in
  let tag_references :=
    λ t : option Z, if bool_decide (t = Some 0) then Some [Some 1] else None in
  let h1 := propose sanitize_plain h (Proposal (Some 0) "tags\coll" (Some (Fin 1)) false) in
  heuristic_deprotect sanitize_plain (tag_collections_only tag_references (Fin 1)) 3
    (Some 0) "tags\" "" "coll" kw (h, ∅)
  = Some ((with_priority_mins h1 (<[mask 0 := Fin 1]> (_priority_mins h1)), ∅),
          inr (Fin 1)).
Proof.
  intros h kw tag_references h1.
  apply (rename_tagc_stops_at_shared_root sanitize_plain
           (tag_collections_only tag_references (Fin 1)) tag_references (Fin 1)
           2 0 "tags\" "" "coll" kw h ∅ (TagRef "coll" "tag_collection" false)
           [Some 1] h1 (Fin 1) "tags" [] []).
  - reflexivity.
  - reflexivity.
  - solve_set.
  - reflexivity.
  - reflexivity.
  - reflexivity.
  - vm_compute. reflexivity.
  - vm_compute. reflexivity.
  - reflexivity.
Defined.

(** With the root [tags\] the bitmap the collection refers to keeps its
    path; with no root it is walked and filed in the directory named after
    the collection, at the low priority of the collection. *)
Example rename_tagc_runs :
  let h := __init__ [TagRef "coll" "tag_collection" false; TagRef "y" "bitmap" false]
             (Fin 0) ∅ ∅ ∅ in
  let kw := Kwargs (Some (Fin 5)) false false false false None in
  let tag_references :=
    λ t : option Z, if bool_decide (t = Some 0) then Some [Some 1] else None in
  let registry := tag_collections_only tag_references (Fin 1) in
  let rooted := heuristic_deprotect sanitize_plain registry 3 (Some 0)
                  "tags\" "" "coll" kw (h, ∅) in
  let plain := heuristic_deprotect sanitize_plain registry 3 (Some 0)
                 "" "ui\" "coll" kw (h, ∅) in
  get_path (world_after (h, ∅) rooted).1 (Some 0) = "tags\coll"
  ∧ get_path (world_after (h, ∅) rooted).1 (Some 1) = "y"
  ∧ get_path (world_after (h, ∅) plain).1 (Some 0) = "ui\coll"
  ∧ get_path (world_after (h, ∅) plain).1 (Some 1) = "ui\coll\protected_1"
  ∧ get_priority (world_after (h, ∅) plain).1 (Some 1) = Fin 1.
Proof. repeat split; vm_compute; reflexivity. Qed.

Lemma set_path_own_name_witness :
  let h := __init__ [TagRef "x\a" "bitmap" false; TagRef "x\b" "bitmap" false]
             (Fin 0) ∅ ∅ ∅ in
  set_path sanitize_plain h (Some 0) "x\a" true false
    = inr (h, Some (full_path (TagRef "x\a" "bitmap" false))).
Proof.
  intros h.
  apply (set_path_own_name sanitize_plain h 0 (TagRef "x\a" "bitmap" false) true).
  - reflexivity.
  - vm_compute. reflexivity.
  - discriminate.
  - reflexivity.
  - vm_compute. reflexivity.
  - intros _. reflexivity.
Defined.

Lemma item_string_patterns_never_match_witness :
  let ident := λ s : string, Some s in
  FLAG_MATCH_SUB (item_words ident "Flag") = false
  ∧ BALL_MATCH_SUB (item_words ident "Flag") = false
  ∧ item_string ident "Flag"
    = strip (let s := item_words ident "Flag" in
             if String.eqb s "need a string entry here" then ""
             else if contains " for " s then last_piece " for " s +:+ " ammo"
             else if startswith s "for " then last_piece "for " s +:+ " ammo"
             else s).
Proof.
  intros ident.
  apply (item_string_patterns_never_match ident "Flag").
  reflexivity.
Defined.

(** The rules of [set_item_strings] at work, with an identifier function
    that leaves every string as it is. The placeholder is only recognised
    without blanks around it; the last string is the word [flag] between
    two backspace characters, which is what the pattern for flags
    matches. *)
Example set_item_strings_run :
  set_item_strings (λ s, Some s)
    ["picked up a needler"; "bullets for pistol"; "for sniper";
     "need a string entry here"; " need a string entry here";
     between_backspaces "flag" +:+ " x"]
  = ["needler"; "pistol ammo"; "sniper ammo"; ""; "need a string entry here";
     "flag"].
Proof. vm_compute. reflexivity. Qed.

Example set_icon_strings_run :
  set_icon_strings (λ s, Some s) ["Warthog_Driver"; " need a string entry here "; ""]
  = ["warthog driver"; ""; ""].
Proof. vm_compute. reflexivity. Qed.

Lemma get_will_overwrite_monotone_witness :
  let h := __init__ [TagRef "x\a" "bitmap" false] (Fin 0) ∅ ∅ ∅ in
  get_will_overwrite h (Some 0) (Some (Fin 2)) true = inr true.
Proof.
  intros h.
  apply (get_will_overwrite_monotone h (Some 0) (Fin 1) (Fin 2) false true).
  - eexists. reflexivity.
  - reflexivity.
  - reflexivity.
  - discriminate.
Defined.

Lemma walker_without_policy_witness :
  let h := __init__ [TagRef "x\a" "bitmap" false] (Fin 0) ∅ ∅ ∅ in
  let kw := Kwargs (Some (Fin (2 ^ 53 + 1))) false false false false None in
  let h1 := propose sanitize_plain h
              (Proposal (Some 0) "ui\bitmaps\cursor" (Some (Fin (2 ^ 53 + 1))) false) in
  heuristic_deprotect sanitize_plain (λ _, None) 1 (Some 0)
    "ui\" "bitmaps\" "cursor" kw (h, ∅)
  = Some ((with_priority_mins h1 (<[mask 0 := Fin (2 ^ 53)]> (_priority_mins h1)), ∅),
          inr (Fin (2 ^ 53 + 1)))
  ∧ float (get_priority h1 (Some 0)) = inr (Fin (2 ^ 53)).
Proof.
  intros h kw h1.
  pose proof (walker_without_policy sanitize_plain (λ _, None) 0 0 "ui\" "bitmaps\"
                "cursor" kw h ∅ (TagRef "x\a" "bitmap" false)) as H.
  assert (E : set_path_by_priority sanitize_plain h (Some 0)
                ("ui\" +:+ "bitmaps\" +:+ "cursor") (kw_priority kw) (kw_override kw)
              = inr (h1, Fin (2 ^ 53 + 1))) by (vm_compute; reflexivity).
  rewrite E in H.
  assert (Hf : float (Fin (2 ^ 53 + 1)) = inr (Fin (2 ^ 53))) by (vm_compute; reflexivity).
  rewrite Hf in H. apply H.
  - reflexivity.
  - reflexivity.
  - solve_set.
  - reflexivity.
  - reflexivity.
Defined.
